(** * trx-javascript: the tractography decoders and their ZIP reader

    A shallow embedding of [src/nvtract-loaders.ts] (readTCK, readTRK,
    readTRX, readTT), [src/nvutilities.ts] (Zip) and the VTK loader
    (readVTK), followed by the properties the specification states about
    them.

    Conventions of the embedding
    - an [ArrayBuffer] is a [list byte]; positions are [Z];
    - a JavaScript number is an IEEE-754 binary64 value, [spec_float] with
      the operations of [SpecFloat] at precision 53; a [Float32Array]
      element is such a value after [fround];
    - an exception is the [Throw] branch of [result]; every [throw] site of
      the source has its own constructor of [error], and the [RangeError]
      the runtime raises on an out-of-bounds [DataView] access has one too;
    - the object readMatV4 fills is the list of its own properties; a
      variable named __proto__ would replace its prototype, and the model
      stops there with [MAT_proto_name];
    - [console.error] and [log.warn] append to an explicit log;
    - a loop that is not structural runs on fuel, bounded by the length of
      the buffer it walks; [OutOfFuel] is the result when the fuel is spent;
    - a string decoded by [TextDecoder] is the list of its UTF-8 bytes, a
      file name of the zip reader the list of its one-byte characters. *)

From Stdlib Require Import ZArith List Bool Lia String.
From Stdlib Require Import Strings.Byte.
From Stdlib Require Import Floats.SpecFloat.
From stdpp Require Import base list.
Import ListNotations.
Local Open Scope Z_scope.

(* ===================================================================== *)
(** ** Exceptions *)
(* ===================================================================== *)

Inductive error : Type :=
  (* raised by the runtime *)
  | RangeError                      (* DataView or typed-array bounds *)
  | OutOfFuel                       (* the model's fuel is spent *)
  (* readTCK *)
  | TCK_too_small (len : Z)         (* 'File too small to be TCK: bytes = ' *)
  | TCK_not_valid                   (* 'Not a valid TCK file' *)
  | TCK_missing_offset              (* '... (missing file offset)' *)
  (* readTRK *)
  | TRK_zstd                        (* 'zstd TRK decompression is not supported' *)
  | TRK_not_valid                   (* 'Not a valid TRK file' *)
  | TRK_empty                       (* 'Empty TRK file.' *)
  | Decompress_failed               (* the external decompressor rejects *)
  (* Zip *)
  | ZIP64_too_small (fieldLength : Z)
  | ZIP64_missing
  | Unsupported_compression (method : Z)
  (* readTRX *)
  | TRX_no_offsets_or_points        (* 'Failure reading TRX format ...' *)
  | TRX_too_many_vertices           (* 'Too many vertices: ...' *)
  | JSON_syntax                     (* JSON.parse rejects header.json *)
  (* readMatV4 and readTT *)
  | MAT_too_small (len : Z)
  | MAT_imaginary
  | MAT_empty_array
  | MAT_impossible_datatype
  | MAT_not_little_endian
  | MAT_proto_name                  (* no exception of the source: a variable
                                       named __proto__ replaces the prototype
                                       of the object, and what the later
                                       assignments do depends on it *)
  | TT_missing (variable : string)
  (* readVTK *)
  | VTK_too_small (len : Z)
  | VTK_invalid
  | VTK_not_binary
  | VTK_not_polydata
  | VTK_bad_points
  | VTK_ascii_hint                  (* 'See NiiVue for VTK ASCII support.' *)
  | VTK_not_lines
  | VTK_eof_count
  | VTK_eof_points
  | VTK_index_out_of_bounds (idx nvert3 : Z).

Inductive result (A : Type) : Type :=
  | Ok (a : A)
  | Throw (e : error).
Arguments Ok {A} a.
Arguments Throw {A} e.

Definition bind {A B} (r : result A) (k : A -> result B) : result B :=
  match r with
  | Ok a => k a
  | Throw e => Throw e
  end.

Declare Scope js_scope.
Delimit Scope js_scope with js.
Notation "'let*' x ':=' r 'in' k" := (bind r (fun x => k))
  (at level 10, x pattern, r at level 100, k at level 200) : js_scope.
Local Open Scope js_scope.

(* ===================================================================== *)
(** ** Numbers *)
(* ===================================================================== *)

Module Num.

(** A JavaScript number. *)
Abbreviation number := spec_float.

Definition add : number -> number -> number := SFadd 53 1024.
Definition mul : number -> number -> number := SFmul 53 1024.
Definition div : number -> number -> number := SFdiv 53 1024.

(** The number [m * 2^e]. *)
Definition dyadic (m e : Z) : number := binary_normalize 53 1024 m e false.
Definition of_Z (z : Z) : number := dyadic z 0.
Definition NaN : number := S754_nan.

(** [Math.fround]: round to binary32, read back as a number. *)
Definition fround (x : number) : number :=
  match x with
  | S754_finite s m e =>
      match binary_round 24 128 s m e with
      | S754_finite s' m' e' => binary_round 53 1024 s' m' e'
      | y => y
      end
  | _ => x
  end.

Definition isNaN (x : number) : bool :=
  match x with S754_nan => true | _ => false end.

Definition isFinite (x : number) : bool :=
  match x with
  | S754_nan | S754_infinity _ => false
  | _ => true
  end.

(** [x === 0.0] *)
Definition is_zero (x : number) : bool :=
  match x with S754_zero _ => true | _ => false end.

(** The value of a binary32 bit pattern. *)
Definition of_bits32 (w : Z) : number :=
  let s := Z.testbit w 31 in
  let ex := Z.land (Z.shiftr w 23) 255 in
  let mant := Z.land w 8388607 in
  if ex =? 255 then (if mant =? 0 then S754_infinity s else S754_nan)
  else if ex =? 0 then
    binary_normalize 53 1024 (if s then - mant else mant) (-149) s
  else
    binary_normalize 53 1024
      (if s then - (mant + 8388608) else mant + 8388608) (ex - 150) s.

(** The value of a binary64 bit pattern. *)
Definition of_bits64 (w : Z) : number :=
  let s := Z.testbit w 63 in
  let ex := Z.land (Z.shiftr w 52) 2047 in
  let mant := Z.land w 4503599627370495 in
  if ex =? 2047 then (if mant =? 0 then S754_infinity s else S754_nan)
  else if ex =? 0 then
    binary_normalize 53 1024 (if s then - mant else mant) (-1074) s
  else
    binary_normalize 53 1024
      (if s then - (mant + 4503599627370496) else mant + 4503599627370496)
      (ex - 1075) s.

(** [Number(b)] for a non-negative BigInt, as an integer. *)
Definition of_bigint (n : Z) : Z :=
  match binary_normalize 53 1024 n 0 false with
  | S754_finite _ m e => Z.shiftl (Z.pos m) e
  | _ => 0
  end.

End Num.
Import Num.

(* ===================================================================== *)
(** ** Buffers, DataView, typed arrays *)
(* ===================================================================== *)

Definition byte_val (b : byte) : Z := Z.of_N (Byte.to_N b).

Definition byte_of_Z (z : Z) : byte :=
  match Byte.of_N (Z.to_N (z mod 256)) with
  | Some b => b
  | None => x00
  end.

Definition byteLength (buffer : list byte) : Z := Z.of_nat (length buffer).

(** [ArrayBuffer.prototype.slice(start, end)], both ends clamped. *)
Definition slice {A} (l : list A) (start stop : Z) : list A :=
  let len := Z.of_nat (length l) in
  let clamp i := if i <? 0 then Z.max (len + i) 0 else Z.min i len in
  let a := clamp start in
  let b := clamp stop in
  take (Z.to_nat (b - a)) (drop (Z.to_nat a) l).

(** Little-endian and big-endian values of a byte string. *)
Definition le_val (l : list byte) : Z :=
  fold_right (fun b acc => byte_val b + 256 * acc) 0 l.
Definition be_val (l : list byte) : Z := le_val (rev l).

(** Two's complement reading of a [w]-bit pattern. *)
Definition signed (w : Z) (v : Z) : Z :=
  if v <? 2 ^ (w - 1) then v else v - 2 ^ w.

Module DataView.

(** The [n] bytes at [pos], or the runtime's [RangeError]. *)
Definition bytes_at (dv : list byte) (pos n : Z) : result (list byte) :=
  if (0 <=? pos) && (pos + n <=? byteLength dv)
  then Ok (take (Z.to_nat n) (drop (Z.to_nat pos) dv))
  else Throw RangeError.

Definition raw (dv : list byte) (pos n : Z) (littleEndian : bool) : result Z :=
  let* bs := bytes_at dv pos n in
  Ok (if littleEndian then le_val bs else be_val bs).

Definition getUint8 dv pos := raw dv pos 1 true.
Definition getInt8 dv pos := let* v := raw dv pos 1 true in Ok (signed 8 v).
Definition getUint16 dv pos le := raw dv pos 2 le.
Definition getInt16 dv pos le :=
  let* v := raw dv pos 2 le in Ok (signed 16 v).
Definition getUint32 dv pos le := raw dv pos 4 le.
Definition getInt32 dv pos le :=
  let* v := raw dv pos 4 le in Ok (signed 32 v).
Definition getBigUint64 dv pos le := raw dv pos 8 le.
Definition getFloat32 dv pos le :=
  let* v := raw dv pos 4 le in Ok (of_bits32 v).
Definition getFloat64 dv pos le :=
  let* v := raw dv pos 8 le in Ok (of_bits64 v).

End DataView.

(** A typed array is a list of fixed length: a write outside it is dropped. *)
Definition ta_set {A} (a : list A) (i : Z) (v : A) : list A :=
  if i <? 0 then a else <[Z.to_nat i := v]> a.

Definition ToUint32 (v : Z) : Z := v mod 2 ^ 32.

(** [new Uint32Array(n)] and [new Float32Array(n)] for a number [n >= 0]
    that need not be an integer: the length is truncated. *)
Definition new_Uint32Array (n : Z) : list Z := replicate (Z.to_nat n) 0.
Definition new_Float32Array (n : Z) : list number :=
  replicate (Z.to_nat n) (S754_zero false).

(* ===================================================================== *)
(** ** Text *)
(* ===================================================================== *)

(** A string that [TextDecoder] decodes is kept as the UTF-8 bytes of its
    characters: [decode] gives them, and they are well formed whatever the
    input.  Splitting at an ASCII character and matching an ASCII pattern
    are bytewise on such a string, and a white space character is
    recognised by its encoding.  The file names of the zip reader, one
    character per byte, only meet ASCII patterns. *)
Module Text.

Definition str (s : string) : list byte := list_byte_of_string s.

Definition eqb (a b : byte) : bool := Byte.eqb a b.

Fixpoint equal (a b : list byte) : bool :=
  match a, b with
  | [], [] => true
  | x :: a', y :: b' => eqb x y && equal a' b'
  | _, _ => false
  end.

Fixpoint startsWith (pat s : list byte) : bool :=
  match pat, s with
  | [], _ => true
  | p :: pat', c :: s' => eqb p c && startsWith pat' s'
  | _ :: _, [] => false
  end.

Fixpoint includes (pat s : list byte) : bool :=
  startsWith pat s ||
  match s with
  | [] => false
  | _ :: s' => includes pat s'
  end.

Definition endsWith (pat s : list byte) : bool :=
  startsWith (rev pat) (rev s).

(** [toLowerCase], whose result the source only compares with ASCII
    patterns: the letters outside ASCII are kept. *)
Definition lower (b : byte) : byte :=
  let v := byte_val b in
  if (65 <=? v) && (v <=? 90) then byte_of_Z (v + 32) else b.

Definition toLowerCase (s : list byte) : list byte := map lower s.

(** [s.split(sep)] for a one-character separator. *)
Fixpoint split (sep : byte) (s : list byte) : list (list byte) :=
  match s with
  | [] => [[]]
  | c :: s' =>
      if eqb c sep then [] :: split sep s'
      else match split sep s' with
           | w :: ws => (c :: w) :: ws
           | [] => [[c]]
           end
  end.

(** U+FFFD, the character the decoder puts for a sequence that is no
    UTF-8. *)
Definition replacement : list byte := [xef; xbf; xbd].

(** A lead byte: the continuation bytes its sequence needs and the range of
    the first of them. *)
Definition lead (c : byte) : option (nat * (Z * Z)) :=
  let v := byte_val c in
  if (194 <=? v) && (v <=? 223) then Some (1%nat, (128, 191))
  else if (224 <=? v) && (v <=? 239) then
    Some (2%nat, (if v =? 224 then 160 else 128,
                  if v =? 237 then 159 else 191))
  else if (240 <=? v) && (v <=? 244) then
    Some (3%nat, (if v =? 240 then 144 else 128,
                  if v =? 244 then 143 else 191))
  else None.

(** The UTF-8 decoder of the Encoding standard, in replacement mode:
    [seen] is the sequence begun, [needed] the continuation bytes it still
    lacks, the next one in [lo .. hi].  A byte that cannot continue the
    sequence ends it with U+FFFD and is looked at again as a first byte. *)
Fixpoint utf8 (s : list byte) (seen : list byte) (needed : nat)
    (lo hi : Z) : list byte :=
  match s with
  | [] => match needed with O => [] | S _ => replacement end
  | c :: s' =>
      let v := byte_val c in
      let first :=
        if v <? 128 then c :: utf8 s' [] O 128 191
        else match lead c with
             | Some (n, (lo, hi)) => utf8 s' [c] n lo hi
             | None => replacement ++ utf8 s' [] O 128 191
             end in
      match needed with
      | O => first
      | S n =>
          if (lo <=? v) && (v <=? hi) then
            match n with
            | O => seen ++ c :: utf8 s' [] O 128 191
            | S _ => utf8 s' (seen ++ [c]) n 128 191
            end
          else replacement ++ first
      end
  end.

(** [new TextDecoder().decode(bytes)]: a byte order mark at the start is
    dropped. *)
Definition decode (bytes : list byte) : list byte :=
  match utf8 bytes [] O 128 191 with
  | c0 :: c1 :: c2 :: s =>
      if eqb c0 xef && eqb c1 xbb && eqb c2 xbf then s
      else c0 :: c1 :: c2 :: s
  | s => s
  end.

(** The white space of [trim], [parseInt] and [\s]: U+0009 to U+000D,
    U+0020, U+00A0, U+1680, U+2000 to U+200A, U+2028, U+2029, U+202F,
    U+205F, U+3000 and U+FEFF. *)
Definition spaces : list (list byte) :=
  [[x09]; [x0a]; [x0b]; [x0c]; [x0d]; [x20]; [xc2; xa0]; [xe1; x9a; x80]]
  ++ map (fun b => [xe2; x80; b])
       [x80; x81; x82; x83; x84; x85; x86; x87; x88; x89; x8a;
        xa8; xa9; xaf]
  ++ [[xe2; x81; x9f]; [xe3; x80; x80]; [xef; xbb; xbf]].

(** What follows the white space character that [s] begins with. *)
Fixpoint after (ws : list (list byte)) (s : list byte)
  : option (list byte) :=
  match ws with
  | [] => None
  | w :: ws' =>
      if startsWith w s then Some (drop (length w) s) else after ws' s
  end.

Fixpoint strip (ws : list (list byte)) (fuel : nat) (s : list byte)
  : list byte :=
  match fuel with
  | O => s
  | S fuel' =>
      match after ws s with
      | Some s' => strip ws fuel' s'
      | None => s
      end
  end.

Definition trimStart (s : list byte) : list byte :=
  strip spaces (length s) s.

Definition trimEnd (s : list byte) : list byte :=
  rev (strip (map (@rev byte) spaces) (length s) (rev s)).

Definition trim (s : list byte) : list byte := trimEnd (trimStart s).

(** [s.split(/\s+/)]: the maximal runs of characters that are no white
    space, with an empty first or last item where [s] begins or ends with
    white space. *)
Fixpoint splitWs_aux (fuel : nat) (s : list byte) (cur : list byte)
    (inSpace : bool) : list (list byte) :=
  match fuel, s with
  | S fuel', c :: s' =>
      match after spaces s with
      | Some r =>
          if inSpace then splitWs_aux fuel' r cur true
          else rev cur :: splitWs_aux fuel' r [] true
      | None => splitWs_aux fuel' s' (c :: cur) false
      end
  | _, _ => [rev cur]
  end.
Definition splitWs (s : list byte) : list (list byte) :=
  splitWs_aux (length s) s [] false.

Definition digit (radix : Z) (b : byte) : option Z :=
  let v := byte_val b in
  let d := if (48 <=? v) && (v <=? 57) then v - 48
           else if (97 <=? v) && (v <=? 122) then v - 87
           else if (65 <=? v) && (v <=? 90) then v - 55
           else 36 in
  if d <? radix then Some d else None.

Fixpoint digits (radix : Z) (s : list byte) (acc : option Z) : option Z :=
  match s with
  | c :: s' =>
      match digit radix c with
      | Some d =>
          digits radix s' (Some (match acc with
                                 | Some a => a * radix + d
                                 | None => d
                                 end))
      | None => acc
      end
  | [] => acc
  end.

(** [parseInt(s)]: [None] is NaN.  The integer is exact; the source gets
    the nearest number, which is the same below 2^53. *)
Definition parseInt (s : list byte) : option Z :=
  let s := trimStart s in
  let '(neg, s) :=
    match s with
    | c :: s' =>
        if eqb c "-"%byte then (true, s')
        else if eqb c "+"%byte then (false, s')
        else (false, s)
    | [] => (false, s)
    end in
  let '(radix, s) :=
    match s with
    | z :: x :: s' =>
        if eqb z "0"%byte && (eqb x "x"%byte || eqb x "X"%byte)
        then (16, s') else (10, s)
    | _ => (10, s)
    end in
  match digits radix s None with
  | Some v => Some (if neg then - v else v)
  | None => None
  end.

End Text.

(** [a < b] where [a] may be NaN ([None]): false on NaN. *)
Definition nan_ltb (a : option Z) (b : Z) : bool :=
  match a with
  | Some a => a <? b
  | None => false
  end.

(* ===================================================================== *)
(** ** readTCK *)
(* ===================================================================== *)

Record TCK := { tck_pts : list number; tck_offsetPt0 : list Z }.

(** [while (pos < len && p(bytes[pos])) pos++]: how far [pos] advances,
    given the bytes from [pos] on. *)
Fixpoint advance (p : byte -> bool) (rest : list byte) : Z :=
  match rest with
  | c :: rest' => if p c then 1 + advance p rest' else 0
  | [] => 0
  end.

Definition is_nl (b : byte) : bool := Byte.eqb b x0a.

Module Tck.

(** The closure [readStr] of readTCK: the next line and the new [pos]. *)
Definition readStr (buffer : list byte) (pos : Z) : list byte * Z :=
  (* skip blank lines *)
  let pos := pos + advance is_nl (drop (Z.to_nat pos) buffer) in
  let startPos := pos in
  let pos :=
    pos + advance (fun b => negb (is_nl b)) (drop (Z.to_nat pos) buffer) in
  let pos := pos + 1 in (* skip EOLN *)
  if pos - startPos <? 1 then ([], pos)
  else (Text.decode (slice buffer startPos (pos - 1)), pos).

(** The header loop: [while (pos < len && !line.includes('END'))]. *)
Fixpoint header (fuel : nat) (buffer : list byte)
    (line : list byte) (pos : Z) (offset : option Z) : result (option Z) :=
  if (pos <? byteLength buffer) && negb (Text.includes (Text.str "END") line)
  then
    match fuel with
    | O => Throw OutOfFuel
    | S fuel' =>
        let '(line, pos) := readStr buffer pos in
        let offset :=
          if Text.startsWith (Text.str "file:") (Text.toLowerCase line)
          then Text.parseInt (List.last (Text.split " "%byte line) [])
          else offset in
        header fuel' buffer line pos offset
    end
  else Ok offset.

Record state := {
  pos : Z; npt : Z; noffset : Z; npt3 : Z;
  pts : list number; offsetPt0 : list Z
}.

(** The body loop: [while (pos + 12 < len)]. *)
Fixpoint body (fuel : nat) (buffer : list byte) (st : state) : result state :=
  if pos st + 12 <? byteLength buffer then
    match fuel with
    | O => Throw OutOfFuel
    | S fuel' =>
        let* ptx := DataView.getFloat32 buffer (pos st) true in
        let* pty := DataView.getFloat32 buffer (pos st + 4) true in
        let* ptz := DataView.getFloat32 buffer (pos st + 8) true in
        let p := pos st + 12 in
        if negb (isFinite ptx) then
          (* both NaN and Infinity are not finite *)
          let st' := {| pos := p; npt := npt st; noffset := noffset st + 1;
                        npt3 := npt3 st; pts := pts st;
                        offsetPt0 := ta_set (offsetPt0 st) (noffset st)
                                       (ToUint32 (npt st)) |} in
          if negb (isNaN ptx) then Ok st' (* terminate if infinity *)
          else body fuel' buffer st'
        else
          body fuel' buffer
            {| pos := p; npt := npt st + 1; noffset := noffset st;
               npt3 := npt3 st + 3;
               pts := ta_set (ta_set (ta_set (pts st)
                        (npt3 st) (fround ptx))
                        (npt3 st + 1) (fround pty))
                        (npt3 st + 2) (fround ptz);
               offsetPt0 := offsetPt0 st |}
    end
  else Ok st.

Definition readTCK (buffer : list byte) : result TCK :=
  let len := byteLength buffer in
  if len <? 20 then Throw (TCK_too_small len) else
  let '(line, pos) := readStr buffer 0 in
  (* 1st line: signature 'mrtrix tracks' *)
  if negb (Text.includes (Text.str "mrtrix tracks") line)
  then Throw TCK_not_valid else
  (* "file: offset" is REQUIRED *)
  let* offset := header (length buffer) buffer line pos (Some (-1)) in
  if nan_ltb offset 20 then Throw TCK_missing_offset else
  (* over-provisioned arrays; offsetPt0[0] = 0 *)
  let offsets := ta_set (new_Uint32Array (len / 16)) 0 0 in
  let points := new_Float32Array (len / 4) in
  let* st :=
    match offset with
    | Some p =>
        body (length buffer) buffer
          {| pos := p; npt := 0; noffset := 0; npt3 := 0;
             pts := points; offsetPt0 := offsets |}
    | None =>
        (* pos is NaN: [pos + 12 < len] is false *)
        Ok {| pos := 0; npt := 0; noffset := 0; npt3 := 0;
              pts := points; offsetPt0 := offsets |}
    end in
  Ok {| tck_pts := slice (pts st) 0 (npt3 st);
        tck_offsetPt0 := slice (offsetPt0 st) 0 (noffset st) |}.

End Tck.

(* ===================================================================== *)
(** ** 4x4 matrices *)
(* ===================================================================== *)

(** Modelled from the spec: the 4x4 matrix primitive (gl-matrix's [mat4]) is
    an external collaborator and is not under src/.  A matrix is a
    [Float32Array] of 16 numbers; [mul out a b] is the matrix product the
    spec calls "composed with", element [4*c + r] of the product being the
    sum over [k] of [b[4*c + k] * a[4*k + r]]; [transpose] swaps element
    [4*c + r] with element [4*r + c]. *)
Module mat4.

Definition t := list number.

Definition get (m : t) (i : nat) : number := nth i m NaN.

Definition fromValues (vs : list number) : t := map fround vs.

Definition identity : t :=
  map of_Z [1;0;0;0; 0;1;0;0; 0;0;1;0; 0;0;0;1].

Definition create : t := identity.

Definition mul (a b : t) : t :=
  flat_map (fun c =>
    map (fun r =>
      fround
        (add (add (add (mul (get b (4 * c)) (get a r))
                       (mul (get b (4 * c + 1)) (get a (4 + r))))
                  (mul (get b (4 * c + 2)) (get a (8 + r))))
             (mul (get b (4 * c + 3)) (get a (12 + r)))))
      [0;1;2;3]%nat)
    [0;1;2;3]%nat.

Definition transpose (a : t) : t :=
  flat_map (fun c => map (fun r => get a (4 * r + c)) [0;1;2;3]%nat)
    [0;1;2;3]%nat.

End mat4.

(* ===================================================================== *)
(** ** readTRK *)
(* ===================================================================== *)

(** An attribute while it is collected ([vals: number[]], where a read past
    the end of a typed array pushes [undefined], here [None]) and once
    frozen ([vals: Float32Array]). *)
Record attr_dyn := { dyn_id : list byte; dyn_vals : list (option number) }.
Record attr := { id : list byte; vals : list number }.

(** [Float32Array.from(vals)] *)
Definition Float32Array_from (vs : list (option number)) : list number :=
  map (fun v => match v with Some x => fround x | None => NaN end) vs.

Definition freeze (a : attr_dyn) : attr :=
  {| id := dyn_id a; vals := Float32Array_from (dyn_vals a) |}.

Record TRK := {
  trk_pts : list number;
  trk_offsetPt0 : list Z;
  trk_dps : list attr;
  trk_dpv : list attr
}.

Inductive warning : Type :=
  | TRK_vox_to_ras_not_set          (* log.warn('TRK vox_to_ras not set') *)
  | VTK_int32_overflow              (* console.warn('int32 overflow: ...') *)
  | ZIP_unexpected_signature (signature index : Z). (* console.error(...) *)

(** The 32-bit words of a buffer whose length is a multiple of 4, as
    [new Int32Array(buffer)] and [new Float32Array(buffer)] view them. *)
Fixpoint words32 (l : list byte) : list Z :=
  match l with
  | b0 :: b1 :: b2 :: b3 :: l' => le_val [b0; b1; b2; b3] :: words32 l'
  | _ => []
  end.

Module Trk.

Definition TRAC : Z := 1128354388.

(** The name in a 20-byte slot: up to the first NUL, trimmed. *)
Definition slot_name (buffer : list byte) (start : Z) : list byte :=
  let arr := slice buffer start (start + 20) in
  Text.trim (hd [] (Text.split x00 (Text.decode arr))).

(** [for (let i = 0; i < n; i++) attrs.push({id: ..., vals: []})] *)
Definition slots (buffer : list byte) (base n : Z) : list attr_dyn :=
  map (fun i => {| dyn_id := slot_name buffer (base + Z.of_nat i * 20);
                   dyn_vals := [] |})
      (seq 0 (Z.to_nat n)).

(** [f32[i]] in an arithmetic expression: [undefined] becomes NaN. *)
Definition f32_num (f32 : list number) (i : Z) : number :=
  if i <? 0 then NaN else
  match f32 !! Z.to_nat i with Some v => v | None => NaN end.

(** [f32[i]] as a value. *)
Definition f32_val (f32 : list number) (i : Z) : option number :=
  if i <? 0 then None else f32 !! Z.to_nat i.

(** [for (let s = 0; s < n; s++) { attrs[s].vals.push(f32[i]); i++ }],
    for [n = attrs.length]. *)
Definition push_each (f32 : list number) (i : Z) (attrs : list attr_dyn)
  : list attr_dyn :=
  imap (fun s a => {| dyn_id := dyn_id a;
                      dyn_vals := dyn_vals a ++ [f32_val f32 (i + Z.of_nat s)] |})
       attrs.

Record state := {
  i : Z; npt : Z; noffset : Z; npt3 : Z;
  pts : list number; offsetPt0 : list Z;
  dpv : list attr_dyn; dps : list attr_dyn
}.

Section Body.
Variable f32 : list number.
Variable i32 : list Z.
Variable vox2mmMat : mat4.t.
Variable n_scalars n_properties : Z.

Definition transform (ptx pty ptz : number) (row : nat) : number :=
  add (add (add (mul ptx (mat4.get vox2mmMat (4 * row)))
                (mul pty (mat4.get vox2mmMat (4 * row + 1))))
           (mul ptz (mat4.get vox2mmMat (4 * row + 2))))
      (mat4.get vox2mmMat (4 * row + 3)).

(** One vertex record: the body of [for (let j = 0; j < n_pts; j++)]. *)
Definition vertex (st : state) : state :=
  let ptx := f32_num f32 (i st) in
  let pty := f32_num f32 (i st + 1) in
  let ptz := f32_num f32 (i st + 2) in
  let i := i st + 3 in
  let pts :=
    ta_set (ta_set (ta_set (pts st)
      (npt3 st) (fround (transform ptx pty ptz 0)))
      (npt3 st + 1) (fround (transform ptx pty ptz 1)))
      (npt3 st + 2) (fround (transform ptx pty ptz 2)) in
  let '(dpv, i) :=
    if 0 <? n_scalars then (push_each f32 i (dpv st), i + n_scalars)
    else (dpv st, i) in
  {| i := i; npt := npt st + 1; noffset := noffset st;
     npt3 := npt3 st + 3; pts := pts; offsetPt0 := offsetPt0 st;
     dpv := dpv; dps := dps st |}.

Fixpoint vertices (n : nat) (st : state) : state :=
  match n with
  | O => st
  | S n' => vertices n' (vertex st)
  end.

(** One streamline record: the body of [while (i < ntracks)]. *)
Definition streamline (st : state) : state :=
  let n_pts := nth (Z.to_nat (i st)) i32 0 in
  let st :=
    {| i := i st + 1; npt := npt st; noffset := noffset st + 1;
       npt3 := npt3 st; pts := pts st;
       offsetPt0 := ta_set (offsetPt0 st) (noffset st) (ToUint32 (npt st));
       dpv := dpv st; dps := dps st |} in
  let st := vertices (Z.to_nat n_pts) st in
  if 0 <? n_properties then
    {| i := i st + n_properties; npt := npt st; noffset := noffset st;
       npt3 := npt3 st; pts := pts st; offsetPt0 := offsetPt0 st;
       dpv := dpv st; dps := push_each f32 (i st) (dps st) |}
  else st.

Fixpoint streamlines (fuel : nat) (st : state) : result state :=
  if i st <? Z.of_nat (length i32) then
    match fuel with
    | O => Throw OutOfFuel
    | S fuel' => streamlines fuel' (streamline st)
    end
  else Ok st.

End Body.

Section Reader.
(** [NVUtilities.decompress], the external decompression primitive. *)
Variable decompress : list byte -> result (list byte).

Definition readTRK (buffer : list byte) : result (TRK * list warning) :=
  let* magic := DataView.getUint32 buffer 0 true in (* 'TRAC' *)
  let* (buffer, magic) :=
    if negb (magic =? TRAC) then
      (* e.g. TRK.gz *)
      if magic =? 4247762216 then Throw TRK_zstd
      else
        let* raw := decompress buffer in
        let* magic := DataView.getUint32 raw 0 true in
        Ok (raw, magic)
    else Ok (buffer, magic) in
  let* vers := DataView.getUint32 buffer 992 true in (* 2 *)
  let* hdr_sz := DataView.getUint32 buffer 996 true in (* 1000 *)
  if (2 <? vers) || negb (hdr_sz =? 1000) || negb (magic =? TRAC)
  then Throw TRK_not_valid else
  let* n_scalars := DataView.getInt16 buffer 36 true in
  (* data_per_vertex *)
  let dpv := slots buffer 38 n_scalars in
  let* voxel_sizeX := DataView.getFloat32 buffer 12 true in
  let* voxel_sizeY := DataView.getFloat32 buffer 16 true in
  let* voxel_sizeZ := DataView.getFloat32 buffer 20 true in
  let zoomMat := mat4.fromValues
    [ div (of_Z 1) voxel_sizeX; of_Z 0; of_Z 0; dyadic (-1) (-1);
      of_Z 0; div (of_Z 1) voxel_sizeY; of_Z 0; dyadic (-1) (-1);
      of_Z 0; of_Z 0; div (of_Z 1) voxel_sizeZ; dyadic (-1) (-1);
      of_Z 0; of_Z 0; of_Z 0; of_Z 1 ] in
  let* n_properties := DataView.getInt16 buffer 238 true in
  (* data_per_streamline *)
  let dps := slots buffer 240 n_properties in
  let* mat :=
    fold_right (fun k acc =>
                  let* v := DataView.getFloat32 buffer
                              (440 + Z.of_nat k * 4) true in
                  let* vs := acc in
                  Ok (v :: vs))
               (Ok []) (seq 0 16) in
  let '(mat, warnings) :=
    if is_zero (mat4.get mat 15)
    then (mat4.identity, [TRK_vox_to_ras_not_set])
    else (mat, []) in
  let vox2mmMat := mat4.mul zoomMat mat in
  let body := slice buffer hdr_sz (byteLength buffer) in
  let* _ := if byteLength body mod 4 =? 0 then Ok tt
            else Throw RangeError in
  let i32 := map (signed 32) (words32 body) in
  let f32 := map of_bits32 (words32 body) in
  let ntracks := Z.of_nat (length i32) in
  if ntracks <? 1 then Throw TRK_empty else
  (* read and transform vertex positions *)
  let* st :=
    streamlines f32 i32 vox2mmMat n_scalars n_properties
      (length i32)
      {| i := 0; npt := 0; noffset := 0; npt3 := 0;
         (* pre-allocate and over-provision *)
         pts := new_Float32Array ntracks;
         offsetPt0 := new_Uint32Array (ntracks / 4);
         dpv := dpv; dps := dps |} in
  (* output uses static float32 not dynamic number[] *)
  let dps32 := map freeze (Trk.dps st) in
  let dpv32 := map freeze (Trk.dpv st) in
  (* add 'first index' as if one more line was added *)
  let offsets := ta_set (offsetPt0 st) (noffset st) (ToUint32 (npt st)) in
  let noffset := noffset st + 1 in
  Ok ({| trk_pts := slice (pts st) 0 (npt3 st);
         trk_offsetPt0 := slice offsets 0 noffset;
         trk_dps := dps32; trk_dpv := dpv32 |}, warnings).

End Reader.
End Trk.

(* ===================================================================== *)
(** ** Zip *)
(* ===================================================================== *)

Record Entry := {
  signature : list byte;
  version : Z;
  generalPurpose : Z;
  compressionMethod : Z;
  lastModifiedTime : Z;
  lastModifiedDate : Z;
  crc : Z;
  compressedSize : Z;
  uncompressedSize : Z;
  fileNameLength : Z;
  extraLength : Z;
  fileName : list byte;
  extra : list byte;
  startsAt : Z
}.

Record CentralDirectoryEntry := {
  versionCreated : Z;
  versionNeeded : Z;
  cd_fileNameLength : Z;
  cd_extraLength : Z;
  fileCommentLength : Z;
  diskNumber : Z;
  internalAttributes : Z;
  externalAttributes : Z;
  cd_offset : Z;
  comments : list byte
}.

Record EndOfCentralDirectory := {
  numberOfDisks : Z;
  centralDirectoryStartDisk : Z;
  numberCentralDirectoryRecordsOnThisDisk : Z;
  numberCentralDirectoryRecords : Z;
  centralDirectorySize : Z;
  centralDirectoryOffset : Z;
  commentLength : Z;
  comment : list byte
}.

Module Zip.

Import DataView.

Definition SIG_LOCAL : Z := 0x04034b50.
Definition SIG_CENTRAL : Z := 0x02014b50.
Definition SIG_END : Z := 0x06054b50.
Definition SIG_END64 : Z := 0x06064b50.
Definition SIG_DESCRIPTOR : Z := 0x08074b50.

(** The private fields of the class. *)
Record t := {
  dataView : list byte;
  index : Z;
  localFiles : list Entry;
  centralDirectories : list CentralDirectoryEntry;
  endOfCentralDirectory : option EndOfCentralDirectory;
  console : list warning
}.

(** [readString]: one [getUint8] per character, none for length 0. *)
Definition readString (dv : list byte) (offset length : Z)
  : result (list byte) :=
  if length <=? 0 then Ok [] else bytes_at dv offset length.

(** The search for the ZIP64 extended information extra field:
    [Some (uncompressedSize, compressedSize)] when it is found. *)
Fixpoint zip64_field (fuel : nat) (dv : list byte)
    (zip64Offset stop : Z) : result (option (Z * Z)) :=
  if zip64Offset <? stop then
    match fuel with
    | O => Throw OutOfFuel
    | S fuel' =>
        let* fieldSignature := getUint16 dv zip64Offset true in
        let* fieldLength := getUint16 dv (zip64Offset + 2) true in
        let zip64Offset := zip64Offset + 4 in
        if fieldSignature =? 1 then
          if 16 <=? fieldLength then
            let* u := getBigUint64 dv zip64Offset true in
            let* c := getBigUint64 dv (zip64Offset + 8) true in
            Ok (Some (of_bigint u, of_bigint c))
          else Throw (ZIP64_too_small fieldLength)
        else zip64_field fuel' dv (zip64Offset + fieldLength) stop
    end
  else Ok None.

Definition readLocalFile (dv : list byte) (offset : Z) : result Entry :=
  let* compressedSize := getUint32 dv (offset + 18) true in
  let* uncompressedSize := getUint32 dv (offset + 22) true in
  let* fileNameLength := getUint16 dv (offset + 26) true in
  let* extraLength := getUint16 dv (offset + 28) true in
  let extraOffset := offset + 30 + fileNameLength in
  let* extra := readString dv extraOffset extraLength in
  let* (compressedSize, uncompressedSize) :=
    if (compressedSize =? 0xffffffff) && (uncompressedSize =? 0xffffffff)
    then
      let* found := zip64_field (Z.to_nat extraLength) dv extraOffset
                      (extraOffset + extraLength - 4) in
      match found with
      | Some (u, c) => Ok (c, u)
      | None => Throw ZIP64_missing
      end
    else Ok (compressedSize, uncompressedSize) in
  let* signature := readString dv offset 4 in
  let* version := getUint16 dv (offset + 4) true in
  let* generalPurpose := getUint16 dv (offset + 6) true in
  let* compressionMethod := getUint16 dv (offset + 8) true in
  let* lastModifiedTime := getUint16 dv (offset + 10) true in
  let* lastModifiedDate := getUint16 dv (offset + 12) true in
  let* crc := getUint32 dv (offset + 14) true in
  let* fileName := readString dv (offset + 30) fileNameLength in
  let* extra := readString dv (offset + 30 + fileNameLength) extraLength in
  Ok {| signature := signature; version := version;
        generalPurpose := generalPurpose;
        compressionMethod := compressionMethod;
        lastModifiedTime := lastModifiedTime;
        lastModifiedDate := lastModifiedDate;
        crc := crc; compressedSize := compressedSize;
        uncompressedSize := uncompressedSize;
        fileNameLength := fileNameLength; extraLength := extraLength;
        fileName := fileName; extra := extra;
        startsAt := 0 (* set by [read] *) |}.

Definition readCentralDirectory (dv : list byte) (offset : Z)
  : result CentralDirectoryEntry :=
  let* versionCreated := getUint16 dv (offset + 4) true in
  let* versionNeeded := getUint16 dv (offset + 6) true in
  let* fileNameLength := getUint16 dv (offset + 28) true in
  let* extraLength := getUint16 dv (offset + 30) true in
  let* fileCommentLength := getUint16 dv (offset + 32) true in
  let* diskNumber := getUint16 dv (offset + 34) true in
  let* internalAttributes := getUint16 dv (offset + 36) true in
  let* externalAttributes := getUint32 dv (offset + 38) true in
  let* cd_offset := getUint32 dv (offset + 42) true in
  let* comments := readString dv (offset + 46) fileCommentLength in
  Ok {| versionCreated := versionCreated; versionNeeded := versionNeeded;
        cd_fileNameLength := fileNameLength; cd_extraLength := extraLength;
        fileCommentLength := fileCommentLength; diskNumber := diskNumber;
        internalAttributes := internalAttributes;
        externalAttributes := externalAttributes;
        cd_offset := cd_offset; comments := comments |}.

Definition readEndCentralDirectory (dv : list byte) (offset : Z)
  : result EndOfCentralDirectory :=
  let* commentLength := getUint16 dv (offset + 20) true in
  let* numberOfDisks := getUint16 dv (offset + 4) true in
  let* startDisk := getUint16 dv (offset + 6) true in
  let* onThisDisk := getUint16 dv (offset + 8) true in
  let* records := getUint16 dv (offset + 10) true in
  let* size := getUint32 dv (offset + 12) true in
  let* off := getUint32 dv (offset + 16) true in
  let* comment := readString dv (offset + 22) commentLength in
  Ok {| numberOfDisks := numberOfDisks;
        centralDirectoryStartDisk := startDisk;
        numberCentralDirectoryRecordsOnThisDisk := onThisDisk;
        numberCentralDirectoryRecords := records;
        centralDirectorySize := size; centralDirectoryOffset := off;
        commentLength := commentLength; comment := comment |}.

Definition readEndCentralDirectory64 (dv : list byte) (offset : Z)
  : result EndOfCentralDirectory :=
  let* commentLength := getBigUint64 dv offset true in
  let* numberOfDisks := getUint32 dv (offset + 16) true in
  let* startDisk := getUint32 dv (offset + 20) true in
  let* onThisDisk := getBigUint64 dv (offset + 24) true in
  let* records := getBigUint64 dv (offset + 32) true in
  let* size := getBigUint64 dv (offset + 40) true in
  let* off := getBigUint64 dv (offset + 48) true in
  Ok {| numberOfDisks := numberOfDisks;
        centralDirectoryStartDisk := startDisk;
        numberCentralDirectoryRecordsOnThisDisk := of_bigint onThisDisk;
        numberCentralDirectoryRecords := of_bigint records;
        centralDirectorySize := of_bigint size;
        centralDirectoryOffset := of_bigint off;
        commentLength := of_bigint commentLength; comment := [] |}.

(** Whether a data descriptor is recognised at [scanIndex]: its signature,
    and the bytes "PK" of the next record 16 bytes later. *)
Definition descriptor_at (dv : list byte) (scanIndex : Z) : bool :=
  match getUint32 dv scanIndex true, getUint16 dv (scanIndex + 16) true with
  | Ok possibleSignature, Ok nextPK =>
      (possibleSignature =? SIG_DESCRIPTOR) && (nextPK =? 0x4b50)
  | _, _ => false
  end.

(** [while (scanIndex + 20 <= byteLength)]: the value of [scanIndex] when
    the loop is left, which is 4 past the signature when one is found.
    [n] bounds the number of positions still to try. *)
Fixpoint scan (n : nat) (dv : list byte) (scanIndex : Z) : Z :=
  if scanIndex + 20 <=? byteLength dv then
    match n with
    | O => scanIndex
    | S n' =>
        if descriptor_at dv scanIndex then scanIndex + 4
        else scan n' dv (scanIndex + 1)
    end
  else scanIndex.

Definition push_local (z : t) (e : Entry) (i : Z) : t :=
  {| dataView := dataView z; index := i;
     localFiles := localFiles z ++ [e];
     centralDirectories := centralDirectories z;
     endOfCentralDirectory := endOfCentralDirectory z;
     console := console z |}.

Definition push_central (z : t) (e : CentralDirectoryEntry) (i : Z) : t :=
  {| dataView := dataView z; index := i; localFiles := localFiles z;
     centralDirectories := centralDirectories z ++ [e];
     endOfCentralDirectory := endOfCentralDirectory z;
     console := console z |}.

Definition set_end (z : t) (e : EndOfCentralDirectory) : t :=
  {| dataView := dataView z; index := index z; localFiles := localFiles z;
     centralDirectories := centralDirectories z;
     endOfCentralDirectory := Some e;
     console := console z |}.

Definition console_error (z : t) (w : warning) : t :=
  {| dataView := dataView z; index := index z; localFiles := localFiles z;
     centralDirectories := centralDirectories z;
     endOfCentralDirectory := endOfCentralDirectory z;
     console := console z ++ [w] |}.

Definition with_sizes (e : Entry) (startsAt crc csize usize : Z) : Entry :=
  {| signature := signature e; version := version e;
     generalPurpose := generalPurpose e;
     compressionMethod := compressionMethod e;
     lastModifiedTime := lastModifiedTime e;
     lastModifiedDate := lastModifiedDate e;
     crc := crc; compressedSize := csize; uncompressedSize := usize;
     fileNameLength := fileNameLength e; extraLength := extraLength e;
     fileName := fileName e; extra := extra e; startsAt := startsAt |}.

(** The local-file branch of [read].  The entry is pushed first and
    completed afterwards in the source; it is one object, so the list
    holds the completed entry, and an exception in between leaves no
    [Zip] at all. *)
Definition local_file (z : t) : result t :=
  let dv := dataView z in
  let* entry := readLocalFile dv (index z) in
  let hasDataDescriptor := negb (Z.land (generalPurpose entry) 8 =? 0) in
  let startsAt := index z + 30 + fileNameLength entry + extraLength entry in
  if (compressedSize entry =? 0) && hasDataDescriptor then
    let scanIndex := scan (length dv) dv startsAt in
    let* crc := getUint32 dv scanIndex true in
    let* csize := getUint32 dv (scanIndex + 4) true in
    let* usize := getUint32 dv (scanIndex + 8) true in
    Ok (push_local z (with_sizes entry startsAt crc csize usize)
          (scanIndex + 12))
  else
    Ok (push_local z
          (with_sizes entry startsAt (crc entry) (compressedSize entry)
             (uncompressedSize entry))
          (startsAt + compressedSize entry)).

(** [read]: [while (!endOfCentralDirectory && index < byteLength)]. *)
Fixpoint read (fuel : nat) (z : t) : result t :=
  if match endOfCentralDirectory z with None => true | Some _ => false end
     && (index z <? byteLength (dataView z))
  then
    match fuel with
    | O => Throw OutOfFuel
    | S fuel' =>
        let dv := dataView z in
        let* signature := getUint32 dv (index z) true in
        if signature =? SIG_LOCAL then
          let* z' := local_file z in
          read fuel' z'
        else if signature =? SIG_CENTRAL then
          let* entry := readCentralDirectory dv (index z) in
          read fuel'
            (push_central z entry
               (index z + (46 + cd_fileNameLength entry
                           + cd_extraLength entry
                           + fileCommentLength entry)))
        else if signature =? SIG_END then
          let* e := readEndCentralDirectory dv (index z) in
          Ok (set_end z e)
        else if signature =? SIG_END64 then
          let* e := readEndCentralDirectory64 dv (index z) in
          Ok (set_end z e)
        else
          Ok (console_error z (ZIP_unexpected_signature signature (index z)))
    end
  else Ok z.

(** The fields as the class declares them. *)
Definition init (arrayBuffer : list byte) : t :=
  {| dataView := arrayBuffer; index := 0; localFiles := [];
     centralDirectories := []; endOfCentralDirectory := None;
     console := [] |}.

(** [new Zip(arrayBuffer)] *)
Definition new (arrayBuffer : list byte) : result t :=
  read (length arrayBuffer) (init arrayBuffer).

Definition entries (z : t) : list Entry := localFiles z.

Section Extract.
(** [DecompressionStream('deflate-raw')], the external primitive. *)
Variable inflateRaw : list byte -> result (list byte).

Definition extract (z : t) (entry : Entry) : result (list byte) :=
  let buffer := slice (dataView z) (startsAt entry)
                  (startsAt entry + compressedSize entry) in
  if compressionMethod entry =? 0 then Ok buffer
  else if compressionMethod entry =? 8 then inflateRaw buffer
  else Throw (Unsupported_compression (compressionMethod entry)).
End Extract.

End Zip.

(* ===================================================================== *)
(** ** readTRX *)
(* ===================================================================== *)

(** A typed array over a whole buffer: the element type and the bytes. *)
Inductive kind : Type :=
  | Uint8 | Uint16 | Uint32 | Int8 | Int16 | Int32 | Float32 | Float64.

Record TypedArray := { ta_kind : kind; ta_buffer : list byte }.

Definition BYTES_PER_ELEMENT (k : kind) : nat :=
  match k with
  | Uint8 | Int8 => 1
  | Uint16 | Int16 => 2
  | Uint32 | Int32 | Float32 => 4
  | Float64 => 8
  end%nat.

(** The elements of a buffer cut into items of [n] bytes. *)
Fixpoint chunks (fuel : nat) (n : nat) (l : list byte) : list (list byte) :=
  match fuel with
  | O => []
  | S fuel' =>
      if (length l <? n)%nat then []
      else take n l :: chunks fuel' n (drop n l)
  end.

Definition element (k : kind) (item : list byte) : number :=
  match k with
  | Uint8 | Uint16 | Uint32 => of_Z (le_val item)
  | Int8 => of_Z (signed 8 (le_val item))
  | Int16 => of_Z (signed 16 (le_val item))
  | Int32 => of_Z (signed 32 (le_val item))
  | Float32 => of_bits32 (le_val item)
  | Float64 => of_bits64 (le_val item)
  end.

Definition elements (a : TypedArray) : list number :=
  map (element (ta_kind a))
      (chunks (length (ta_buffer a)) (BYTES_PER_ELEMENT (ta_kind a))
         (ta_buffer a)).

Definition ta_length (a : TypedArray) : Z :=
  byteLength (ta_buffer a) / Z.of_nat (BYTES_PER_ELEMENT (ta_kind a)).

(** [new K(buffer)]: a [RangeError] unless the byte length is a multiple of
    the element size. *)
Definition view (k : kind) (buffer : list byte) : result TypedArray :=
  if byteLength buffer mod Z.of_nat (BYTES_PER_ELEMENT k) =? 0
  then Ok {| ta_kind := k; ta_buffer := buffer |}
  else Throw RangeError.

Definition le_bytes (n : nat) (v : Z) : list byte :=
  map (fun k => byte_of_Z (Z.shiftr v (8 * Z.of_nat k))) (seq 0 n).

(** The binary32 bit pattern of a number that is a binary32 value. *)
Definition to_bits32 (x : number) : Z :=
  match x with
  | S754_zero s => if s then 2147483648 else 0
  | S754_infinity s => if s then 4286578688 else 2139095040
  | S754_nan => 2143289344
  | S754_finite s m e =>
      match binary_round 24 128 s m e with
      | S754_finite s' m' e' =>
          (if s' then 2147483648 else 0) +
          (if Z.pos m' <? 8388608 then Z.pos m'
           else Z.shiftl (e' + 150) 23 + (Z.pos m' - 8388608))
      | S754_infinity s' => if s' then 4286578688 else 2139095040
      | S754_zero s' => if s' then 2147483648 else 0
      | S754_nan => 2143289344
      end
  end.

Record TRX (J : Type) := {
  trx_pts : list number;
  trx_offsetPt0 : list Z;
  trx_dpg : list attr;
  trx_dps : list attr;
  trx_dpv : list attr;
  trx_header : option J   (* [None] is the initial [[]] *)
}.
Arguments trx_pts {J}.
Arguments trx_offsetPt0 {J}.
Arguments trx_dpg {J}.
Arguments trx_dps {J}.
Arguments trx_dpv {J}.
Arguments trx_header {J}.

Module Trx.

(** Javascript does not support float16, so we convert to float32. *)
Definition decodeFloat16 (binary : Z) : number :=
  let exponent := Z.shiftr (Z.land binary 0x7c00) 10 in
  let fraction := Z.land binary 0x03ff in
  mul (if Z.shiftr binary 15 =? 0 then of_Z 1 else of_Z (-1))
      (if negb (exponent =? 0) then
         if exponent =? 0x1f then
           (if negb (fraction =? 0) then NaN else S754_infinity false)
         else mul (dyadic 1 (exponent - 15))
                  (add (of_Z 1) (div (of_Z fraction) (of_Z 0x400)))
       else mul (dyadic 1 (-14)) (div (of_Z fraction) (of_Z 0x400))).

(** The 64-bit branch: [vals[i] = u32[j]] for [i < nval], the low word of
    each pair, and whether some high word is not 0 ([undefined] is not). *)
Definition read64 (data : list byte) : result (TypedArray * bool) :=
  let nval8 := byteLength data in (* nval = data.length / 8 *)
  let* u32 := view Uint32 data in
  let words := words32 data in
  let count := Z.to_nat ((nval8 + 7) / 8) in (* the i with i < nval *)
  let vals := new_Uint32Array (nval8 / 8) in
  let vals :=
    fold_left (fun vals i =>
                 ta_set vals (Z.of_nat i)
                   (match words !! (2 * i)%nat with
                    | Some w => w
                    | None => 0
                    end))
              (seq 0 count) vals in
  let overflow :=
    existsb (fun i => match words !! (2 * i + 1)%nat with
                      | Some w => negb (w =? 0)
                      | None => true
                      end)
            (seq 0 count) in
  Ok ({| ta_kind := Uint32; ta_buffer := flat_map (le_bytes 4) vals |},
      overflow).

(** The float16 branch: [vals[i] = lut[u16[i]]]. *)
Definition read16f (data : list byte) : result TypedArray :=
  let* u16 := view Uint16 data in
  let halves := map le_val (chunks (length data) 2 data) in
  Ok {| ta_kind := Float32;
        ta_buffer :=
          flat_map (fun h => le_bytes 4 (to_bits32 (fround (decodeFloat16 h))))
                   halves |}.

Definition as_attr (tag : list byte) (vals : TypedArray) : attr :=
  {| id := tag; vals := map fround (elements vals) |}.

Record state (J : Type) := {
  noff : Z; npt : Z;
  pts : option (list number);
  offsetPt0 : option (list Z);
  dpg : list attr; dps : list attr; dpv : list attr;
  header : option J;
  isOverflowUint64 : bool
}.
Arguments noff {J}. Arguments npt {J}. Arguments pts {J}.
Arguments offsetPt0 {J}. Arguments dpg {J}. Arguments dps {J}.
Arguments dpv {J}. Arguments header {J}. Arguments isOverflowUint64 {J}.

Section Reader.
Variable inflateRaw : list byte -> result (list byte).
Variable J : Type.
Variable JSON_parse : list byte -> result J.

Definition suffix (fname : list byte) (s : string) : bool :=
  Text.endsWith (Text.str s) fname.

(** The array of an entry: [None] when it is not a data array. *)
Definition read_array (fname data : list byte)
  : result (option (TypedArray * bool)) :=
  let plain k := let* a := view k data in Ok (Some (a, false)) in
  if suffix fname ".uint64" || suffix fname ".int64" then
    let* r := read64 data in Ok (Some r)
  else if suffix fname ".uint32" then plain Uint32
  else if suffix fname ".uint16" then plain Uint16
  else if suffix fname ".uint8" then plain Uint8
  else if suffix fname ".int32" then plain Int32
  else if suffix fname ".int16" then plain Int16
  else if suffix fname ".int8" then plain Int8
  else if suffix fname ".float64" then plain Float64
  else if suffix fname ".float32" then plain Float32
  else if suffix fname ".float16" then
    let* a := read16f data in Ok (Some (a, false))
  else Ok None.

(** The body of [for (let i = 0; i < zip.entries.length; i++)]. *)
Definition entry_step (zip : Zip.t) (st : state J) (entry : Entry)
  : result (state J) :=
  if uncompressedSize entry =? 0 then Ok st (* e.g. folder *) else
  let parts := Text.split "/"%byte (fileName entry) in
  let fname := List.last parts [] in
  if Text.startsWith (Text.str ".") fname then Ok st else
  let pname := hd [] (slice parts (-2) (Z.of_nat (length parts))) in
  let tag := hd [] (Text.split "."%byte fname) in
  let* data := Zip.extract inflateRaw zip entry in
  if Text.includes (Text.str "header.json") fname then
    let* h := JSON_parse data in
    Ok {| noff := noff st; npt := npt st; pts := pts st;
          offsetPt0 := offsetPt0 st; dpg := dpg st; dps := dps st;
          dpv := dpv st; header := Some h;
          isOverflowUint64 := isOverflowUint64 st |}
  else
  let* arr := read_array fname data in
  match arr with
  | None => Ok st (* not a data array *)
  | Some (vals, overflow) =>
      let over := isOverflowUint64 st || overflow in
      let nval := ta_length vals in
      if Text.includes (Text.str "groups") pname then
        Ok {| noff := noff st; npt := npt st; pts := pts st;
              offsetPt0 := offsetPt0 st;
              dpg := dpg st ++ [as_attr tag vals];
              dps := dps st; dpv := dpv st; header := header st;
              isOverflowUint64 := over |}
      else if Text.includes (Text.str "dpv") pname then
        Ok {| noff := noff st; npt := npt st; pts := pts st;
              offsetPt0 := offsetPt0 st; dpg := dpg st; dps := dps st;
              dpv := dpv st ++ [as_attr tag vals]; header := header st;
              isOverflowUint64 := over |}
      else if Text.includes (Text.str "dps") pname then
        Ok {| noff := noff st; npt := npt st; pts := pts st;
              offsetPt0 := offsetPt0 st; dpg := dpg st;
              dps := dps st ++ [as_attr tag vals];
              dpv := dpv st; header := header st;
              isOverflowUint64 := over |}
      else
        let* (noff1, offsets1) :=
          if Text.startsWith (Text.str "offsets.") fname then
            let* _ := view Uint32 (ta_buffer vals) in
            Ok (nval, Some (words32 (ta_buffer vals)))
          else Ok (noff st, offsetPt0 st) in
        let* (npt1, pts1) :=
          if Text.startsWith (Text.str "positions.3.") fname then
            let* _ := view Float32 (ta_buffer vals) in
            Ok (nval, Some (map of_bits32 (words32 (ta_buffer vals))))
          else Ok (npt st, pts st) in
        Ok {| noff := noff1; npt := npt1; pts := pts1;
              offsetPt0 := offsets1; dpg := dpg st; dps := dps st;
              dpv := dpv st; header := header st;
              isOverflowUint64 := over |}
  end.

Fixpoint entries_loop (zip : Zip.t) (es : list Entry) (st : state J)
  : result (state J) :=
  match es with
  | [] => Ok st
  | e :: es' =>
      let* st' := entry_step zip st e in
      entries_loop zip es' st'
  end.

Definition readTRX (buffer : list byte) : result (TRX J) :=
  let* zip := Zip.new buffer in
  let* st := entries_loop zip (Zip.entries zip)
               {| noff := 0; npt := 0; pts := None; offsetPt0 := None;
                  dpg := []; dps := []; dpv := []; header := None;
                  isOverflowUint64 := false |} in
  if (noff st =? 0) || (npt st =? 0)
  then Throw TRX_no_offsets_or_points else
  if isOverflowUint64 st then Throw TRX_too_many_vertices else
  match pts st, offsetPt0 st with
  | Some points, Some offsets =>
      (* solve fence post problem, offset for final streamline *)
      let offsets := ta_set offsets (noff st) (ToUint32 (npt st / 3)) in
      Ok {| trx_pts := points; trx_offsetPt0 := offsets;
            trx_dpg := dpg st; trx_dps := dps st; trx_dpv := dpv st;
            trx_header := header st |}
  | _, _ => Throw TRX_no_offsets_or_points
  end.

End Reader.
End Trx.

(* ===================================================================== *)
(** ** readVTK *)
(* ===================================================================== *)

Record VTK := { vtk_pts : list number; vtk_offsetPt0 : list Z }.

(** [new Uint32Array(n)] and [new Float32Array(n)] for [n] that may be NaN
    ([None], length 0) or negative (a [RangeError]). *)
Definition alloc {A} (zero : A) (n : option Z) : result (list A) :=
  match n with
  | None => Ok []
  | Some n => if n <? 0 then Throw RangeError
              else Ok (replicate (Z.to_nat n) zero)
  end.

(** [a > b] and [a >= b] where [b] may be NaN: false on NaN. *)
Definition gtb_nan (a : option Z) (b : Z) : bool :=
  match a with Some a => b <? a | None => false end.
Definition geb_nan (a : Z) (b : option Z) : bool :=
  match b with Some b => b <=? a | None => false end.

Module Vtk.

Definition readStr (buffer : list byte) (pos : Z) : list byte * Z :=
  (* skip blank lines *)
  let pos := pos + advance is_nl (drop (Z.to_nat pos) buffer) in
  let startPos := pos in
  let pos :=
    pos + advance (fun b => negb (is_nl b)) (drop (Z.to_nat pos) buffer) in
  let pos := pos + 1 in (* skip newline *)
  (Text.trim (Text.decode (slice buffer startPos (pos - 1))), pos).

(** [parseInt(items[1])] for [items = line.split(/\s+/)]. *)
Definition second_int (line : list byte) : option Z :=
  match Text.splitWs line with
  | _ :: item :: _ => Text.parseInt item
  | _ => None
  end.

(** [for (let i = 0; i < nvert3; i++) positions[i] = ...; pos += ...] *)
Fixpoint read_positions (n : nat) (buffer : list byte) (isFloat64 : bool)
    (pos : Z) : result (list number * Z) :=
  match n with
  | O => Ok ([], pos)
  | S n' =>
      let* v := if isFloat64 then DataView.getFloat64 buffer pos false
                else DataView.getFloat32 buffer pos false in
      let* (vs, pos') :=
        read_positions n' buffer isFloat64
          (pos + (if isFloat64 then 8 else 4)) in
      Ok (fround v :: vs, pos')
  end.

(** The OFFSETS extension: one big-endian int32 per offset, or the low
    word of a pair, with a warning when a high word is not 0. *)
Fixpoint read_offsets (n : nat) (buffer : list byte) (isInt64 : bool)
    (pos : Z) : result (list Z * bool) :=
  match n with
  | O => Ok ([], false)
  | S n' =>
      if isInt64 then
        let* hi := DataView.getInt32 buffer pos false in
        let* idx := DataView.getInt32 buffer (pos + 4) false in
        let* (vs, over) := read_offsets n' buffer isInt64 (pos + 8) in
        Ok (ToUint32 idx :: vs, negb (hi =? 0) || over)
      else
        let* idx := DataView.getInt32 buffer pos false in
        let* (vs, over) := read_offsets n' buffer isInt64 (pos + 4) in
        Ok (ToUint32 idx :: vs, over)
  end.

(** [positions[i]]: [undefined] outside the array. *)
Definition at_index (positions : list number) (i : Z) : option number :=
  if i <? 0 then None else positions !! Z.to_nat i.

(** [for (let i = 0; i < numPoints; i++)]: the vertex indices of one
    streamline, resolved against the point table. *)
Fixpoint read_indices (n : nat) (buffer : list byte)
    (positions : list number) (nvert3 : option Z)
    (pos : Z) (pts : list (option number))
  : result (Z * list (option number)) :=
  match n with
  | O => Ok (pos, pts)
  | S n' =>
      if byteLength buffer <? pos + 4 then Throw VTK_eof_points else
      let* raw := DataView.getInt32 buffer pos false in
      let idx := raw * 3 in
      let pos := pos + 4 in
      if geb_nan (idx + 2) nvert3
      then Throw (VTK_index_out_of_bounds idx
                    (match nvert3 with Some n => n | None => 0 end))
      else
        read_indices n' buffer positions nvert3 pos
          (pts ++ [at_index positions idx; at_index positions (idx + 1);
                   at_index positions (idx + 2)])
  end.

Record state := {
  pos : Z; npt : Z; offsetPt0 : list Z; pts : list (option number)
}.

(** [for (let c = 0; c < n_count; c++)], from [c] on. *)
Fixpoint read_lines (n : nat) (c : Z) (buffer : list byte)
    (positions : list number) (nvert3 : option Z) (st : state)
  : result state :=
  match n with
  | O => Ok st
  | S n' =>
      if byteLength buffer <? pos st + 4 then Throw VTK_eof_count else
      let* numPoints := DataView.getInt32 buffer (pos st) false in
      let npt := npt st + numPoints in
      let offsets := ta_set (offsetPt0 st) (c + 1) (ToUint32 npt) in
      let* (pos', pts') :=
        read_indices (Z.to_nat numPoints) buffer positions nvert3
          (pos st + 4) (pts st) in
      read_lines n' (c + 1) buffer positions nvert3
        {| pos := pos'; npt := npt; offsetPt0 := offsets; pts := pts' |}
  end.

Definition readVTK (buffer : list byte) : result (VTK * list warning) :=
  let len := byteLength buffer in
  if len <? 20 then Throw (VTK_too_small len) else
  let '(line, pos) := readStr buffer 0 in
  if negb (Text.startsWith (Text.str "# vtk DataFile") line)
  then Throw VTK_invalid else
  let '(_, pos) := readStr buffer pos in (* ignore comment line *)
  let '(line, pos) := readStr buffer pos in
  if Text.startsWith (Text.str "ASCII") line then Throw VTK_not_binary
  else if negb (Text.startsWith (Text.str "BINARY") line)
  then Throw VTK_not_binary else
  let '(line, pos) := readStr buffer pos in
  if negb (Text.includes (Text.str "POLYDATA") line)
  then Throw VTK_not_polydata else
  let '(line, pos) := readStr buffer pos in
  if negb (Text.startsWith (Text.str "POINTS") line)
     || (negb (Text.includes (Text.str "double") line)
         && negb (Text.includes (Text.str "float") line))
  then Throw VTK_bad_points else
  (* determine point precision *)
  let isFloat64 := Text.includes (Text.str "double") line in
  let nvert := second_int line in
  let nvert3 := option_map (fun n => n * 3) nvert in
  let* _ := alloc (S754_zero false) nvert3 in
  (* ensure we have enough bytes in the buffer *)
  if gtb_nan (option_map (fun n => pos + (if isFloat64 then 8 else 4) * n)
                nvert3) len
  then Throw VTK_ascii_hint else
  let* (positions, pos) :=
    read_positions (match nvert3 with Some n => Z.to_nat n | None => O end)
      buffer isFloat64 pos in
  (* read next dataset type *)
  let '(line, pos) := readStr buffer pos in
  if negb (Text.startsWith (Text.str "LINES") line)
  then Throw VTK_not_lines else
  let n_count := second_int line in
  (* check if OFFSETS exist *)
  let posOK := pos in
  let '(line, pos) := readStr buffer pos in
  if Text.startsWith (Text.str "OFFSETS") line then
    let isInt64 := Text.includes (Text.str "int64") line in
    let* _ := alloc 0 n_count in
    let* (offsets, isOverflowInt32) :=
      read_offsets (match n_count with Some n => Z.to_nat n | None => O end)
        buffer isInt64 pos in
    Ok ({| vtk_pts := positions; vtk_offsetPt0 := offsets |},
        if isOverflowInt32 then [VTK_int32_overflow] else [])
  else
  (* restore position for standard LINES format *)
  let pos := posOK in
  let* offsets := alloc 0 (option_map (fun n => n + 1) n_count) in
  let offsets := ta_set offsets 0 0 in
  let* st :=
    read_lines (match n_count with Some n => Z.to_nat n | None => O end)
      0 buffer positions nvert3
      {| pos := pos; npt := 0; offsetPt0 := offsets; pts := [] |} in
  Ok ({| vtk_pts := Float32Array_from (pts st);
         vtk_offsetPt0 := offsetPt0 st |}, []).

End Vtk.

(* ===================================================================== *)
(** ** readMatV4 and readTT *)
(* ===================================================================== *)

(** [mat: Record<string, TypedNumberArray>]: the properties of the object,
    one entry per name.  The code reads them by name; the list keeps them
    in the order of their first assignment. *)
Definition MatFile := list (list byte * TypedArray).

(** The own property [name] of [mat]: [name in mat] and [mat[name]] for a
    name that [Object.prototype] does not have. *)
Fixpoint mat_get (mat : MatFile) (name : list byte) : option TypedArray :=
  match mat with
  | [] => None
  | (n, a) :: mat' =>
      if Text.equal n name then Some a else mat_get mat' name
  end.

(** [mat[name] = arr]: a name the object has keeps its place and gets the
    new value. *)
Fixpoint mat_set (mat : MatFile) (name : list byte) (arr : TypedArray)
  : MatFile :=
  match mat with
  | [] => [(name, arr)]
  | (n, a) :: mat' =>
      if Text.equal n name then (n, arr) :: mat'
      else (n, a) :: mat_set mat' name arr
  end.

Module MatV4.

Definition getTensDigit (v : Z) : Z := (v / 10) mod 10.

Definition readArray (tagDataType : Z) (bytes : list byte)
    (tagBytesStart tagBytesEnd : Z) : result TypedArray :=
  let byteArray := slice bytes tagBytesStart tagBytesEnd in
  if tagDataType =? 1 then view Float32 byteArray
  else if tagDataType =? 2 then view Int32 byteArray
  else if tagDataType =? 3 then view Int16 byteArray
  else if tagDataType =? 4 then view Uint16 byteArray
  else if tagDataType =? 5 then view Uint8 byteArray
  else view Float64 byteArray.

Definition readTag (bytes : list byte) (pos : Z) (mat : MatFile)
  : result (Z * MatFile) :=
  let* mtype := DataView.getUint32 bytes pos true in
  let* mrows := DataView.getUint32 bytes (pos + 4) true in
  let* ncols := DataView.getUint32 bytes (pos + 8) true in
  let* imagf := DataView.getUint32 bytes (pos + 12) true in
  let* namlen := DataView.getUint32 bytes (pos + 16) true in
  let pos := pos + 20 in (* skip header *)
  if negb (imagf =? 0) then Throw MAT_imaginary else
  let tagArrayItems := mrows * ncols in
  if tagArrayItems <? 1 then Throw MAT_empty_array else
  let byteArray := slice bytes pos (pos + namlen) in
  (* textDecoder.decode(byteArray).trim().replaceAll('\x00', '') *)
  let tagName :=
    List.filter (fun b => negb (Text.eqb b x00))
      (Text.trim (Text.decode byteArray)) in
  let tagDataType := getTensDigit mtype in
  let* tagBytesPerItem :=
    if (1 <=? tagDataType) && (tagDataType <=? 2) then Ok 4
    else if (3 <=? tagDataType) && (tagDataType <=? 4) then Ok 2
    else if tagDataType =? 5 then Ok 1
    else if negb (tagDataType =? 0) then Throw MAT_impossible_datatype
    else Ok 8 in
  let pos := pos + namlen in (* skip name *)
  if 50 <? mtype then Throw MAT_not_little_endian else
  let posEnd := pos + tagArrayItems * tagBytesPerItem in
  let* arr := readArray tagDataType bytes pos posEnd in
  (* mat[tagName] = readArray(...): a property of [mat], unless the name
     is __proto__, which would replace its prototype *)
  if Text.equal tagName (Text.str "__proto__") then Throw MAT_proto_name else
  Ok (posEnd, mat_set mat tagName arr).

(** [while (pos + 20 < len) readTag()] *)
Fixpoint tags (fuel : nat) (bytes : list byte) (pos : Z) (mat : MatFile)
  : result MatFile :=
  if pos + 20 <? byteLength bytes then
    match fuel with
    | O => Throw OutOfFuel
    | S fuel' =>
        let* (pos', mat') := readTag bytes pos mat in
        tags fuel' bytes pos' mat'
    end
  else Ok mat.

Section Reader.
Variable decompress : list byte -> result (list byte).

Definition readMatV4 (buffer : list byte) : result MatFile :=
  let len := byteLength buffer in
  if len <? 40 then Throw (MAT_too_small len) else
  let* magic := DataView.getUint16 buffer 0 true in
  let* _buffer :=
    if (magic =? 35615) || (magic =? 8075) then decompress buffer
    else Ok buffer in
  tags (length _buffer) _buffer 0 [].
End Reader.

End MatV4.

Record TT := { tt_pts : list number; tt_offsetPt0 : list Z }.

Module Tt.

(** The first loop of [parse_tt]: the start of every record. *)
Fixpoint scan (fuel : nat) (dv : list byte) (length : Z)
    (i : Z) (pos : list Z) (nvert3 : Z) : result (list Z * Z) :=
  if i <? length then
    match fuel with
    | O => Throw OutOfFuel
    | S fuel' =>
        let* newpts := DataView.getUint32 dv i true in
        scan fuel' dv length (i + newpts + 13) (pos ++ [i]) (nvert3 + newpts)
    end
  else Ok (pos, nvert3).

Record state := { npt : Z; pts : list number; offsetPt0 : list Z }.

(** [for (let j = 2; j <= sz; j++)]: the points after the first, each a
    signed byte per axis added to the running coordinate. *)
Fixpoint deltas (n : nat) (dv : list byte) (p x y z : Z)
    (npt : Z) (pts : list number) : result (Z * list number) :=
  match n with
  | O => Ok (npt, pts)
  | S n' =>
      let* dx := DataView.getInt8 dv p in
      let* dy := DataView.getInt8 dv (p + 1) in
      let* dz := DataView.getInt8 dv (p + 2) in
      let x := x + dx in
      let y := y + dy in
      let z := z + dz in
      deltas n' dv (p + 3) x y z (npt + 3)
        (ta_set (ta_set (ta_set pts npt (fround (of_Z x)))
                   (npt + 1) (fround (of_Z y)))
           (npt + 2) (fround (of_Z z)))
  end.

(** The body of [for (let i = 0; i < pos.length; i++)]. *)
Definition record (dv : list byte) (i : Z) (p : Z) (st : state)
  : result state :=
  let offsets := ta_set (offsetPt0 st) i (ToUint32 (npt st / 3)) in
  let* size := DataView.getUint32 dv p true in
  (* sz = size / 3; [j <= sz] holds for the integers j <= size / 3 *)
  let* x := DataView.getInt32 dv (p + 4) true in
  let* y := DataView.getInt32 dv (p + 8) true in
  let* z := DataView.getInt32 dv (p + 12) true in
  let npt := npt st in
  let pts :=
    ta_set (ta_set (ta_set (pts st) npt (fround (of_Z x)))
              (npt + 1) (fround (of_Z y)))
       (npt + 2) (fround (of_Z z)) in
  let* (npt, pts) :=
    deltas (Z.to_nat (size / 3 - 1)) dv (p + 16) x y z (npt + 3) pts in
  Ok {| npt := npt; pts := pts; offsetPt0 := offsets |}.

Fixpoint records (dv : list byte) (i : Z) (pos : list Z) (st : state)
  : result state :=
  match pos with
  | [] => Ok st
  | p :: pos' =>
      let* st' := record dv i p st in
      records dv (i + 1) pos' st'
  end.

(** [pts[i]] in an arithmetic expression. *)
Definition at_num (pts : list number) (i : Z) : number :=
  match pts !! Z.to_nat i with Some v => v | None => NaN end.

(** [for (let i = 0; i < npt; i++) pts[i] = pts[i] / 32.0] *)
Definition scale (npt : Z) (pts : list number) : list number :=
  fold_left (fun pts i =>
               ta_set pts (Z.of_nat i)
                 (fround (div (at_num pts (Z.of_nat i)) (of_Z 32))))
            (seq 0 (Z.to_nat npt)) pts.

(** [for (let v = 0; v < npt; v += 3)]: rows 0, 1, 2 of the transposed
    matrix dot each point, plus the translation. *)
Definition to_mni (trans_to_mni : mat4.t) (npt : Z) (pts : list number)
  : list number :=
  let m := mat4.get trans_to_mni in
  fold_left (fun pts k =>
               let v := Z.of_nat (3 * k) in
               let x := at_num pts v in
               let y := at_num pts (v + 1) in
               let z := at_num pts (v + 2) in
               let row (r : nat) :=
                 fround (add (add (add (mul (m r) x)
                                       (mul (m (4 + r)%nat) y))
                                  (mul (m (8 + r)%nat) z))
                             (m (12 + r)%nat)) in
               ta_set (ta_set (ta_set pts v (row 0%nat))
                         (v + 1) (row 1%nat))
                 (v + 2) (row 2%nat))
            (seq 0 (Z.to_nat ((npt + 2) / 3))) pts.

Definition parse_tt (trans_to_mni : mat4.t) (track : TypedArray)
  : result TT :=
  let dv := ta_buffer track in
  let* (pos, nvert3) := scan (length dv) dv (ta_length track) 0 [] 0 in
  let offsets := new_Uint32Array (Z.of_nat (length pos) + 1) in
  let points := new_Float32Array nvert3 in
  let* st := records dv 0 pos
               {| npt := 0; pts := points; offsetPt0 := offsets |} in
  let points := scale (npt st) (pts st) in
  let points := to_mni trans_to_mni (npt st) points in
  (* solve fence post problem, offset for final streamline *)
  let offsets := ta_set (offsetPt0 st) (Z.of_nat (length pos))
                   (ToUint32 (npt st / 3)) in
  Ok {| tt_pts := points; tt_offsetPt0 := offsets |}.

Section Reader.
Variable decompress : list byte -> result (list byte).

Definition readTT (buffer : list byte) : result TT :=
  let* mat := MatV4.readMatV4 decompress buffer in
  match mat_get mat (Text.str "trans_to_mni") with
  | None => Throw (TT_missing "trans_to_mni")
  | Some m =>
      match mat_get mat (Text.str "voxel_size") with
      | None => Throw (TT_missing "voxel_size")
      | Some _ =>
          match mat_get mat (Text.str "track") with
          | None => Throw (TT_missing "track")
          | Some track =>
              let ms := elements m in
              let trans_to_mni :=
                mat4.fromValues
                  (map (fun k => nth k ms NaN) (seq 0 16)) in
              parse_tt (mat4.transpose trans_to_mni) track
          end
      end
  end.
End Reader.

End Tt.

(* ===================================================================== *)
(** ** Test vectors *)
(* ===================================================================== *)

Module Vec.

Definition le16 (v : Z) : list byte := le_bytes 2 v.
Definition le32 (v : Z) : list byte := le_bytes 4 v.
Definition be32 (v : Z) : list byte := rev (le_bytes 4 v).
Definition nl : list byte := [x0a].

(** binary32 bit patterns *)
Definition f1 : Z := 0x3f800000. (* 1.0 *)
Definition f2 : Z := 0x40000000. (* 2.0 *)
Definition f3 : Z := 0x40400000. (* 3.0 *)
Definition f4 : Z := 0x40800000. (* 4.0 *)
Definition f5 : Z := 0x40a00000. (* 5.0 *)
Definition f6 : Z := 0x40c00000. (* 6.0 *)
Definition f7 : Z := 0x40e00000. (* 7.0 *)
Definition f8 : Z := 0x41000000. (* 8.0 *)
Definition f9 : Z := 0x41100000. (* 9.0 *)
Definition fNaN : Z := 0x7fc00000.
Definition fInf : Z := 0x7f800000.

Definition triplet (x y z : Z) : list byte := le32 x ++ le32 y ++ le32 z.

(** The TCK header of the specification's example, 29 bytes. *)
Definition tck_header_text : list byte :=
  Text.str "mrtrix tracks" ++ nl ++ Text.str "file: . 40" ++ nl ++
  Text.str "END" ++ nl.

(** The header padded to 40 bytes with zeros. *)
Definition tck_header : list byte := tck_header_text ++ replicate 11 x00.

(** The header and its padding, then one finite triplet, a NaN triplet,
    an infinity triplet. *)
Definition tck_one_padded (pad : list byte) : list byte :=
  tck_header_text ++ pad ++ triplet f1 f2 f3 ++ triplet fNaN fNaN fNaN
  ++ triplet fInf fInf fInf.

Definition tck_one : list byte := tck_one_padded (replicate 11 x00).

(** Two streamlines, of two vertices and of one. *)
Definition tck_two : list byte :=
  tck_header ++ triplet f1 f2 f3 ++ triplet f4 f5 f6
  ++ triplet fNaN fNaN fNaN ++ triplet f7 f8 f9
  ++ triplet fNaN fNaN fNaN ++ triplet fInf fInf fInf.

(** A TCK header whose "file:" line ends in a token that is no number. *)
Definition tck_header_no_offset : list byte :=
  Text.str "mrtrix tracks" ++ nl ++ Text.str "file: ." ++ nl ++
  Text.str "END" ++ nl.

(** A 1000-byte TRK header: magic "TRAC", voxel sizes 1.0, the given
    numbers of scalars and properties with the given 20-byte name slots,
    a transform matrix of zeros, version 2, header size 1000. *)
Definition trk_header (n_scalars n_properties : Z)
    (scalar_names property_names : list byte) : list byte :=
  Text.str "TRAC" ++ replicate 8 x00                         (* 0 .. 11 *)
  ++ le32 f1 ++ le32 f1 ++ le32 f1                           (* 12 .. 23 *)
  ++ replicate 12 x00                                        (* 24 .. 35 *)
  ++ le16 n_scalars                                          (* 36 .. 37 *)
  ++ take 200 (scalar_names ++ replicate 200 x00)            (* 38 .. 237 *)
  ++ le16 n_properties                                       (* 238 .. 239 *)
  ++ take 200 (property_names ++ replicate 200 x00)          (* 240 .. 439 *)
  ++ replicate 64 x00                                        (* 440 .. 503 *)
  ++ replicate 488 x00                                       (* 504 .. 991 *)
  ++ le32 2 ++ le32 1000.                                    (* 992 .. 999 *)

(** The specification's example: one record, count 1, vertex (1, 2, 3). *)
Definition trk_one : list byte :=
  trk_header 0 0 [] [] ++ le32 1 ++ triplet f1 f2 f3.

(** The same with one property, of value 7.0, named "w". *)
Definition trk_one_property : list byte :=
  trk_header 0 1 [] (Text.str "w") ++ le32 1 ++ triplet f1 f2 f3 ++ le32 f7.

(** The four bytes "TRAC" alone. *)
Definition trk_magic_only : list byte := Text.str "TRAC".

(** A local file record of a ZIP archive. *)
Definition zip_local (gp method crc csize usize : Z)
    (name extra data : list byte) : list byte :=
  le32 Zip.SIG_LOCAL ++ le16 20 ++ le16 gp ++ le16 method
  ++ le16 0 ++ le16 0 ++ le32 crc ++ le32 csize ++ le32 usize
  ++ le16 (byteLength name) ++ le16 (byteLength extra)
  ++ name ++ extra ++ data.

(** A stored entry whose header holds its sizes. *)
Definition stored (name : string) (data : list byte) : list byte :=
  zip_local 0 0 0 (byteLength data) (byteLength data) (Text.str name) [] data.


(** An end-of-central-directory record without comment. *)
Definition zip_end : list byte := le32 Zip.SIG_END ++ replicate 18 x00.

(** A TRX archive of one streamline of one vertex, with one
    per-streamline and one per-vertex attribute. *)
Definition trx_one : list byte :=
  stored "offsets.uint32" (le32 0)
  ++ stored "positions.3.float32" (triplet f1 f2 f3)
  ++ stored "dps/w.float32" (le32 f7)
  ++ stored "dpv/z.float32" (le32 f8)
  ++ zip_end.

(** One stored entry followed by four bytes that are no signature. *)
Definition zip_garbage : list byte :=
  stored "a" [x01] ++ [x00; x00; x00; x00].



(** The local file record at offset 0 of an archive, as read from the
    header alone. *)
Definition header_entry (gp csize usize : Z) : Entry :=
  {| signature := le32 Zip.SIG_LOCAL; version := 20; generalPurpose := gp;
     compressionMethod := 0; lastModifiedTime := 0; lastModifiedDate := 0;
     crc := 0; compressedSize := csize; uncompressedSize := usize;
     fileNameLength := 1; extraLength := 0; fileName := Text.str "a";
     extra := []; startsAt := 0 |}.

(** A VTK file of one point (1, 2, 3) and one line of one vertex whose
    index is [idx]. *)
Definition vtk_one (idx : Z) : list byte :=
  Text.str "# vtk DataFile Version 3.0" ++ nl ++ Text.str "tract" ++ nl
  ++ Text.str "BINARY" ++ nl ++ Text.str "DATASET POLYDATA" ++ nl
  ++ Text.str "POINTS 1 float" ++ nl
  ++ be32 f1 ++ be32 f2 ++ be32 f3 ++ nl
  ++ Text.str "LINES 1 2" ++ nl ++ be32 1 ++ be32 idx.

(** A TT track of one record: size 3, first point (32, 64, 96). *)
Definition tt_track : TypedArray :=
  {| ta_kind := Uint8; ta_buffer := le32 3 ++ le32 32 ++ le32 64 ++ le32 96 |}.

(** A TT track of two records: size 6, the points (32, 64, 96) and
    (64, 64, 64); then size 3, the point (0, 32, 64). *)
Definition tt_track2 : TypedArray :=
  {| ta_kind := Uint8;
     ta_buffer := le32 6 ++ le32 32 ++ le32 64 ++ le32 96 ++ [x20; x00; xe0]
                  ++ le32 3 ++ le32 0 ++ le32 32 ++ le32 64 |}.

(** A MAT V4 tag: type code, rows, columns, name, data. *)
Definition mat_tag (mtype mrows ncols : Z) (name : string)
    (data : list byte) : list byte :=
  le32 mtype ++ le32 mrows ++ le32 ncols ++ le32 0
  ++ le32 (byteLength (Text.str name) + 1)
  ++ Text.str name ++ [x00] ++ data.

Definition d0 : list byte := replicate 8 x00.              (* 0.0 *)
Definition d1 : list byte := replicate 6 x00 ++ [xf0; x3f]. (* 1.0 *)

(** A TT file: the identity as [trans_to_mni], voxel sizes 1.0, and the
    track of one record above. *)
Definition tt_file : list byte :=
  mat_tag 0 4 4 "trans_to_mni"
    (d1 ++ d0 ++ d0 ++ d0 ++ d0 ++ d1 ++ d0 ++ d0
     ++ d0 ++ d0 ++ d1 ++ d0 ++ d0 ++ d0 ++ d0 ++ d1)
  ++ mat_tag 0 1 3 "voxel_size" (d1 ++ d1 ++ d1)
  ++ mat_tag 50 1 16 "track" (ta_buffer tt_track).

End Vec.

(* ===================================================================== *)
(** ** The properties as predicates *)
(* ===================================================================== *)

(** The fence-post invariant of the data model: the first offset is 0, the
    offsets do not decrease, the last one is the number of vertices. *)
Fixpoint nondecreasing (l : list Z) : bool :=
  match l with
  | a :: (b :: _) as l' => (a <=? b) && nondecreasing l'
  | _ => true
  end.

Definition fence_post (pts : list number) (offsetPt0 : list Z) : bool :=
  match offsetPt0 with
  | first :: _ =>
      (first =? 0) && nondecreasing offsetPt0
      && (List.last offsetPt0 0 =? Z.of_nat (length pts) / 3)
  | [] => false
  end.

(** The number of streamlines an offsets array describes. *)
Definition streamline_count (offsetPt0 : list Z) : Z :=
  Z.of_nat (length offsetPt0) - 1.

(** The lengths the data model asks of the attribute arrays. *)
Definition per_vertex_ok (pts : list number) (a : attr) : bool :=
  Z.of_nat (length (vals a)) =? Z.of_nat (length pts) / 3.
Definition per_streamline_ok (offsetPt0 : list Z) (a : attr) : bool :=
  Z.of_nat (length (vals a)) =? streamline_count offsetPt0.

Definition total (l : list Z) : Z := fold_right Z.add 0 l.

(** The records of a TT track of [len] elements from position [i] on,
    by their starts and their size fields: a record starts at [i] when
    [i < len], its size is the little-endian uint32 it begins with, the
    next record starts [size + 13] bytes after it, and there is no record
    once [len] is reached. *)
Fixpoint records_from (dv : list byte) (len i : Z) (starts sizes : list Z)
  : Prop :=
  match starts, sizes with
  | [], [] => len <= i
  | p :: starts', size :: sizes' =>
      p = i /\ i < len
      /\ DataView.getUint32 dv p true = Ok size
      /\ records_from dv len (p + size + 13) starts' sizes'
  | _, _ => False
  end.

(** The signatures [Zip.read] recognises at its cursor. *)
Definition recognised (signature : Z) : bool :=
  (signature =? Zip.SIG_LOCAL) || (signature =? Zip.SIG_CENTRAL)
  || (signature =? Zip.SIG_END) || (signature =? Zip.SIG_END64).

(** A result other than the exhaustion of the model's fuel. *)
Definition terminates {A} (r : result A) : Prop := r <> Throw OutOfFuel.

(** The external primitives, where a statement needs one: a decompressor
    that rejects its input and a JSON parser that keeps the text. *)
Definition no_decompress (data : list byte) : result (list byte) :=
  Throw Decompress_failed.
Definition json_text (data : list byte) : result (list byte) := Ok data.

(* ===================================================================== *)
(** ** Reference values and encoders *)
(* ===================================================================== *)

(** The value of an IEEE-754 binary16 bit pattern, as the standard defines
    it: sign in bit 15, exponent in bits 14 to 10, mantissa in bits 9 to 0;
    exponent 0 is [mantissa / 1024 * 2^-14], exponent 31 is an infinity
    (mantissa 0) or NaN, any other is
    [(1 + mantissa / 1024) * 2^(exponent - 15)]. *)
Definition half_value (h : Z) : number :=
  let s := Z.testbit h 15 in
  let e := Z.land (Z.shiftr h 10) 31 in
  let f := Z.land h 1023 in
  if e =? 31 then (if f =? 0 then S754_infinity s else S754_nan)
  else if e =? 0 then
    binary_normalize 53 1024 (if s then - f else f) (-24) s
  else
    binary_normalize 53 1024 (if s then - (1024 + f) else 1024 + f)
      (e - 25) s.

(** Equality of numbers as data: the same class, sign, mantissa, exponent. *)
Definition number_eqb (a b : number) : bool :=
  match a, b with
  | S754_zero s, S754_zero t => Bool.eqb s t
  | S754_infinity s, S754_infinity t => Bool.eqb s t
  | S754_nan, S754_nan => true
  | S754_finite s m e, S754_finite t n f =>
      Bool.eqb s t && Pos.eqb m n && Z.eqb e f
  | _, _ => false
  end.

(** [P 0 && P 1 && ... && P (n - 1)] *)
Definition all_below (n : positive) (P : Z -> bool) : bool :=
  snd (Pos.iter (fun '(k, acc) => (k + 1, acc && P k)) (0, true) n).

(** What the body loop of readTCK keeps true. *)
Definition tck_inv (len : Z) (st : Tck.state) : Prop :=
  0 <= Tck.npt st
  /\ Tck.npt3 st = 3 * Tck.npt st
  /\ 0 <= Tck.noffset st
  /\ 12 * Tck.npt st <= Tck.pos st
  /\ 12 * Tck.npt st <= len
  /\ length (Tck.pts st) = Z.to_nat (len / 4)
  /\ nondecreasing (take (Z.to_nat (Tck.noffset st)) (Tck.offsetPt0 st)) = true
  /\ Forall (fun o => 0 <= o <= Tck.npt st)
       (take (Z.to_nat (Tck.noffset st)) (Tck.offsetPt0 st)).



(** The bytes of an array of 64-bit words. *)
Definition le64s (vs : list Z) : list byte := flat_map (le_bytes 8) vs.

(** The bytes of an array of 32-bit words. *)
Definition le32s (ws : list Z) : list byte := flat_map (le_bytes 4) ws.

(** The local record of a stored file [(name, data)]: sizes in the header,
    no flags, no extra field. *)
Definition stored_record (f : list byte * list byte) : list byte :=
  Vec.zip_local 0 0 0 (byteLength (snd f)) (byteLength (snd f))
    (fst f) [] (snd f).

(** The central directory record of a stored file: the signature, the
    versions, 20 bytes for the flags, the method, the date, the CRC and the
    sizes, the lengths of the name, the extra field and the comment, the
    disk, the attributes, the offset of the local record, and the name. *)
Definition central_record (f : list byte * list byte) : list byte :=
  Vec.le32 Zip.SIG_CENTRAL ++ Vec.le16 20 ++ Vec.le16 20
  ++ replicate 20 x00
  ++ Vec.le16 (byteLength (fst f)) ++ Vec.le16 0 ++ Vec.le16 0
  ++ Vec.le16 0 ++ Vec.le16 0 ++ Vec.le32 0 ++ Vec.le32 0 ++ fst f.

(** An archive of stored files: their local records, the central
    directory, then an end record. *)
Definition stored_archive (files : list (list byte * list byte))
  : list byte :=
  flat_map stored_record files ++ flat_map central_record files
  ++ Vec.zip_end.

(** The sizes the 16- and 32-bit header fields can hold; [0xffffffff] is
    the ZIP64 marker. *)
Definition storable (f : list byte * list byte) : Prop :=
  byteLength (fst f) < 65536 /\ byteLength (snd f) < 0xffffffff.

(** The entry [read] keeps for the stored record at [offset]. *)
Definition stored_entry (offset : Z) (f : list byte * list byte) : Entry :=
  {| signature := Vec.le32 Zip.SIG_LOCAL; version := 20;
     generalPurpose := 0; compressionMethod := 0;
     lastModifiedTime := 0; lastModifiedDate := 0; crc := 0;
     compressedSize := byteLength (snd f);
     uncompressedSize := byteLength (snd f);
     fileNameLength := byteLength (fst f); extraLength := 0;
     fileName := fst f; extra := [];
     startsAt := offset + 30 + byteLength (fst f) |}.

Fixpoint stored_entries (offset : Z) (files : list (list byte * list byte))
  : list Entry :=
  match files with
  | [] => []
  | f :: files' =>
      stored_entry offset f
      :: stored_entries (offset + byteLength (stored_record f)) files'
  end.

(** What [read] keeps true of every entry it lists, [len] being the length
    of the archive: the payload starts inside the buffer and after a whole
    header, and the signature, the name and the extra field have the
    lengths the header gives. *)
Definition entry_ok (len : Z) (e : Entry) : Prop :=
  30 + fileNameLength e + extraLength e <= startsAt e <= len
  /\ byteLength (signature e) = 4
  /\ byteLength (fileName e) = fileNameLength e
  /\ byteLength (extra e) = extraLength e
  /\ 0 <= compressedSize e.

(** The formats of [DecompressionStream]. *)
Inductive format := gzip | deflate | deflate_raw.

(** [data[i] === v] on a [Uint8Array]: false past the end. *)
Definition byte_is (data : list byte) (i : nat) (v : Z) : bool :=
  match data !! i with
  | Some b => byte_val b =? v
  | None => false
  end.

(** The format [NVUtilities.decompress] chooses from the first bytes. *)
Definition decompress_format (data : list byte) : format :=
  if byte_is data 0 31 && byte_is data 1 139 && byte_is data 2 8 then gzip
  else if byte_is data 0 120
          && (byte_is data 1 1 || byte_is data 1 94 || byte_is data 1 156
              || byte_is data 1 218)
  then deflate
  else deflate_raw.

(** [NVUtilities.decompress] over the stream primitive of the runtime. *)
Definition decompress
    (DecompressionStream : format -> list byte -> result (list byte))
    (data : list byte) : result (list byte) :=
  DecompressionStream (decompress_format data) data.

(** The archive of a tractogram: the offsets under the name that tells
    their type, then the positions as binary32 bit patterns. *)
Definition trx_archive (offsets_name : string) (offsets : list byte)
    (bits : list Z) : list byte :=
  stored_archive [(Text.str offsets_name, offsets);
                  (Text.str "positions.3.float32", le32s bits)].

(** A variable of a MAT V4 file: the type code, the dimensions, the name
    and the bytes of the items. *)
Record mat_var := {
  mv_type : Z; mv_rows : Z; mv_cols : Z;
  mv_name : list byte; mv_data : list byte
}.

(** The tag of a variable: five 32-bit words, the name with its NUL, the
    data. *)
Definition mat_record (v : mat_var) : list byte :=
  Vec.le32 (mv_type v) ++ Vec.le32 (mv_rows v) ++ Vec.le32 (mv_cols v)
  ++ Vec.le32 0 ++ Vec.le32 (byteLength (mv_name v) + 1)
  ++ (mv_name v ++ [x00]) ++ mv_data v.

(** The array type [readArray] chooses for a type code. *)
Definition mat_kind (mtype : Z) : kind :=
  let d := MatV4.getTensDigit mtype in
  if d =? 1 then Float32 else if d =? 2 then Int32
  else if d =? 3 then Int16 else if d =? 4 then Uint16
  else if d =? 5 then Uint8 else Float64.

(** A name of ASCII characters other than NUL that does not begin with
    white space and is not __proto__: decoding, [trim] and the removal of
    NULs leave it as it is, and assigning to it makes it a property of the
    object. *)
Definition plain_name (name : list byte) : bool :=
  forallb (fun b => (0 <? byte_val b) && (byte_val b <? 128)) name
  && match name with
     | c :: _ =>
         negb (((9 <=? byte_val c) && (byte_val c <=? 13))
               || (byte_val c =? 32))
     | [] => true
     end
  && negb (Text.equal name (Text.str "__proto__")).

(** The variables [mat_record] can hold and [readTag] accepts. *)
Definition mat_var_ok (v : mat_var) : Prop :=
  0 <= mv_type v <= 50
  /\ 0 <= mv_rows v < 2 ^ 32 /\ 0 <= mv_cols v < 2 ^ 32
  /\ 1 <= mv_rows v * mv_cols v
  /\ byteLength (mv_data v)
     = mv_rows v * mv_cols v
       * Z.of_nat (BYTES_PER_ELEMENT (mat_kind (mv_type v)))
  /\ byteLength (mv_name v) + 1 < 2 ^ 32
  /\ plain_name (mv_name v) = true.

(** A file of variables. *)
Definition mat_file (vars : list mat_var) : list byte :=
  flat_map mat_record vars.

(** The array a variable is read as. *)
Definition mat_array (v : mat_var) : TypedArray :=
  {| ta_kind := mat_kind (mv_type v); ta_buffer := mv_data v |}.

Definition mat_entry (v : mat_var) : list byte * TypedArray :=
  (mv_name v, mat_array v).

(** The object after the variables have been assigned to it in order. *)
Definition assigned (vars : list mat_var) (mat : MatFile) : MatFile :=
  fold_left (fun m v => mat_set m (mv_name v) (mat_array v)) vars mat.

(** The array of the last of the variables that has the given name. *)
Fixpoint last_named (vars : list mat_var) (name : list byte)
  : option TypedArray :=
  match vars with
  | [] => None
  | v :: vars' =>
      match last_named vars' name with
      | Some a => Some a
      | None =>
          if Text.equal (mv_name v) name then Some (mat_array v) else None
      end
  end.

(** A vertex is three binary32 bit patterns; a streamline is stored as its
    vertices and a NaN triplet; a track file is the header, the streamlines
    and the final bytes, an infinity triplet by the format. *)
Definition tck_vertex_bytes (v : Z * Z * Z) : list byte :=
  let '(x, y, z) := v in Vec.triplet x y z.

Definition tck_streamline (s : list (Z * Z * Z)) : list byte :=
  flat_map tck_vertex_bytes s ++ Vec.triplet Vec.fNaN Vec.fNaN Vec.fNaN.

Definition tck_file (ss : list (list (Z * Z * Z))) (final : list byte)
  : list byte :=
  Vec.tck_header ++ flat_map tck_streamline ss ++ final.

(** Three 32-bit patterns, the first of a finite number: [readTCK] tests
    the x coordinate alone. *)
Definition tck_vertex_ok (v : Z * Z * Z) : Prop :=
  let '(x, y, z) := v in
  (0 <= x < 2 ^ 32 /\ 0 <= y < 2 ^ 32 /\ 0 <= z < 2 ^ 32)
  /\ isFinite (of_bits32 x) = true.

Definition tck_coords (v : Z * Z * Z) : list number :=
  let '(x, y, z) := v in
  [fround (of_bits32 x); fround (of_bits32 y); fround (of_bits32 z)].

(** The number of vertices up to the end of each streamline. *)
Fixpoint tck_ends (n : Z) (ss : list (list (Z * Z * Z))) : list Z :=
  match ss with
  | [] => []
  | s :: ss' =>
      (n + Z.of_nat (length s))
      :: tck_ends (n + Z.of_nat (length s)) ss'
  end.

(** The two steps of the body loop of readTCK as updates of its state: a
    finite triplet, and a NaN triplet. *)
Definition tck_push (st : Tck.state) (v : Z * Z * Z) : Tck.state :=
  let '(x, y, z) := v in
  {| Tck.pos := Tck.pos st + 12; Tck.npt := Tck.npt st + 1;
     Tck.noffset := Tck.noffset st; Tck.npt3 := Tck.npt3 st + 3;
     Tck.pts := ta_set (ta_set (ta_set (Tck.pts st)
                  (Tck.npt3 st) (fround (of_bits32 x)))
                  (Tck.npt3 st + 1) (fround (of_bits32 y)))
                  (Tck.npt3 st + 2) (fround (of_bits32 z));
     Tck.offsetPt0 := Tck.offsetPt0 st |}.

Definition tck_close (st : Tck.state) : Tck.state :=
  {| Tck.pos := Tck.pos st + 12; Tck.npt := Tck.npt st;
     Tck.noffset := Tck.noffset st + 1; Tck.npt3 := Tck.npt3 st;
     Tck.pts := Tck.pts st;
     Tck.offsetPt0 := ta_set (Tck.offsetPt0 st) (Tck.noffset st)
                        (ToUint32 (Tck.npt st)) |}.

(** The state after the streamlines [ss]. *)
Definition tck_run (ss : list (list (Z * Z * Z))) (st : Tck.state)
  : Tck.state :=
  fold_left (fun st s => tck_close (fold_left tck_push s st)) ss st.

(** The steps the loop takes on the streamlines [ss]. *)
Fixpoint tck_steps (ss : list (list (Z * Z * Z))) : nat :=
  match ss with
  | [] => O
  | s :: ss' => (length s + 1 + tck_steps ss')%nat
  end.

(** The running totals of the line lengths. *)
Fixpoint running (acc : Z) (counts : list Z) : list Z :=
  match counts with
  | [] => []
  | k :: counts' => (acc + k) :: running (acc + k) counts'
  end.


Definition vertices_of (counts : list Z) : nat :=
  fold_right (fun k n => (Z.to_nat k + n)%nat) O counts.

(** The number of vertices before each record of a track, the records
    having [counts] vertices. *)
Fixpoint before (acc : Z) (counts : list Z) : list Z :=
  match counts with
  | [] => []
  | k :: counts' => acc :: before (acc + k) counts'
  end.

(** The vertices [parse_tt] writes for a record whose size field is [s]:
    the first point, and one more for every [j] from 2 to [s / 3]. *)
Definition tt_count (s : Z) : Z := Z.max 1 (s / 3).

(** The vertex counts of the streamline records of a TRK body, walked as
    the scan walks them: the record at word [i] holds its count, then
    [3 + n_scalars] words for each vertex and [n_properties] words. *)
Fixpoint trk_counts (fuel : nat) (i32 : list Z) (n_scalars n_properties : Z)
    (i : Z) : list Z :=
  if i <? Z.of_nat (length i32) then
    match fuel with
    | O => []
    | S fuel' =>
        let c := Z.of_nat (Z.to_nat (nth (Z.to_nat i) i32 0)) in
        c :: trk_counts fuel' i32 n_scalars n_properties
               (i + 1 + c * (3 + (if 0 <? n_scalars then n_scalars else 0))
                + (if 0 <? n_properties then n_properties else 0))
    end
  else [].

(** The bytes of an array of 64-bit integers in big-endian order, as the
    OFFSETS block of a VTK file holds them. *)
Definition be64s (vs : list Z) : list byte :=
  flat_map (fun v => Vec.be32 (v / 2 ^ 32) ++ Vec.be32 (v mod 2 ^ 32)) vs.

(** Whether a file of variables holds one of the given name. *)
Definition has_var (vars : list mat_var) (name : string) : bool :=
  existsb (fun v => Text.equal (mv_name v) (Text.str name)) vars.

(** An extra field: its header id, the length of its data, its data. *)
Definition extra_field (f : Z * list byte) : list byte :=
  Vec.le16 (fst f) ++ Vec.le16 (byteLength (snd f)) ++ snd f.

(** The ZIP64 extended information field: the uncompressed size, then the
    compressed size. *)
Definition zip64_info (usize csize : Z) : list byte :=
  Vec.le16 1 ++ Vec.le16 16 ++ le_bytes 8 usize ++ le_bytes 8 csize.

(** An extra field that is not the ZIP64 one. *)
Definition other_field (f : Z * list byte) : Prop :=
  0 <= fst f < 65536 /\ fst f <> 1 /\ byteLength (snd f) < 65536.

(* ===================================================================== *)
(** ** Properties *)
(* ===================================================================== *)

(** *** The runtime *)

(** A [DataView] read that ends past the buffer raises [RangeError]. *)
Lemma getUint32_out_of_bounds dv pos le :
  byteLength dv < pos + 4 -> DataView.getUint32 dv pos le = Throw RangeError.
Proof.
  intros H. unfold DataView.getUint32, DataView.raw, DataView.bytes_at.
  destruct (Z.leb_spec (pos + 4) (byteLength dv)) as [Hle | _]; [lia |].
  rewrite andb_false_r. reflexivity.
Qed.


Lemma le_val_nonneg l : 0 <= le_val l.
Proof.
  induction l as [| b l IH]; cbn [le_val fold_right]; [lia |].
  fold (le_val l). unfold byte_val. lia.
Qed.

Lemma raw_ok dv pos n le v :
  DataView.raw dv pos n le = Ok v -> 0 <= pos /\ 0 <= v.
Proof.
  unfold DataView.raw, DataView.bytes_at. intros H.
  destruct (Z.leb_spec 0 pos); cbn [andb] in H; [| discriminate].
  destruct (pos + n <=? byteLength dv); cbn [bind] in H; [| discriminate].
  injection H as <-. split; [assumption |].
  destruct le; [| unfold be_val]; apply le_val_nonneg.
Qed.

Ltac bind_inv H :=
  repeat match type of H with
         | bind ?r _ = Ok _ =>
             let E := fresh "E" in
             destruct r eqn:E; cbn [bind] in H; [| discriminate H]
         | (let (_, _) := ?p in _) = Ok _ => destruct p
         end.

Lemma slice_within {A} (l : list A) a b :
  0 <= a <= b -> b <= Z.of_nat (length l) ->
  slice l a b = take (Z.to_nat (b - a)) (drop (Z.to_nat a) l).
Proof.
  intros Hab Hb. unfold slice.
  destruct (Z.ltb_spec a 0); [lia |]. destruct (Z.ltb_spec b 0); [lia |].
  rewrite !Z.min_l by lia. reflexivity.
Qed.

Lemma slice_empty {A} (l : list A) : slice l 0 0 = [].
Proof. rewrite slice_within by lia. reflexivity. Qed.

Lemma advance_stop p l c rest :
  forallb p l = true -> p c = false ->
  advance p (l ++ c :: rest) = Z.of_nat (length l).
Proof.
  intros Hl Hc. induction l as [| a l IH]; cbn [app advance length].
  - rewrite Hc. reflexivity.
  - cbn [forallb] in Hl. apply andb_true_iff in Hl as [Ha Hl].
    rewrite Ha, (IH Hl). lia.
Qed.

Lemma advance_nonneg p rest : 0 <= advance p rest.
Proof.
  induction rest as [| c rest IH]; cbn [advance]; [lia |].
  destruct (p c); lia.
Qed.

Lemma terminates_Ok {A} (a : A) : terminates (Ok a).
Proof. discriminate. Qed.

Lemma terminates_bind {A B} (r : result A) (k : A -> result B) :
  terminates r -> (forall a, r = Ok a -> terminates (k a)) ->
  terminates (bind r k).
Proof.
  intros Hr Hk. destruct r as [a | e]; cbn [bind]; [apply Hk; reflexivity |].
  intros H. apply Hr. injection H as ->. reflexivity.
Qed.

Lemma terminates_raw dv pos n le : terminates (DataView.raw dv pos n le).
Proof.
  unfold DataView.raw, DataView.bytes_at.
  destruct ((0 <=? pos) && (pos + n <=? byteLength dv)); discriminate.
Qed.

Lemma terminates_readString dv offset length :
  terminates (Zip.readString dv offset length).
Proof.
  unfold Zip.readString, DataView.bytes_at.
  destruct (length <=? 0); [discriminate |].
  destruct ((0 <=? offset) && (offset + length <=? byteLength dv));
    discriminate.
Qed.

Create HintDb fuel.

#[local] Hint Resolve terminates_Ok terminates_raw terminates_readString
  : fuel.

Ltac step_bind :=
  apply terminates_bind;
  [ first [ apply terminates_raw | apply terminates_readString
          | solve [eauto with fuel] ]
  | let a := fresh "v" in let E := fresh "E" in intros a E ].

Lemma terminates_getFloat32 dv pos le :
  terminates (DataView.getFloat32 dv pos le).
Proof.
  unfold DataView.getFloat32. step_bind. apply terminates_Ok.
Qed.

Lemma of_bigint_nonneg n : 0 <= of_bigint n.
Proof.
  unfold of_bigint. destruct (binary_normalize 53 1024 n 0 false); try lia.
  apply Z.shiftl_nonneg. lia.
Qed.

(** *** readTCK *)

(** readTCK refuses a buffer of fewer than 20 bytes by its own guard. *)
Lemma readTCK_too_small buffer :
  byteLength buffer < 20 ->
  Tck.readTCK buffer = Throw (TCK_too_small (byteLength buffer)).
Proof.
  intros H. unfold Tck.readTCK.
  destruct (Z.ltb_spec (byteLength buffer) 20) as [_ | Hge]; [reflexivity | lia].
Qed.

(** [readStr] at the start of a line that is not empty returns the line,
    decoded, and the position after its end-of-line character. *)
Lemma readStr_line pre c line rest :
  is_nl c = false ->
  forallb (fun b => negb (is_nl b)) line = true ->
  Tck.readStr (pre ++ (c :: line) ++ x0a :: rest) (Z.of_nat (length pre)) =
    (Text.decode (c :: line),
     Z.of_nat (length pre) + Z.of_nat (length (c :: line)) + 1).
Proof.
  intros Hc Hline. unfold Tck.readStr.
  rewrite Nat2Z.id, drop_app_length.
  cbn [app advance]. rewrite Hc, Z.add_0_r.
  rewrite Nat2Z.id, drop_app_length.
  change (c :: line ++ x0a :: rest) with ((c :: line) ++ x0a :: rest).
  rewrite advance_stop; [| cbn [forallb]; rewrite Hc, Hline; reflexivity
                         | reflexivity].
  set (n := length (c :: line)).
  destruct (Z.ltb_spec (Z.of_nat (length pre) + Z.of_nat n + 1
                        - Z.of_nat (length pre)) 1) as [Hlt | _].
  { exfalso. lia. }
  do 2 f_equal.
  rewrite slice_within; [| lia |].
  - replace (Z.to_nat (Z.of_nat (length pre) + Z.of_nat n + 1 - 1
                        - Z.of_nat (length pre))) with n by lia.
    rewrite Nat2Z.id, drop_app_length.
    apply take_app_length.
  - subst n. rewrite !length_app. cbn [length]. lia.
Qed.

Lemma readStr_progress buffer pos :
  pos < snd (Tck.readStr buffer pos).
Proof.
  unfold Tck.readStr.
  set (a := advance is_nl _). set (b := advance _ _).
  pose proof (advance_nonneg is_nl (drop (Z.to_nat pos) buffer)).
  pose proof (advance_nonneg (fun b => negb (is_nl b))
                (drop (Z.to_nat (pos + a)) buffer)).
  fold a in H. fold b in H0.
  destruct (pos + a + b + 1 - (pos + a) <? 1); cbn [snd]; lia.
Qed.

Lemma header_step fuel buffer line pos offset :
  Tck.header (S fuel) buffer line pos offset =
    if (pos <? byteLength buffer) && negb (Text.includes (Text.str "END") line)
    then
      let '(line, pos) := Tck.readStr buffer pos in
      let offset :=
        if Text.startsWith (Text.str "file:") (Text.toLowerCase line)
        then Text.parseInt (List.last (Text.split " "%byte line) [])
        else offset in
      Tck.header fuel buffer line pos offset
    else Ok offset.
Proof. reflexivity. Qed.

Lemma header_end fuel buffer line pos offset :
  Text.includes (Text.str "END") line = true ->
  Tck.header fuel buffer line pos offset = Ok offset.
Proof.
  intros H. destruct fuel; cbn [Tck.header]; rewrite H, andb_false_r;
    reflexivity.
Qed.

Lemma header_fuel fuel : forall buffer line pos offset,
  byteLength buffer - pos <= Z.of_nat fuel ->
  terminates (Tck.header fuel buffer line pos offset).
Proof.
  induction fuel as [| fuel IH]; intros buffer line pos offset Hfuel.
  - cbn [Tck.header].
    destruct (Z.ltb_spec pos (byteLength buffer)); [lia |].
    apply terminates_Ok.
  - rewrite header_step.
    destruct (_ && _); [| apply terminates_Ok].
    pose proof (readStr_progress buffer pos) as Hp.
    destruct (Tck.readStr buffer pos) as [line' pos']. cbn [snd] in Hp.
    apply IH. lia.
Qed.

Lemma body_fuel fuel : forall buffer st,
  byteLength buffer - Tck.pos st <= Z.of_nat fuel ->
  terminates (Tck.body fuel buffer st).
Proof.
  induction fuel as [| fuel IH]; intros buffer st Hfuel; cbn [Tck.body];
    destruct (Z.ltb_spec (Tck.pos st + 12) (byteLength buffer));
    try apply terminates_Ok; [lia |].
  apply terminates_bind; [apply terminates_getFloat32 | intros ptx _].
  apply terminates_bind; [apply terminates_getFloat32 | intros pty _].
  apply terminates_bind; [apply terminates_getFloat32 | intros ptz _].
  destruct (negb (isFinite ptx)).
  - destruct (negb (isNaN ptx)); [apply terminates_Ok |].
    apply IH. cbn [Tck.pos]. lia.
  - apply IH. cbn [Tck.pos]. lia.
Qed.

(** readTCK returns or raises one of its own errors. *)
Lemma terminates_readTCK buffer : terminates (Tck.readTCK buffer).
Proof.
  unfold Tck.readTCK.
  destruct (byteLength buffer <? 20); [discriminate |].
  pose proof (readStr_progress buffer 0) as Hp.
  destruct (Tck.readStr buffer 0) as [line pos]. cbn [snd] in Hp.
  destruct (negb _); [discriminate |].
  apply terminates_bind.
  { apply header_fuel. unfold byteLength. lia. }
  intros offset Hoffset.
  destruct (nan_ltb offset 20) eqn:Hlt; [discriminate |].
  apply terminates_bind; [| intros; apply terminates_Ok].
  destruct offset as [p |]; [| apply terminates_Ok].
  apply body_fuel. cbn [Tck.pos nan_ltb] in *.
  apply Z.ltb_ge in Hlt. unfold byteLength. lia.
Qed.

(** C7.  readTCK on the header "mrtrix tracks", "file: . 40", "END" padded
    to 40 bytes, whatever the 11 bytes of padding, followed by the finite
    triplet (1, 2, 3), a NaN triplet and an infinity triplet: the three
    coordinates are returned, and the offsets array is [[1]], the vertex
    count at the NaN triplet.  It is not the array [[0; 1]] of one
    streamline covering the vertex: the entry 0 written before the loop is
    overwritten, and the infinity triplet, the last 12 bytes of the buffer,
    is never read. *)
Theorem C7_readTCK_example pad :
  length pad = 11%nat ->
  Tck.readTCK (Vec.tck_one_padded pad) =
    Ok {| tck_pts := [of_Z 1; of_Z 2; of_Z 3]; tck_offsetPt0 := [1] |}
  /\ streamline_count [1] = 0.
Proof.
  intros Hpad.
  do 12 (destruct pad as [| ? pad]; try discriminate Hpad).
  split; vm_compute; reflexivity.
Qed.

Lemma C7_readTCK_example_witness :
  Tck.readTCK Vec.tck_one =
    Ok {| tck_pts := [of_Z 1; of_Z 2; of_Z 3]; tck_offsetPt0 := [1] |}
  /\ streamline_count [1] = 0.
Proof.
  apply (C7_readTCK_example (replicate 11 x00)). reflexivity.
Defined.

(** C10.  readTCK on the header "mrtrix tracks", "file: .", "END", whatever
    follows it: [parseInt(".")] is NaN, [offset < 20] is false on NaN, the
    loop [while (pos + 12 < len)] does not run, and the result is a
    tractogram with no point and no offset; the "missing file offset" error
    is not raised and no byte of the body is read. *)
Theorem C10_readTCK_offset_not_a_number tail :
  Text.parseInt (Text.str ".") = None
  /\ Tck.readTCK (Vec.tck_header_no_offset ++ tail) =
       Ok {| tck_pts := []; tck_offsetPt0 := [] |}.
Proof.
  split; [reflexivity |].
  set (l1 := Text.str "mrtrix tracks").
  set (l2 := Text.str "file: .").
  set (l3 := Text.str "END").
  set (buffer := Vec.tck_header_no_offset ++ tail).
  assert (Hlen : byteLength buffer = 26 + Z.of_nat (length tail)).
  { unfold buffer, byteLength. rewrite length_app, Nat2Z.inj_add.
    reflexivity. }
  assert (H1 : Tck.readStr buffer 0 = (l1, 14)).
  { exact (readStr_line [] "m"%byte (Text.str "rtrix tracks")
             (l2 ++ x0a :: l3 ++ x0a :: tail) eq_refl eq_refl). }
  assert (H2 : Tck.readStr buffer 14 = (l2, 22)).
  { exact (readStr_line (l1 ++ [x0a]) "f"%byte (Text.str "ile: .")
             (l3 ++ x0a :: tail) eq_refl eq_refl). }
  assert (H3 : Tck.readStr buffer 22 = (l3, 26)).
  { exact (readStr_line (l1 ++ x0a :: l2 ++ [x0a]) "E"%byte (Text.str "ND")
             tail eq_refl eq_refl). }
  unfold Tck.readTCK. fold buffer.
  destruct (Z.ltb_spec (byteLength buffer) 20) as [Hlt | _]; [lia |].
  rewrite H1.
  change (Text.includes (Text.str "mrtrix tracks") l1) with true.
  cbn [negb].
  assert (Hfuel : exists n, length buffer = S (S n)).
  { unfold buffer. rewrite length_app. eexists. reflexivity. }
  destruct Hfuel as [n ->].
  rewrite header_step.
  destruct (Z.ltb_spec 14 (byteLength buffer)) as [_ | Hge]; [| lia].
  change (Text.includes (Text.str "END") l1) with false.
  cbn [negb andb]. rewrite H2.
  change (Text.startsWith (Text.str "file:") (Text.toLowerCase l2)) with true.
  change (Text.parseInt (List.last (Text.split " "%byte l2) []))
    with (@None Z).
  cbv iota beta zeta.
  rewrite header_step.
  destruct (Z.ltb_spec 22 (byteLength buffer)) as [_ | Hge]; [| lia].
  change (Text.includes (Text.str "END") l2) with false.
  cbn [negb andb]. rewrite H3.
  change (Text.startsWith (Text.str "file:") (Text.toLowerCase l3)) with false.
  cbv iota beta zeta.
  rewrite header_end by reflexivity.
  cbn [bind nan_ltb].
  cbn [Tck.pts Tck.offsetPt0 Tck.npt3 Tck.noffset].
  rewrite !slice_empty. reflexivity.
Qed.

(** *** readTRK *)

(** C6.  readTRK on the synthetic header (magic "TRAC", version 2, header
    size 1000, no scalars or properties, voxel sizes 1.0, transform matrix
    of zeros) followed by the record (count 1, vertex (1, 2, 3)): the
    vertex is returned at (0.5, 1.5, 2.5) and the unset transform is a
    warning, not an error; the offsets array is [[0]], which describes no
    streamline, because the entry closing the fence post falls outside the
    array of [ntracks / 4 = 1] entries and is dropped. *)
Theorem C6_readTRK_example decompress :
  Trk.readTRK decompress Vec.trk_one =
    Ok ({| trk_pts := [dyadic 1 (-1); dyadic 3 (-1); dyadic 5 (-1)];
           trk_offsetPt0 := [0]; trk_dps := []; trk_dpv := [] |},
        [TRK_vox_to_ras_not_set])
  /\ streamline_count [0] = 0.
Proof. split; vm_compute; reflexivity. Qed.

(** C3.  readTRK has no length guard.  On a buffer shorter than the header
    that begins with the magic "TRAC", or is too short to hold a magic at
    all, a [DataView] read is out of bounds (the version at offset 992, or
    the magic itself) and the runtime's [RangeError] is what the caller
    gets, where readTCK and readVTK raise their "too small" error before
    they read. *)
Theorem C3_readTRK_short_buffer decompress buffer :
  byteLength buffer < 996 ->
  (4 <= byteLength buffer ->
   DataView.getUint32 buffer 0 true = Ok Trk.TRAC) ->
  Trk.readTRK decompress buffer = Throw RangeError.
Proof.
  intros Hlen Hmagic. unfold Trk.readTRK.
  destruct (Z.le_gt_cases 4 (byteLength buffer)) as [H4 | H4].
  - rewrite (Hmagic H4). cbn [bind]. rewrite Z.eqb_refl. cbn [negb bind].
    rewrite (getUint32_out_of_bounds buffer 992) by lia.
    reflexivity.
  - rewrite (getUint32_out_of_bounds buffer 0) by lia. reflexivity.
Qed.

Lemma C3_readTRK_short_buffer_witness :
  Trk.readTRK no_decompress Vec.trk_magic_only = Throw RangeError
  /\ Trk.readTRK no_decompress [] = Throw RangeError.
Proof.
  split.
  - apply (C3_readTRK_short_buffer no_decompress Vec.trk_magic_only);
      [reflexivity | intros _; reflexivity].
  - apply (C3_readTRK_short_buffer no_decompress []);
      [reflexivity | intros H; vm_compute in H; contradiction H; reflexivity].
Defined.

(** *** The archive reader *)

Lemma read_step fuel z :
  Zip.read (S fuel) z =
    if match Zip.endOfCentralDirectory z with None => true | Some _ => false end
       && (Zip.index z <? byteLength (Zip.dataView z))
    then
      let dv := Zip.dataView z in
      let* signature := DataView.getUint32 dv (Zip.index z) true in
      if signature =? Zip.SIG_LOCAL then
        let* z' := Zip.local_file z in Zip.read fuel z'
      else if signature =? Zip.SIG_CENTRAL then
        let* entry := Zip.readCentralDirectory dv (Zip.index z) in
        Zip.read fuel
          (Zip.push_central z entry
             (Zip.index z + (46 + cd_fileNameLength entry
                             + cd_extraLength entry
                             + fileCommentLength entry)))
      else if signature =? Zip.SIG_END then
        let* e := Zip.readEndCentralDirectory dv (Zip.index z) in
        Ok (Zip.set_end z e)
      else if signature =? Zip.SIG_END64 then
        let* e := Zip.readEndCentralDirectory64 dv (Zip.index z) in
        Ok (Zip.set_end z e)
      else
        Ok (Zip.console_error z
              (ZIP_unexpected_signature signature (Zip.index z)))
    else Ok z.
Proof. reflexivity. Qed.

Lemma zip64_field_fuel fuel : forall dv z stop,
  stop - z <= Z.of_nat fuel -> terminates (Zip.zip64_field fuel dv z stop).
Proof.
  induction fuel as [| fuel IH]; intros dv z stop Hfuel; cbn [Zip.zip64_field];
    destruct (Z.ltb_spec z stop); try apply terminates_Ok; [lia |].
  unfold DataView.getUint16, DataView.getBigUint64.
  step_bind. step_bind.
  destruct (v =? 1).
  - destruct (16 <=? v0); [| discriminate].
    step_bind. step_bind. apply terminates_Ok.
  - apply raw_ok in E0. apply IH. lia.
Qed.

Lemma zip64_field_nonneg fuel : forall dv z stop u c,
  Zip.zip64_field fuel dv z stop = Ok (Some (u, c)) -> 0 <= u /\ 0 <= c.
Proof.
  induction fuel as [| fuel IH]; intros dv z stop u c H;
    cbn [Zip.zip64_field] in H; destruct (z <? stop); try discriminate.
  bind_inv H.
  destruct (a =? 1).
  - destruct (16 <=? a0); [| discriminate]. bind_inv H.
    injection H as <- <-. split; apply of_bigint_nonneg.
  - eapply IH. exact H.
Qed.

(** What a successful [readLocalFile] says about the record it read. *)
Lemma readLocalFile_fields dv offset e :
  Zip.readLocalFile dv offset = Ok e ->
  0 <= offset + 18 /\ 0 <= fileNameLength e /\ 0 <= extraLength e.
Proof.
  unfold Zip.readLocalFile. intros H. bind_inv H.
  injection H as <-. cbn [fileNameLength extraLength].
  unfold DataView.getUint32, DataView.getUint16 in *.
  repeat match goal with
         | E : DataView.raw _ _ _ _ = Ok _ |- _ => apply raw_ok in E
         end.
  lia.
Qed.

(** A local file record read with success has sizes that are not
    negative. *)
Lemma readLocalFile_sizes dv offset e :
  Zip.readLocalFile dv offset = Ok e ->
  0 <= fileNameLength e /\ 0 <= extraLength e /\ 0 <= compressedSize e.
Proof.
  intros H. pose proof (readLocalFile_fields _ _ _ H) as (_ & Hf & He).
  split; [exact Hf |]. split; [exact He |].
  unfold Zip.readLocalFile in H.
  destruct (DataView.getUint32 dv (offset + 18) true) as [c |] eqn:Ec;
    cbn [bind] in H; [| discriminate].
  destruct (DataView.getUint32 dv (offset + 22) true) as [u |] eqn:Eu;
    cbn [bind] in H; [| discriminate].
  destruct (DataView.getUint16 dv (offset + 26) true) as [fnl |];
    cbn [bind] in H; [| discriminate].
  destruct (DataView.getUint16 dv (offset + 28) true) as [el |];
    cbn [bind] in H; [| discriminate].
  destruct (Zip.readString dv (offset + 30 + fnl) el);
    cbn [bind] in H; [| discriminate].
  destruct ((c =? 4294967295) && (u =? 4294967295)).
  - destruct (Zip.zip64_field (Z.to_nat el) dv (offset + 30 + fnl)
                (offset + 30 + fnl + el - 4)) as [[[u' c'] |] |] eqn:Ez;
      cbn [bind] in H; try discriminate.
    apply zip64_field_nonneg in Ez as [_ Hc'].
    bind_inv H. injection H as <-. exact Hc'.
  - cbn [bind] in H. bind_inv H. injection H as <-.
    cbn [compressedSize]. apply raw_ok in Ec. lia.
Qed.

Lemma terminates_readLocalFile dv offset :
  terminates (Zip.readLocalFile dv offset).
Proof.
  unfold Zip.readLocalFile, DataView.getUint32, DataView.getUint16.
  do 5 step_bind.
  apply terminates_bind.
  - destruct ((v =? 4294967295) && (v0 =? 4294967295));
      [| apply terminates_Ok].
    apply terminates_bind.
    + apply zip64_field_fuel. apply raw_ok in E2. lia.
    + intros [[u c] |] _; [apply terminates_Ok | discriminate].
  - intros [c u] _. do 9 step_bind. apply terminates_Ok.
Qed.

Lemma scan_ge n : forall dv a, a <= Zip.scan n dv a.
Proof.
  induction n as [| n IH]; intros dv a; cbn [Zip.scan];
    destruct (a + 20 <=? byteLength dv); try lia.
  destruct (Zip.descriptor_at dv a); [lia |].
  specialize (IH dv (a + 1)). lia.
Qed.


(** The forward scan on [n] steps leaves its loop as the source does: at a
    position too close to the end, or 4 past a recognised descriptor. *)
Lemma scan_exit n : forall dv a,
  byteLength dv - a <= Z.of_nat n + 19 ->
  byteLength dv < Zip.scan n dv a + 20
  \/ Zip.descriptor_at dv (Zip.scan n dv a - 4) = true.
Proof.
  induction n as [| n IH]; intros dv a Hn; cbn [Zip.scan];
    destruct (Z.leb_spec (a + 20) (byteLength dv)); try (left; lia).
  destruct (Zip.descriptor_at dv a) eqn:Hat.
  - right. replace (a + 4 - 4) with a by lia. exact Hat.
  - apply IH. lia.
Qed.

(** The local-file branch moves the cursor forward and keeps the buffer. *)
Lemma local_file_progress z z' :
  Zip.local_file z = Ok z' ->
  Zip.dataView z' = Zip.dataView z
  /\ Zip.endOfCentralDirectory z' = Zip.endOfCentralDirectory z
  /\ Zip.index z < Zip.index z'.
Proof.
  unfold Zip.local_file. intros H.
  destruct (Zip.readLocalFile (Zip.dataView z) (Zip.index z)) as [e |] eqn:He;
    cbn [bind] in H; [| discriminate].
  apply readLocalFile_sizes in He as (Hf & Hx & Hc).
  destruct ((compressedSize e =? 0)
            && negb (Z.land (generalPurpose e) 8 =? 0)).
  - bind_inv H. injection H as <-. cbn [Zip.push_local Zip.dataView
      Zip.endOfCentralDirectory Zip.index].
    repeat split.
    pose proof (scan_ge (length (Zip.dataView z)) (Zip.dataView z)
                  (Zip.index z + 30 + fileNameLength e + extraLength e)).
    lia.
  - injection H as <-. cbn [Zip.push_local Zip.dataView
      Zip.endOfCentralDirectory Zip.index].
    repeat split. lia.
Qed.

Lemma terminates_local_file z : terminates (Zip.local_file z).
Proof.
  unfold Zip.local_file. apply terminates_bind.
  - apply terminates_readLocalFile.
  - intros e _.
    destruct ((compressedSize e =? 0)
              && negb (Z.land (generalPurpose e) 8 =? 0));
      [| apply terminates_Ok].
    unfold DataView.getUint32. do 3 step_bind. apply terminates_Ok.
Qed.

Lemma readCentralDirectory_sizes dv offset e :
  Zip.readCentralDirectory dv offset = Ok e ->
  0 <= cd_fileNameLength e /\ 0 <= cd_extraLength e
  /\ 0 <= fileCommentLength e.
Proof.
  unfold Zip.readCentralDirectory. intros H. bind_inv H.
  injection H as <-.
  cbn [cd_fileNameLength cd_extraLength fileCommentLength].
  unfold DataView.getUint32, DataView.getUint16 in *.
  repeat match goal with
         | E : DataView.raw _ _ _ _ = Ok _ |- _ => apply raw_ok in E
         end.
  lia.
Qed.

Lemma terminates_readCentralDirectory dv offset :
  terminates (Zip.readCentralDirectory dv offset).
Proof.
  unfold Zip.readCentralDirectory, DataView.getUint32, DataView.getUint16.
  do 10 step_bind. apply terminates_Ok.
Qed.

Lemma terminates_readEnd dv offset :
  terminates (Zip.readEndCentralDirectory dv offset).
Proof.
  unfold Zip.readEndCentralDirectory, DataView.getUint32, DataView.getUint16.
  do 8 step_bind. apply terminates_Ok.
Qed.

Lemma terminates_readEnd64 dv offset :
  terminates (Zip.readEndCentralDirectory64 dv offset).
Proof.
  unfold Zip.readEndCentralDirectory64, DataView.getUint32,
    DataView.getBigUint64.
  do 7 step_bind. apply terminates_Ok.
Qed.

(** [read] on fuel of at least the bytes left never spends it. *)
Lemma read_fuel fuel : forall z,
  byteLength (Zip.dataView z) - Zip.index z <= Z.of_nat fuel ->
  terminates (Zip.read fuel z).
Proof.
  induction fuel as [| fuel IH]; intros z Hfuel.
  - cbn [Zip.read].
    destruct (Z.ltb_spec (Zip.index z) (byteLength (Zip.dataView z)));
      [lia |].
    rewrite andb_false_r. apply terminates_Ok.
  - rewrite read_step.
    destruct (_ && _); [| apply terminates_Ok]. cbv zeta.
    unfold DataView.getUint32 at 1. step_bind.
    destruct (v =? Zip.SIG_LOCAL).
    { apply terminates_bind; [apply terminates_local_file |].
      intros z' Hz'. apply local_file_progress in Hz' as (Hdv & _ & Hidx).
      apply IH. rewrite Hdv. lia. }
    destruct (v =? Zip.SIG_CENTRAL).
    { apply terminates_bind; [apply terminates_readCentralDirectory |].
      intros e He. apply readCentralDirectory_sizes in He as (? & ? & ?).
      apply IH. cbn [Zip.push_central Zip.dataView Zip.index]. lia. }
    destruct (v =? Zip.SIG_END).
    { apply terminates_bind; [apply terminates_readEnd |].
      intros; apply terminates_Ok. }
    destruct (v =? Zip.SIG_END64).
    { apply terminates_bind; [apply terminates_readEnd64 |].
      intros; apply terminates_Ok. }
    apply terminates_Ok.
Qed.

(** [new Zip(buffer)] returns or raises an exception of the source. *)
Lemma terminates_new buffer : terminates (Zip.new buffer).
Proof.
  unfold Zip.new. apply read_fuel.
  cbn [Zip.init Zip.dataView Zip.index]. unfold byteLength. lia.
Qed.

(** C2, as the specification states it, fails: after one stored entry the
    cursor is on four zero bytes, no signature the reader recognises, and
    the archive is returned without an error, with the entry found. *)
Lemma C2_counterexample :
  DataView.getUint32 Vec.zip_garbage 32 true = Ok 0
  /\ recognised 0 = false
  /\ (forall e, Zip.new Vec.zip_garbage <> Throw e)
  /\ exists z, Zip.new Vec.zip_garbage = Ok z
               /\ Zip.index z = 32
               /\ map fileName (Zip.entries z) = [Text.str "a"]
               /\ Zip.console z = [ZIP_unexpected_signature 0 32].
Proof.
  split; [reflexivity |]. split; [reflexivity |].
  split; [intros e; vm_compute; discriminate |].
  eexists. split; [vm_compute; reflexivity |]. repeat split.
Qed.

(** C2, amended.  When the scan of the archive meets, at its cursor, a
    32-bit value that is none of the four signatures it recognises, it
    reports the value on the console and stops: no exception is raised, and
    the reader keeps the entries found so far, its cursor on the value. *)
Theorem C2_unrecognised_signature_stops fuel z signature :
  Zip.endOfCentralDirectory z = None ->
  Zip.index z < byteLength (Zip.dataView z) ->
  DataView.getUint32 (Zip.dataView z) (Zip.index z) true = Ok signature ->
  recognised signature = false ->
  exists z',
    Zip.read (S fuel) z = Ok z'
    /\ Zip.entries z' = Zip.entries z
    /\ Zip.index z' = Zip.index z
    /\ Zip.endOfCentralDirectory z' = None
    /\ Zip.console z' =
         Zip.console z ++ [ZIP_unexpected_signature signature (Zip.index z)].
Proof.
  intros Hend Hindex Hsig Hrec.
  exists (Zip.console_error z
            (ZIP_unexpected_signature signature (Zip.index z))).
  split; [| repeat split; [exact Hend]].
  rewrite read_step, Hend.
  destruct (Z.ltb_spec (Zip.index z) (byteLength (Zip.dataView z)));
    [| lia].
  cbn [andb]. cbv zeta. rewrite Hsig. cbn [bind].
  unfold recognised in Hrec.
  apply orb_false_iff in Hrec as [Hrec H4].
  apply orb_false_iff in Hrec as [Hrec H3].
  apply orb_false_iff in Hrec as [H1 H2].
  rewrite H1, H2, H3, H4. reflexivity.
Qed.

Lemma C2_unrecognised_signature_stops_witness :
  exists z',
    Zip.read 1 (Zip.init [x00; x00; x00; x00]) = Ok z'
    /\ Zip.entries z' = []
    /\ Zip.index z' = 0
    /\ Zip.endOfCentralDirectory z' = None
    /\ Zip.console z' = [ZIP_unexpected_signature 0 0].
Proof.
  apply (C2_unrecognised_signature_stops 0
           (Zip.init [x00; x00; x00; x00]) 0);
    reflexivity.
Defined.




(** *** The fence post and the attribute arrays *)

(** C1.  The fence-post invariant fails on decoder outputs.  readTCK on a
    file of two streamlines (two vertices, then one) returns the offsets
    [[2; 3]] for 3 vertices: the first offset is not 0.  readTRX on an
    archive of one streamline of one vertex returns the offsets [[0]]: the
    last offset is not the number of vertices, the entry written past the
    end of the array being dropped. *)
Theorem C1_fence_post_broken :
  (exists t, Tck.readTCK Vec.tck_two = Ok t
             /\ tck_offsetPt0 t = [2; 3]
             /\ length (tck_pts t) = 9%nat
             /\ fence_post (tck_pts t) (tck_offsetPt0 t) = false)
  /\ (exists t, Trx.readTRX no_decompress _ json_text Vec.trx_one = Ok t
                /\ trx_offsetPt0 t = [0]
                /\ length (trx_pts t) = 3%nat
                /\ fence_post (trx_pts t) (trx_offsetPt0 t) = false).
Proof.
  split; eexists; (split; [vm_compute; reflexivity |]);
    repeat split; vm_compute; reflexivity.
Qed.

(** C5.  The lengths of attribute arrays on decoder outputs.  readTRK on
    one record of one vertex with one property returns a per-streamline
    array of 1 value with an offsets array of length 1, which is not
    [offsetPt0.length - 1]; readTRX on an archive of one streamline of one
    vertex returns a per-streamline array of 1 value with an offsets array
    of length 1 as well, while its per-vertex array has [pts.length / 3]
    values. *)
Theorem C5_attribute_lengths :
  (forall decompress,
     exists t w, Trk.readTRK decompress Vec.trk_one_property = Ok (t, w)
       /\ map (fun a => length (vals a)) (trk_dps t) = [1%nat]
       /\ length (trk_offsetPt0 t) = 1%nat
       /\ forallb (per_streamline_ok (trk_offsetPt0 t)) (trk_dps t) = false)
  /\ (exists t, Trx.readTRX no_decompress _ json_text Vec.trx_one = Ok t
        /\ map (fun a => length (vals a)) (trx_dps t) = [1%nat]
        /\ length (trx_offsetPt0 t) = 1%nat
        /\ forallb (per_streamline_ok (trx_offsetPt0 t)) (trx_dps t) = false
        /\ forallb (per_vertex_ok (trx_pts t)) (trx_dpv t) = true).
Proof.
  split; [intros decompress; do 2 eexists | eexists];
    (split; [vm_compute; reflexivity |]);
    repeat split; vm_compute; reflexivity.
Qed.

(** *** readVTK *)

(** readVTK does the same. *)
Lemma readVTK_too_small buffer :
  byteLength buffer < 20 ->
  Vtk.readVTK buffer = Throw (VTK_too_small (byteLength buffer)).
Proof.
  intros H. unfold Vtk.readVTK.
  destruct (Z.ltb_spec (byteLength buffer) 20) as [_ | Hge]; [reflexivity | lia].
Qed.

(** C9.  readVTK, standard LINES branch, on a file of one point and one
    line whose only vertex index is -1: no error is raised; the three
    coordinates read outside the point table are [undefined] and come back
    as NaN.  The index past the end, 1, is the one that is refused. *)
Theorem C9_readVTK_negative_index :
  Vtk.readVTK (Vec.vtk_one (-1)) =
    Ok ({| vtk_pts := [NaN; NaN; NaN]; vtk_offsetPt0 := [0; 1] |}, [])
  /\ Vtk.readVTK (Vec.vtk_one 1) = Throw (VTK_index_out_of_bounds 3 3).
Proof. split; vm_compute; reflexivity. Qed.

(** *** readTT *)

Lemma ta_length_le track : ta_length track <= byteLength (ta_buffer track).
Proof.
  unfold ta_length.
  assert (0 <= byteLength (ta_buffer track)) by (unfold byteLength; lia).
  assert (1 <= Z.of_nat (BYTES_PER_ELEMENT (ta_kind track)))
    by (destruct (ta_kind track); cbn; lia).
  apply Z.div_le_upper_bound; nia.
Qed.

Lemma tt_scan_fuel fuel : forall dv len i acc n,
  len <= byteLength dv -> byteLength dv - i <= Z.of_nat fuel ->
  terminates (Tt.scan fuel dv len i acc n).
Proof.
  induction fuel as [| fuel IH]; intros dv len i acc n Hlen Hfuel;
    cbn [Tt.scan]; destruct (Z.ltb_spec i len);
    try apply terminates_Ok; [lia |].
  unfold DataView.getUint32. step_bind.
  apply raw_ok in E. apply IH; lia.
Qed.

Lemma scan_records fuel : forall dv len i acc n pos n',
  Tt.scan fuel dv len i acc n = Ok (pos, n') ->
  exists starts sizes,
    pos = acc ++ starts /\ records_from dv len i starts sizes
    /\ n' = n + total sizes /\ Forall (fun s => 0 <= s) sizes.
Proof.
  induction fuel as [| fuel IH]; intros dv len i acc n pos n' H;
    cbn [Tt.scan] in H; destruct (Z.ltb_spec i len).
  - discriminate.
  - injection H as <- <-. exists [], []. rewrite app_nil_r.
    cbn [records_from total fold_right].
    repeat split; [assumption | lia | constructor].
  - destruct (DataView.getUint32 dv i true) as [size | e] eqn:Hsize;
      cbn [bind] in H; [| discriminate].
    apply IH in H as (starts & sizes & -> & Hrec & -> & Hs).
    exists (i :: starts), (size :: sizes). rewrite <- app_assoc.
    cbn [records_from total fold_right app]. fold (total sizes).
    pose proof (raw_ok dv i 4 true size Hsize) as [_ Hs0].
    repeat split; try assumption; try lia. constructor; assumption.
  - injection H as <- <-. exists [], []. rewrite app_nil_r.
    cbn [records_from total fold_right].
    repeat split; [assumption | lia | constructor].
Qed.

Lemma records_scan fuel : forall dv len i acc n starts sizes,
  records_from dv len i starts sizes ->
  len <= byteLength dv -> byteLength dv - i <= Z.of_nat fuel ->
  Tt.scan fuel dv len i acc n = Ok (acc ++ starts, n + total sizes).
Proof.
  induction fuel as [| fuel IH]; intros dv len i acc n starts sizes Hrec
    Hlen Hfuel; cbn [Tt.scan]; destruct (Z.ltb_spec i len);
    try lia;
    try (destruct starts as [| p starts], sizes as [| size sizes];
         cbn [records_from] in Hrec; try contradiction;
         [ rewrite app_nil_r; cbn [total fold_right]; rewrite Z.add_0_r;
           reflexivity
         | exfalso; lia ]).
  destruct starts as [| p starts], sizes as [| size sizes];
    cbn [records_from] in Hrec; try contradiction; [exfalso; lia |].
  destruct Hrec as (-> & _ & Hsize & Hrec).
  rewrite Hsize. cbn [bind].
  pose proof (raw_ok dv i 4 true size Hsize) as [_ Hs0].
  rewrite (IH dv len (i + size + 13) (acc ++ [i]) (n + size) starts sizes)
    by (try assumption; lia).
  rewrite <- app_assoc. cbn [app total fold_right]. fold (total sizes).
  do 2 f_equal. lia.
Qed.

(** C8.  In the track of a TT file every record occupies [size + 13]
    bytes, [size] being its leading little-endian uint32.  The scan of the
    track ends (with the record starts or a [RangeError]).  The starts it
    returns are those of the records laid one after the other from 0 up to
    the length of the track, each [size + 13] past the one before, and the
    count it returns is the sum of their size fields; a track that
    consists of such records is scanned to its end.  The track of one
    record with size 3 and first point (32, 64, 96), read with the identity
    as [trans_to_mni], gives one streamline, offsets [[0; 1]], whose single
    point is (1, 2, 3); readTT gives the same on the file holding that
    track. *)
Theorem C8_readTT_records :
  (forall track,
     terminates (Tt.scan (length (ta_buffer track)) (ta_buffer track)
                   (ta_length track) 0 [] 0))
  /\ (forall track pos nvert3,
        Tt.scan (length (ta_buffer track)) (ta_buffer track)
          (ta_length track) 0 [] 0 = Ok (pos, nvert3) ->
        exists sizes,
          records_from (ta_buffer track) (ta_length track) 0 pos sizes
          /\ nvert3 = total sizes)
  /\ (forall track starts sizes,
        records_from (ta_buffer track) (ta_length track) 0 starts sizes ->
        Tt.scan (length (ta_buffer track)) (ta_buffer track)
          (ta_length track) 0 [] 0 = Ok (starts, total sizes))
  /\ Tt.parse_tt mat4.identity Vec.tt_track =
       Ok {| tt_pts := [of_Z 1; of_Z 2; of_Z 3]; tt_offsetPt0 := [0; 1] |}
  /\ Tt.readTT no_decompress Vec.tt_file =
       Ok {| tt_pts := [of_Z 1; of_Z 2; of_Z 3]; tt_offsetPt0 := [0; 1] |}.
Proof.
  split; [| split; [| split; [| split; vm_compute; reflexivity]]].
  - intros track. apply tt_scan_fuel; [apply ta_length_le |].
    unfold byteLength. lia.
  - intros track pos nvert3 H.
    apply scan_records in H as (starts & sizes & -> & Hrec & -> & _).
    exists sizes. split; [exact Hrec | reflexivity].
  - intros track starts sizes Hrec.
    apply (records_scan _ _ _ 0 [] 0 starts sizes Hrec);
      [apply ta_length_le | unfold byteLength; lia].
Qed.

Lemma C8_readTT_records_witness :
  Tt.scan (length (ta_buffer Vec.tt_track2)) (ta_buffer Vec.tt_track2)
    (ta_length Vec.tt_track2) 0 [] 0 = Ok ([0; 19], total [6; 3])
  /\ exists sizes,
       records_from (ta_buffer Vec.tt_track2) (ta_length Vec.tt_track2) 0
         [0; 19] sizes
       /\ 9 = total sizes.
Proof.
  split.
  - apply (proj1 (proj2 (proj2 C8_readTT_records)) Vec.tt_track2
             [0; 19] [6; 3]).
    cbn [records_from].
    repeat split; try reflexivity; vm_compute; discriminate.
  - apply (proj1 (proj2 C8_readTT_records) Vec.tt_track2 [0; 19] 9).
    reflexivity.
Defined.

(* ===================================================================== *)
(** ** Further properties *)
(* ===================================================================== *)

(** *** Half-precision expansion *)

Lemma number_eqb_eq a b : number_eqb a b = true -> a = b.
Proof.
  destruct a as [s | s | | s m e], b as [t | t | | t n f]; cbn [number_eqb];
    try discriminate; try reflexivity.
  - intros H. apply Bool.eqb_prop in H. congruence.
  - intros H. apply Bool.eqb_prop in H. congruence.
  - intros H. apply andb_true_iff in H as [H He].
    apply andb_true_iff in H as [Hs Hm].
    apply Bool.eqb_prop in Hs. apply Pos.eqb_eq in Hm. apply Z.eqb_eq in He.
    congruence.
Qed.

Lemma all_below_iter P n :
  let r := Pos.iter (fun '(k, acc) => (k + 1, acc && P k)) (0, true) n in
  fst r = Z.pos n
  /\ (snd r = true -> forall h, 0 <= h < Z.pos n -> P h = true).
Proof.
  induction n as [| n IH] using Pos.peano_ind; cbv zeta.
  - cbn. split; [reflexivity |]. intros H h Hh.
    assert (h = 0) as -> by lia.
    destruct (P 0); [reflexivity | discriminate].
  - rewrite Pos.iter_succ. cbv zeta in IH.
    destruct (Pos.iter _ (0, true) n) as [k acc]. cbn [fst snd] in *.
    destruct IH as [-> IH]. split; [lia |].
    intros H h Hh. apply andb_true_iff in H as [Hacc HP].
    destruct (Z.eq_dec h (Z.pos n)) as [-> | Hne]; [exact HP |].
    apply IH; [exact Hacc | lia].
Qed.

Lemma all_below_spec P n :
  all_below n P = true -> forall h, 0 <= h < Z.pos n -> P h = true.
Proof. intros H. apply (all_below_iter P n). exact H. Qed.

(** [decodeFloat16] is exact.  For every 16-bit pattern the value computed
    with [Math.pow], a division, an addition and two multiplications of
    numbers is the value IEEE 754 gives the pattern, and it is a binary32
    value: storing it in the [Float32Array] lookup table rounds nothing. *)
Theorem decodeFloat16_exact h :
  0 <= h < 65536 ->
  Trx.decodeFloat16 h = half_value h
  /\ fround (Trx.decodeFloat16 h) = Trx.decodeFloat16 h.
Proof.
  intros Hh.
  assert (Hall : all_below 65536
            (fun h => let v := Trx.decodeFloat16 h in
                      number_eqb v (half_value h)
                      && number_eqb (fround v) v) = true)
    by (vm_compute; reflexivity).
  pose proof (all_below_spec _ _ Hall h Hh) as H. cbv zeta in H.
  apply andb_true_iff in H as [H1 H2].
  split; apply number_eqb_eq; assumption.
Qed.

Lemma decodeFloat16_exact_witness :
  Trx.decodeFloat16 0x3C00 = half_value 0x3C00
  /\ fround (Trx.decodeFloat16 0x3C00) = Trx.decodeFloat16 0x3C00.
Proof. apply (decodeFloat16_exact 0x3C00). lia. Defined.

(** *** readTCK: the shape of the output *)

Lemma slice_take {A} (l : list A) n :
  0 <= n -> slice l 0 n = take (Z.to_nat n) l.
Proof.
  intros Hn. unfold slice.
  destruct (Z.ltb_spec n 0); [exfalso; lia |]. cbn [Z.ltb Z.compare].
  rewrite (Z.min_l 0) by lia. rewrite Z.sub_0_r.
  change (Z.to_nat 0) with O. rewrite drop_0.
  destruct (Z.le_gt_cases n (Z.of_nat (length l))).
  - rewrite Z.min_l by lia. reflexivity.
  - rewrite Z.min_r by lia. rewrite Nat2Z.id.
    rewrite !take_ge by lia. reflexivity.
Qed.

Lemma length_ta_set {A} (a : list A) i v : length (ta_set a i v) = length a.
Proof. unfold ta_set. destruct (i <? 0); [reflexivity | apply length_insert]. Qed.

(** Writing at the current end of the filled part of an over-provisioned
    array extends the filled part by the value, unless the array is full. *)
Lemma take_ta_set_next {A} (a : list A) n v :
  0 <= n ->
  take (Z.to_nat (n + 1)) (ta_set a n v) =
    if (Z.to_nat n <? length a)%nat then take (Z.to_nat n) a ++ [v]
    else take (Z.to_nat n) a.
Proof.
  intros Hn. unfold ta_set. destruct (Z.ltb_spec n 0); [exfalso; lia |].
  replace (Z.to_nat (n + 1)) with (S (Z.to_nat n)) by lia.
  destruct (Nat.ltb_spec (Z.to_nat n) (length a)) as [Hlt | Hge].
  - rewrite (take_S_r _ _ v) by (apply list_lookup_insert_eq; exact Hlt).
    rewrite take_insert_ge by lia. reflexivity.
  - rewrite list_insert_ge by lia. rewrite !take_ge by lia. reflexivity.
Qed.

Lemma nondecreasing_snoc l v :
  nondecreasing l = true -> Forall (fun o => o <= v) l ->
  nondecreasing (l ++ [v]) = true.
Proof.
  induction l as [| a l IH]; intros Hnd Hle; [reflexivity |].
  destruct l as [| b l].
  - cbn. apply Forall_inv in Hle. rewrite andb_true_r. apply Z.leb_le. exact Hle.
  - cbn [app nondecreasing] in *. apply andb_true_iff in Hnd as [Hab Hnd].
    rewrite Hab. cbn [andb]. apply IH; [exact Hnd |].
    apply Forall_inv_tail in Hle. exact Hle.
Qed.

Lemma body_inv fuel : forall buffer st st',
  byteLength buffer < 2 ^ 32 ->
  tck_inv (byteLength buffer) st ->
  Tck.body fuel buffer st = Ok st' ->
  tck_inv (byteLength buffer) st'.
Proof.
  induction fuel as [| fuel IH]; intros buffer st st' Hlen Hinv H;
    cbn [Tck.body] in H.
  { destruct (Tck.pos st + 12 <? byteLength buffer); [discriminate |].
    injection H as <-. exact Hinv. }
  destruct (Z.ltb_spec (Tck.pos st + 12) (byteLength buffer)) as [Hpos | Hpos].
  2: { injection H as <-. exact Hinv. }
  destruct (DataView.getFloat32 buffer (Tck.pos st) true) as [ptx |];
    cbn [bind] in H; [| discriminate].
  destruct (DataView.getFloat32 buffer (Tck.pos st + 4) true) as [pty |];
    cbn [bind] in H; [| discriminate].
  destruct (DataView.getFloat32 buffer (Tck.pos st + 8) true) as [ptz |];
    cbn [bind] in H; [| discriminate].
  destruct Hinv as (Hnpt & Hnpt3 & Hnoff & Hp & Hl & Hpts & Hnd & Hall).
  assert (Hu : ToUint32 (Tck.npt st) = Tck.npt st).
  { unfold ToUint32. apply Z.mod_small. lia. }
  assert (Hstep :
    tck_inv (byteLength buffer)
      {| Tck.pos := Tck.pos st + 12; Tck.npt := Tck.npt st;
         Tck.noffset := Tck.noffset st + 1; Tck.npt3 := Tck.npt3 st;
         Tck.pts := Tck.pts st;
         Tck.offsetPt0 := ta_set (Tck.offsetPt0 st) (Tck.noffset st)
                            (ToUint32 (Tck.npt st)) |}).
  { unfold tck_inv. cbn [Tck.pos Tck.npt Tck.noffset Tck.npt3 Tck.pts
      Tck.offsetPt0]. rewrite Hu.
    split; [lia |]. split; [lia |]. split; [lia |]. split; [lia |].
    split; [lia |]. split; [exact Hpts |].
    rewrite take_ta_set_next by exact Hnoff.
    destruct (_ <? _)%nat; [| split; assumption].
    split.
    - apply nondecreasing_snoc; [exact Hnd |].
      eapply Forall_impl; [exact Hall |]. cbv beta. lia.
    - apply Forall_app. split; [exact Hall |].
      apply Forall_singleton. lia. }
  destruct (negb (isFinite ptx)).
  - destruct (negb (isNaN ptx)).
    + injection H as <-. exact Hstep.
    + eapply IH; [exact Hlen | exact Hstep | exact H].
  - eapply IH; [exact Hlen | | exact H].
    unfold tck_inv. cbn [Tck.pos Tck.npt Tck.noffset Tck.npt3 Tck.pts
      Tck.offsetPt0].
    rewrite !length_ta_set.
    split; [lia |]. split; [lia |]. split; [lia |]. split; [lia |].
    split; [lia |]. split; [exact Hpts |].
    split; [exact Hnd |].
    eapply Forall_impl; [exact Hall |]. cbv beta. lia.
Qed.

(** Whatever the input, a tractogram readTCK returns has whole vertices
    (the length of [pts] is a multiple of 3), and its offsets do not
    decrease and never pass the number of vertices. *)
Theorem readTCK_output_shape buffer t :
  byteLength buffer < 2 ^ 32 ->
  Tck.readTCK buffer = Ok t ->
  Z.of_nat (length (tck_pts t)) mod 3 = 0
  /\ nondecreasing (tck_offsetPt0 t) = true
  /\ Forall (fun o => 0 <= o /\ 3 * o <= Z.of_nat (length (tck_pts t)))
       (tck_offsetPt0 t).
Proof.
  intros Hlen H. unfold Tck.readTCK in H.
  destruct (byteLength buffer <? 20); [discriminate |].
  destruct (Tck.readStr buffer 0) as [line pos].
  destruct (negb _); [discriminate |].
  destruct (Tck.header _ _ _ _ _) as [offset |]; cbn [bind] in H;
    [| discriminate].
  destruct (nan_ltb offset 20) eqn:Hoff; [discriminate |].
  set (st0 p := {| Tck.pos := p; Tck.npt := 0; Tck.noffset := 0;
                   Tck.npt3 := 0;
                   Tck.pts := new_Float32Array (byteLength buffer / 4);
                   Tck.offsetPt0 :=
                     ta_set (new_Uint32Array (byteLength buffer / 16)) 0 0 |})
    in H.
  assert (Hinv0 : forall p, 0 <= p -> tck_inv (byteLength buffer) (st0 p)).
  { intros p Hp. unfold tck_inv, st0.
    cbn [Tck.pos Tck.npt Tck.noffset Tck.npt3 Tck.pts Tck.offsetPt0].
    unfold byteLength, new_Float32Array.
    rewrite length_replicate. cbn [Z.to_nat take nondecreasing].
    repeat (split; [lia || reflexivity |]). constructor. }
  assert (Hst : exists st, tck_inv (byteLength buffer) st
                           /\ t = {| tck_pts := slice (Tck.pts st) 0 (Tck.npt3 st);
                                     tck_offsetPt0 :=
                                       slice (Tck.offsetPt0 st) 0 (Tck.noffset st) |}).
  { destruct offset as [p |].
    - destruct (Tck.body _ _ _) as [st |] eqn:Hbody; cbn [bind] in H;
        [| discriminate].
      exists st. split; [| injection H as <-; reflexivity].
      eapply body_inv; [exact Hlen | | exact Hbody].
      apply Hinv0. cbn [nan_ltb] in Hoff. apply Z.ltb_ge in Hoff. lia.
    - cbn [bind] in H. exists (st0 0).
      split; [apply Hinv0; lia | injection H as <-; reflexivity]. }
  destruct Hst as (st & (Hnpt & Hnpt3 & Hnoff & Hp & Hl & Hpts & Hnd & Hall) & ->).
  cbn [tck_pts tck_offsetPt0].
  rewrite !slice_take by lia.
  assert (Hcap : 3 * Tck.npt st <= byteLength buffer / 4).
  { apply Z.div_le_lower_bound; lia. }
  rewrite length_take, Hpts, Hnpt3.
  replace (Z.of_nat (Z.to_nat (3 * Tck.npt st) `min` Z.to_nat (byteLength buffer / 4)))
    with (3 * Tck.npt st) by lia.
  split; [rewrite Z.mul_comm; apply Z.mod_mul; lia |].
  split; [exact Hnd |].
  eapply Forall_impl; [exact Hall |]. cbv beta. lia.
Qed.

Lemma readTCK_output_shape_witness :
  Z.of_nat (length [of_Z 1; of_Z 2; of_Z 3]) mod 3 = 0
  /\ nondecreasing [1] = true
  /\ Forall (fun o => 0 <= o /\ 3 * o <= Z.of_nat (length [of_Z 1; of_Z 2; of_Z 3])) [1].
Proof.
  apply (readTCK_output_shape Vec.tck_one
           {| tck_pts := [of_Z 1; of_Z 2; of_Z 3]; tck_offsetPt0 := [1] |});
    [reflexivity | vm_compute; reflexivity].
Defined.

(** *** readTRK: the attribute arrays are aligned *)












(** *** readTRK: compressed input, empty and ragged bodies *)

Lemma raw_in_bounds dv pos n le :
  0 <= pos -> pos + n <= byteLength dv ->
  exists v, DataView.raw dv pos n le = Ok v.
Proof.
  intros H0 Hn. unfold DataView.raw, DataView.bytes_at.
  destruct (Z.leb_spec 0 pos); [| exfalso; lia].
  destruct (Z.leb_spec (pos + n) (byteLength dv)); [| exfalso; lia].
  cbn [andb bind]. eexists. reflexivity.
Qed.

Lemma raw_bound dv pos n le v :
  DataView.raw dv pos n le = Ok v -> 0 <= pos /\ pos + n <= byteLength dv.
Proof.
  unfold DataView.raw, DataView.bytes_at. intros H.
  destruct (Z.leb_spec 0 pos); [| discriminate].
  destruct (Z.leb_spec (pos + n) (byteLength dv)); [| discriminate].
  split; assumption.
Qed.

Lemma getInt16_in_bounds dv pos le :
  0 <= pos -> pos + 2 <= byteLength dv ->
  exists v, DataView.getInt16 dv pos le = Ok v.
Proof.
  intros H0 Hn. unfold DataView.getInt16.
  destruct (raw_in_bounds dv pos 2 le H0 Hn) as [v ->]. cbn [bind].
  eexists. reflexivity.
Qed.

Lemma getFloat32_in_bounds dv pos le :
  0 <= pos -> pos + 4 <= byteLength dv ->
  exists v, DataView.getFloat32 dv pos le = Ok v.
Proof.
  intros H0 Hn. unfold DataView.getFloat32.
  destruct (raw_in_bounds dv pos 4 le H0 Hn) as [v ->]. cbn [bind].
  eexists. reflexivity.
Qed.

Lemma read_matrix_in_bounds dv ks :
  Forall (fun k => 440 + Z.of_nat k * 4 + 4 <= byteLength dv) ks ->
  exists vs,
    fold_right (fun k acc =>
                  let* v := DataView.getFloat32 dv (440 + Z.of_nat k * 4) true in
                  let* vs := acc in
                  Ok (v :: vs))
               (Ok []) ks = Ok vs.
Proof.
  induction ks as [| k ks IH]; intros H; cbn [fold_right].
  - eexists. reflexivity.
  - apply Forall_cons_1 in H as [Hk Hks].
    destruct (getFloat32_in_bounds dv (440 + Z.of_nat k * 4) true) as [v ->];
      [lia | lia |].
    destruct (IH Hks) as [vs ->]. cbn [bind]. eexists. reflexivity.
Qed.

Lemma byteLength_slice_from (l : list byte) a :
  0 <= a <= byteLength l ->
  byteLength (slice l a (byteLength l)) = byteLength l - a.
Proof.
  intros Ha. unfold byteLength in *. rewrite slice_within by lia.
  rewrite length_take, length_drop. lia.
Qed.

(** A compressed TRK file decodes as its decompressed content: when the
    buffer does not begin with "TRAC" (nor with the zstd magic) and the
    decompressor returns a buffer that does, readTRK gives what it gives on
    that buffer. *)
Theorem readTRK_compressed decompress buffer raw magic :
  DataView.getUint32 buffer 0 true = Ok magic ->
  magic <> Trk.TRAC -> magic <> 4247762216 ->
  decompress buffer = Ok raw ->
  DataView.getUint32 raw 0 true = Ok Trk.TRAC ->
  Trk.readTRK decompress buffer = Trk.readTRK decompress raw.
Proof.
  intros Hmagic Hne Hz Hdec Hraw. unfold Trk.readTRK.
  rewrite Hmagic, Hraw. cbn [bind].
  destruct (Z.eqb_spec magic Trk.TRAC); [contradiction |].
  destruct (Z.eqb_spec magic 4247762216); [contradiction |].
  cbn [negb]. rewrite Hdec. cbn [bind]. rewrite Hraw. cbn [bind].
  rewrite Z.eqb_refl. cbn [negb bind]. reflexivity.
Qed.

Lemma readTRK_compressed_witness :
  Trk.readTRK (fun _ => Ok Vec.trk_one) [x1f; x8b; x08; x00] =
  Trk.readTRK (fun _ => Ok Vec.trk_one) Vec.trk_one.
Proof.
  apply (readTRK_compressed (fun _ => Ok Vec.trk_one) [x1f; x8b; x08; x00]
           Vec.trk_one 559903);
    [reflexivity | vm_compute; discriminate | vm_compute; discriminate
    | reflexivity | reflexivity].
Defined.

(** A TRK buffer with a valid header and nothing after it is refused as
    empty; one whose body is not a whole number of 32-bit words is refused
    by the runtime with a [RangeError], the [Int32Array] over the body not
    being constructible. *)
Theorem readTRK_body_edges decompress buffer vers :
  DataView.getUint32 buffer 0 true = Ok Trk.TRAC ->
  DataView.getUint32 buffer 992 true = Ok vers -> vers <= 2 ->
  DataView.getUint32 buffer 996 true = Ok 1000 ->
  (byteLength buffer = 1000 ->
   Trk.readTRK decompress buffer = Throw TRK_empty)
  /\ (byteLength buffer mod 4 <> 0 ->
      Trk.readTRK decompress buffer = Throw RangeError).
Proof.
  intros Hmagic Hvers Hv2 Hsz.
  assert (Hlen : 1000 <= byteLength buffer).
  { apply raw_bound in Hsz. lia. }
  assert (Hnil : byteLength buffer = 1000 ->
                 slice buffer 1000 (byteLength buffer) = []).
  { intros H. apply length_zero_iff_nil.
    pose proof (byteLength_slice_from buffer 1000 ltac:(lia)) as Hb.
    unfold byteLength in Hb at 1. lia. }
  assert (Hmod : byteLength buffer mod 4 <> 0 ->
                 ((byteLength buffer - 1000) mod 4 =? 0) = false).
  { intros H. apply Z.eqb_neq. intros E. apply H.
    replace (byteLength buffer) with ((byteLength buffer - 1000) + 250 * 4)
      by lia.
    rewrite Z.mod_add by lia. exact E. }
  split; intros H; unfold Trk.readTRK;
    rewrite Hmagic; cbn [bind]; rewrite Z.eqb_refl; cbn [negb bind];
    rewrite Hvers, Hsz; cbn [bind];
    (destruct (Z.ltb_spec 2 vers); [exfalso; lia |]);
    cbn [orb negb Z.eqb Pos.eqb];
    (destruct (getInt16_in_bounds buffer 36 true) as [ns ->]; [lia | lia |]);
    (destruct (getFloat32_in_bounds buffer 12 true) as [vx ->]; [lia | lia |]);
    (destruct (getFloat32_in_bounds buffer 16 true) as [vy ->]; [lia | lia |]);
    (destruct (getFloat32_in_bounds buffer 20 true) as [vz ->]; [lia | lia |]);
    (destruct (getInt16_in_bounds buffer 238 true) as [np ->]; [lia | lia |]);
    cbn [bind];
    (destruct (read_matrix_in_bounds buffer (seq 0 16)) as [m ->];
     [apply Forall_forall; intros k Hk; apply elem_of_seq in Hk; lia |]);
    cbn [bind]; destruct (is_zero (mat4.get m 15)); cbv zeta.
  - rewrite (Hnil H). reflexivity.
  - rewrite (Hnil H). reflexivity.
  - rewrite byteLength_slice_from by lia. rewrite (Hmod H). reflexivity.
  - rewrite byteLength_slice_from by lia. rewrite (Hmod H). reflexivity.
Qed.

Lemma readTRK_body_edges_witness :
  Trk.readTRK no_decompress (Vec.trk_header 0 0 [] []) = Throw TRK_empty
  /\ Trk.readTRK no_decompress (Vec.trk_header 0 0 [] [] ++ [x00])
     = Throw RangeError.
Proof.
  split.
  - apply (proj1 (readTRK_body_edges no_decompress
                    (Vec.trk_header 0 0 [] []) 2
                    eq_refl eq_refl ltac:(lia) eq_refl)).
    reflexivity.
  - apply (proj2 (readTRK_body_edges no_decompress
                    (Vec.trk_header 0 0 [] [] ++ [x00]) 2
                    eq_refl eq_refl ltac:(lia) eq_refl)).
    vm_compute. discriminate.
Defined.

(** *** readVTK: the vertex indices of a line *)




(** *** Bytes and positions *)

Lemma byteLength_app (a b : list byte) :
  byteLength (a ++ b) = byteLength a + byteLength b.
Proof. unfold byteLength. rewrite length_app. lia. Qed.


Lemma byte_val_of_Z z : byte_val (byte_of_Z z) = z mod 256.
Proof.
  unfold byte_val, byte_of_Z.
  assert (Hr : 0 <= z mod 256 < 256) by (apply Z.mod_pos_bound; lia).
  destruct (Byte.of_N (Z.to_N (z mod 256))) as [b |] eqn:E.
  - apply Byte.to_of_N in E. rewrite E. lia.
  - apply Byte.of_N_None_iff in E. lia.
Qed.

Lemma byte_of_Z_val b : byte_of_Z (byte_val b) = b.
Proof.
  unfold byte_of_Z, byte_val.
  pose proof (Byte.to_N_bounded b).
  rewrite Z.mod_small by lia. rewrite N2Z.id, Byte.of_to_N. reflexivity.
Qed.

Lemma length_le_bytes n v : length (le_bytes n v) = n.
Proof. unfold le_bytes. rewrite length_map, length_seq. reflexivity. Qed.

Lemma le_bytes_S n v :
  le_bytes (S n) v = byte_of_Z v :: le_bytes n (Z.shiftr v 8).
Proof.
  unfold le_bytes. cbn [seq map]. f_equal.
  rewrite <- seq_shift, map_map. apply map_ext. intros k.
  rewrite Z.shiftr_shiftr by lia. f_equal. f_equal. lia.
Qed.

Lemma le_bytes_app n : forall m v,
  le_bytes (n + m) v = le_bytes n v ++ le_bytes m (Z.shiftr v (8 * Z.of_nat n)).
Proof.
  induction n as [| n IH]; intros m v.
  - cbn [Nat.add app]. change (8 * Z.of_nat 0) with 0.
    rewrite Z.shiftr_0_r. reflexivity.
  - cbn [Nat.add]. rewrite !le_bytes_S, IH. cbn [app]. f_equal. f_equal.
    rewrite Z.shiftr_shiftr by lia. f_equal. f_equal. lia.
Qed.

(** Reading back the [n] little-endian bytes of a value gives the value,
    reduced to [8 * n] bits. *)
Lemma le_val_le_bytes n : forall v, le_val (le_bytes n v) = v mod 256 ^ Z.of_nat n.
Proof.
  induction n as [| n IH]; intros v.
  - cbn. rewrite Z.mod_1_r. reflexivity.
  - rewrite le_bytes_S. cbn [le_val fold_right]. fold (le_val (le_bytes n (Z.shiftr v 8))).
    rewrite IH, byte_val_of_Z, Z.shiftr_div_pow2 by lia.
    rewrite Nat2Z.inj_succ, Z.pow_succ_r by lia.
    change (2 ^ 8) with 256.
    rewrite (Z.rem_mul_r v 256 (256 ^ Z.of_nat n)) by lia. reflexivity.
Qed.

Lemma le_val_le_bytes_small n v :
  0 <= v < 256 ^ Z.of_nat n -> le_val (le_bytes n v) = v.
Proof. intros H. rewrite le_val_le_bytes. apply Z.mod_small. exact H. Qed.

(** A [DataView] read at [off + k] sees only the bytes from [off] on. *)
Lemma bytes_at_shift dv off k n :
  0 <= off -> 0 <= k -> 0 < n ->
  DataView.bytes_at dv (off + k) n
  = DataView.bytes_at (drop (Z.to_nat off) dv) k n.
Proof.
  intros Hoff Hk Hn. unfold DataView.bytes_at, byteLength.
  rewrite length_drop, drop_drop.
  replace (Z.to_nat off + Z.to_nat k)%nat with (Z.to_nat (off + k)) by lia.
  destruct (Z.leb_spec 0 (off + k)); [| exfalso; lia].
  destruct (Z.leb_spec 0 k); [| exfalso; lia]. cbn [andb].
  destruct (Z.leb_spec (off + k + n) (Z.of_nat (length dv)));
    destruct (Z.leb_spec (k + n) (Z.of_nat (length dv - Z.to_nat off)));
    try reflexivity; exfalso; lia.
Qed.

Lemma raw_shift dv off k n le :
  0 <= off -> 0 <= k -> 0 < n ->
  DataView.raw dv (off + k) n le
  = DataView.raw (drop (Z.to_nat off) dv) k n le.
Proof.
  intros. unfold DataView.raw. rewrite bytes_at_shift by assumption.
  reflexivity.
Qed.

Lemma readString_shift dv off k n :
  0 <= off -> 0 <= k ->
  Zip.readString dv (off + k) n
  = Zip.readString (drop (Z.to_nat off) dv) k n.
Proof.
  intros. unfold Zip.readString. destruct (Z.leb_spec n 0); [reflexivity |].
  apply bytes_at_shift; lia.
Qed.

(** A read of the first bytes of a buffer. *)
Lemma bytes_at_prefix bs more n :
  n = Z.of_nat (length bs) ->
  DataView.bytes_at (bs ++ more) 0 n = Ok bs.
Proof.
  intros ->. unfold DataView.bytes_at, byteLength. rewrite length_app.
  destruct (Z.leb_spec (0 + Z.of_nat (length bs))
              (Z.of_nat (length bs + length more))); [| exfalso; lia].
  cbn [Z.leb Z.compare andb]. rewrite Nat2Z.id.
  change (Z.to_nat 0) with O. rewrite drop_0, take_app_length. reflexivity.
Qed.

Lemma raw_prefix bs more n le :
  n = Z.of_nat (length bs) ->
  DataView.raw (bs ++ more) 0 n le
  = Ok (if le then le_val bs else be_val bs).
Proof.
  intros H. unfold DataView.raw. rewrite bytes_at_prefix by exact H.
  reflexivity.
Qed.

(** A read at a known position of a buffer given by its parts. *)
Lemma raw_at pre bs more n le :
  n = Z.of_nat (length bs) -> 0 < n ->
  DataView.raw (pre ++ bs ++ more) (Z.of_nat (length pre)) n le
  = Ok (if le then le_val bs else be_val bs).
Proof.
  intros Hn Hpos.
  rewrite <- (Z.add_0_r (Z.of_nat (length pre))).
  rewrite raw_shift by lia. rewrite Nat2Z.id, drop_app_length.
  apply raw_prefix. exact Hn.
Qed.

(** Arrays of 32-bit words *)

Lemma length_le32s ws : length (le32s ws) = (4 * length ws)%nat.
Proof.
  induction ws as [| w ws IH]; [reflexivity |].
  unfold le32s in *. cbn [flat_map length]. rewrite length_app, IH.
  rewrite length_le_bytes. lia.
Qed.

Lemma words32_le32s ws :
  Forall (fun w => 0 <= w < 2 ^ 32) ws -> words32 (le32s ws) = ws.
Proof.
  induction ws as [| w ws IH]; intros H; [reflexivity |].
  apply Forall_cons_1 in H as [Hw H].
  unfold le32s in *. cbn [flat_map].
  pose proof (length_le_bytes 4 w) as Hl.
  pose proof (le_val_le_bytes_small 4 w Hw) as Hv.
  destruct (le_bytes 4 w) as [| b0 [| b1 [| b2 [| b3 [| b4 l]]]]];
    try discriminate Hl.
  cbn [app words32]. rewrite Hv, IH by exact H. reflexivity.
Qed.

Lemma ta_length_le32s k ws :
  BYTES_PER_ELEMENT k = 4%nat ->
  ta_length {| ta_kind := k; ta_buffer := le32s ws |} = Z.of_nat (length ws).
Proof.
  intros Hk. unfold ta_length, byteLength. cbn [ta_kind ta_buffer].
  rewrite Hk, length_le32s.
  replace (Z.of_nat (4 * length ws)) with (Z.of_nat (length ws) * 4) by lia.
  apply Z.div_mul. lia.
Qed.

Lemma view_le32s k ws :
  BYTES_PER_ELEMENT k = 4%nat ->
  view k (le32s ws) = Ok {| ta_kind := k; ta_buffer := le32s ws |}.
Proof.
  intros Hk. unfold view, byteLength. rewrite Hk, length_le32s.
  replace (Z.of_nat (4 * length ws)) with (Z.of_nat (length ws) * 4) by lia.
  rewrite Z.mod_mul by lia. reflexivity.
Qed.

(** *** The archive reader: stored archives *)

(** A read of one of the parts a buffer is made of. *)
Lemma bytes_at_chunk chunks more j bs :
  chunks !! j = Some bs -> bs <> [] ->
  DataView.bytes_at (concat chunks ++ more)
    (Z.of_nat (length (concat (take j chunks)))) (Z.of_nat (length bs))
  = Ok bs.
Proof.
  intros Hj Hne.
  rewrite <- (take_drop_middle chunks j bs Hj) at 1.
  rewrite concat_app, concat_cons, <- !app_assoc.
  rewrite <- (Z.add_0_r (Z.of_nat (length (concat (take j chunks))))).
  rewrite bytes_at_shift; [| lia | lia | destruct bs; [congruence | cbn; lia]].
  rewrite Nat2Z.id, drop_app_length.
  apply bytes_at_prefix. reflexivity.
Qed.

Lemma raw_chunk chunks more j bs le :
  chunks !! j = Some bs -> bs <> [] ->
  DataView.raw (concat chunks ++ more)
    (Z.of_nat (length (concat (take j chunks)))) (Z.of_nat (length bs)) le
  = Ok (if le then le_val bs else be_val bs).
Proof.
  intros Hj Hne. unfold DataView.raw.
  rewrite bytes_at_chunk by assumption. reflexivity.
Qed.

Lemma readString_chunk chunks more j bs :
  chunks !! j = Some bs ->
  Zip.readString (concat chunks ++ more)
    (Z.of_nat (length (concat (take j chunks)))) (Z.of_nat (length bs))
  = Ok bs.
Proof.
  intros Hj. unfold Zip.readString.
  destruct bs as [| b bs]; [reflexivity |].
  destruct (Z.leb_spec (Z.of_nat (length (b :: bs))) 0);
    [cbn [length] in *; lia |].
  apply bytes_at_chunk; [exact Hj | discriminate].
Qed.

Lemma string_chunk chunks more j bs pos w :
  chunks !! j = Some bs ->
  pos = Z.of_nat (length (concat (take j chunks))) ->
  w = Z.of_nat (length bs) ->
  Zip.readString (concat chunks ++ more) pos w = Ok bs.
Proof. intros Hj -> ->. apply readString_chunk. exact Hj. Qed.

Lemma le_bytes_ne n v : le_bytes (S n) v <> [].
Proof. rewrite le_bytes_S. discriminate. Qed.

(** The fields of a little-endian word read back. *)
Lemma word_chunk chunks more j n v pos w :
  chunks !! j = Some (le_bytes (S n) v) ->
  pos = Z.of_nat (length (concat (take j chunks))) ->
  w = Z.of_nat (S n) ->
  0 <= v < 256 ^ Z.of_nat (S n) ->
  DataView.raw (concat chunks ++ more) pos w true = Ok v.
Proof.
  intros Hj -> -> Hv.
  rewrite <- (length_le_bytes (S n) v) at 1.
  rewrite (raw_chunk _ _ _ _ true Hj (le_bytes_ne n v)).
  rewrite le_val_le_bytes_small by exact Hv. reflexivity.
Qed.

Lemma word_at pre chunks more j n v pos w :
  chunks !! j = Some (le_bytes (S n) v) ->
  pos = byteLength pre + Z.of_nat (length (concat (take j chunks))) ->
  w = Z.of_nat (S n) ->
  0 <= v < 256 ^ Z.of_nat (S n) ->
  DataView.raw (pre ++ concat chunks ++ more) pos w true = Ok v.
Proof.
  intros Hj -> -> Hv. unfold byteLength.
  rewrite raw_shift by lia. rewrite Nat2Z.id, drop_app_length.
  apply (word_chunk chunks more j n v); [exact Hj | reflexivity ..| exact Hv].
Qed.

Lemma zip_local_chunks gp method crc csize usize name extra data :
  Vec.zip_local gp method crc csize usize name extra data
  = concat [Vec.le32 Zip.SIG_LOCAL; Vec.le16 20; Vec.le16 gp;
            Vec.le16 method; Vec.le16 0; Vec.le16 0; Vec.le32 crc;
            Vec.le32 csize; Vec.le32 usize; Vec.le16 (byteLength name);
            Vec.le16 (byteLength extra); name; extra; data].
Proof.
  unfold Vec.zip_local. cbn [concat]. rewrite app_nil_r. reflexivity.
Qed.

Ltac word_side :=
  first [ reflexivity
        | change (Z.of_nat 4) with 4; change (Z.of_nat 2) with 2;
          unfold byteLength in *; cbn [length] in *; lia ].

(** The header round trip: [readLocalFile] reads back the fields that
    [zip_local] wrote, whatever follows the record. *)
Lemma readLocalFile_zip_local gp method crc csize usize name data more :
  0 <= gp < 65536 -> 0 <= method < 65536 -> 0 <= crc < 2 ^ 32 ->
  0 <= csize < 0xffffffff -> 0 <= usize < 2 ^ 32 ->
  byteLength name < 65536 ->
  Zip.readLocalFile
    (Vec.zip_local gp method crc csize usize name [] data ++ more) 0
  = Ok {| signature := Vec.le32 Zip.SIG_LOCAL; version := 20;
          generalPurpose := gp; compressionMethod := method;
          lastModifiedTime := 0; lastModifiedDate := 0; crc := crc;
          compressedSize := csize; uncompressedSize := usize;
          fileNameLength := byteLength name; extraLength := 0;
          fileName := name; extra := []; startsAt := 0 |}.
Proof.
  intros Hgp Hm Hcrc Hcs Hus Hname.
  rewrite zip_local_chunks.
  set (chunks := [Vec.le32 Zip.SIG_LOCAL; _; _; _; _; _; _; _; _; _; _; _; _; _]).
  unfold Zip.readLocalFile, DataView.getUint32, DataView.getUint16.
  pose proof (Zle_0_nat (length name)) as Hn0. unfold byteLength in Hname.
  rewrite (word_chunk chunks more 7 3 csize) by word_side.
  cbn [bind].
  rewrite (word_chunk chunks more 8 3 usize) by word_side.
  cbn [bind].
  rewrite (word_chunk chunks more 9 1 (byteLength name))
    by word_side.
  cbn [bind].
  rewrite (word_chunk chunks more 10 1 (byteLength [])) by word_side.
  cbn [bind].
  change (byteLength []) with 0.
  change (Zip.readString (concat chunks ++ more) (0 + 30 + byteLength name) 0)
    with (@Ok (list byte) []).
  cbn [bind].
  destruct (Z.eqb_spec csize 0xffffffff) as [-> | _]; [lia |].
  cbn [andb bind].
  rewrite (string_chunk chunks more 0 (Vec.le32 Zip.SIG_LOCAL))
    by reflexivity.
  cbn [bind].
  rewrite (word_chunk chunks more 1 1 20) by word_side.
  cbn [bind].
  rewrite (word_chunk chunks more 2 1 gp) by word_side.
  cbn [bind].
  rewrite (word_chunk chunks more 3 1 method) by word_side.
  cbn [bind].
  rewrite (word_chunk chunks more 4 1 0) by word_side.
  cbn [bind].
  rewrite (word_chunk chunks more 5 1 0) by word_side.
  cbn [bind].
  rewrite (word_chunk chunks more 6 3 crc) by word_side.
  cbn [bind].
  rewrite (string_chunk chunks more 11 name) by reflexivity.
  cbn [bind]. reflexivity.
Qed.

(** *** The archive reader: a record is read from its own bytes *)

Lemma raw_shift' dv off k p n le :
  0 <= off -> 0 <= k -> 0 < n -> p = off + k ->
  DataView.raw dv p n le = DataView.raw (drop (Z.to_nat off) dv) k n le.
Proof. intros ? ? ? ->. apply raw_shift; assumption. Qed.

Lemma readString_shift' dv off k p n :
  0 <= off -> 0 <= k -> p = off + k ->
  Zip.readString dv p n = Zip.readString (drop (Z.to_nat off) dv) k n.
Proof. intros ? ? ->. apply readString_shift; assumption. Qed.

(** One step of a proof that two chains of reads agree: the next read of
    both sides is the same, and its value is not negative. *)
Ltac shift_read :=
  match goal with
  | |- bind ?r _ = bind ?r' _ =>
      let E := fresh "E" in
      let Hs := fresh "Hs" in
      assert (Hs : r = r')
        by first [ apply raw_shift'; lia | apply readString_shift'; lia ];
      rewrite Hs; clear Hs;
      destruct r' eqn:E; cbn [bind]; [| reflexivity];
      try (pose proof (proj2 (raw_ok _ _ _ _ _ E)))
  end.

Lemma zip64_field_shift fuel : forall dv off z stop,
  0 <= off -> 0 <= z ->
  Zip.zip64_field fuel dv (off + z) (off + stop)
  = Zip.zip64_field fuel (drop (Z.to_nat off) dv) z stop.
Proof.
  induction fuel as [| fuel IH]; intros dv off z stop Hoff Hz;
    cbn [Zip.zip64_field].
  - destruct (Z.ltb_spec (off + z) (off + stop));
      destruct (Z.ltb_spec z stop); try reflexivity; exfalso; lia.
  - destruct (Z.ltb_spec (off + z) (off + stop));
      destruct (Z.ltb_spec z stop); try reflexivity; try (exfalso; lia).
    unfold DataView.getUint16, DataView.getBigUint64.
    shift_read. shift_read.
    match goal with |- (if ?c then _ else _) = _ => destruct c end.
    + match goal with
      | |- (if ?c then _ else _) = _ => destruct c; [| reflexivity]
      end.
      shift_read. shift_read. reflexivity.
    + match goal with
      | |- Zip.zip64_field _ _ ?x _ = Zip.zip64_field _ _ ?x' _ =>
          replace x with (off + x') by lia
      end.
      apply IH; lia.
Qed.

(** [readLocalFile] looks at no byte before the record: reading at
    [offset] is reading at 0 of the buffer that starts there. *)
Lemma readLocalFile_shift dv offset :
  0 <= offset ->
  Zip.readLocalFile dv offset
  = Zip.readLocalFile (drop (Z.to_nat offset) dv) 0.
Proof.
  intros Hoff. unfold Zip.readLocalFile.
  unfold DataView.getUint32, DataView.getUint16.
  do 5 shift_read.
  match goal with
  | |- bind ?a _ = bind ?b _ => assert (Hs : a = b)
  end.
  { match goal with
    | |- (if ?c then _ else _) = _ => destruct c; [| reflexivity]
    end.
    match goal with
    | |- bind (Zip.zip64_field _ _ ?x ?y) _
         = bind (Zip.zip64_field _ _ ?x' ?y') _ =>
        replace y with (offset + y') by lia;
        replace x with (offset + x') by lia
    end.
    rewrite zip64_field_shift by lia. reflexivity. }
  rewrite Hs. clear Hs.
  match goal with
  | |- bind ?a _ = _ => destruct a as [[c u] |]; cbn [bind]; [| reflexivity]
  end.
  repeat shift_read. reflexivity.
Qed.

Lemma readEndCentralDirectory_shift dv offset :
  0 <= offset ->
  Zip.readEndCentralDirectory dv offset
  = Zip.readEndCentralDirectory (drop (Z.to_nat offset) dv) 0.
Proof.
  intros Hoff. unfold Zip.readEndCentralDirectory.
  unfold DataView.getUint32, DataView.getUint16.
  do 8 shift_read. reflexivity.
Qed.

Lemma readCentralDirectory_shift dv offset :
  0 <= offset ->
  Zip.readCentralDirectory dv offset
  = Zip.readCentralDirectory (drop (Z.to_nat offset) dv) 0.
Proof.
  intros Hoff. unfold Zip.readCentralDirectory.
  unfold DataView.getUint32, DataView.getUint16.
  repeat shift_read. reflexivity.
Qed.

(** *** The archive reader: the round trip of stored archives *)

Lemma byteLength_stored_record f :
  byteLength (stored_record f) = 30 + byteLength (fst f) + byteLength (snd f).
Proof.
  unfold stored_record, Vec.zip_local. rewrite !byteLength_app.
  unfold byteLength, Vec.le32, Vec.le16. rewrite !length_le_bytes.
  cbn [length]. lia.
Qed.

Lemma signature_stored_record pre f more :
  DataView.getUint32 (pre ++ stored_record f ++ more) (byteLength pre) true
  = Ok Zip.SIG_LOCAL.
Proof.
  unfold stored_record, Vec.zip_local, DataView.getUint32, byteLength.
  rewrite <- (app_assoc (Vec.le32 Zip.SIG_LOCAL)).
  rewrite (raw_at pre (Vec.le32 Zip.SIG_LOCAL)); [reflexivity .. | lia].
Qed.

Lemma local_file_stored z pre f more :
  Zip.dataView z = pre ++ stored_record f ++ more ->
  Zip.index z = byteLength pre ->
  storable f ->
  Zip.local_file z
  = Ok (Zip.push_local z (stored_entry (byteLength pre) f)
          (byteLength pre + byteLength (stored_record f))).
Proof.
  intros Hdv Hidx [Hn Hd]. unfold Zip.local_file. cbn zeta.
  pose proof (Zle_0_nat (length pre)) as Hpre.
  pose proof (Zle_0_nat (length (snd f))) as Hdata.
  rewrite readLocalFile_shift by (rewrite Hidx; exact Hpre).
  rewrite Hdv, Hidx. unfold byteLength at 1.
  rewrite Nat2Z.id, drop_app_length.
  unfold stored_record at 1.
  unfold byteLength in Hd.
  rewrite readLocalFile_zip_local
    by first [ exact Hn | unfold byteLength; lia | lia ].
  cbn [bind generalPurpose compressedSize fileNameLength extraLength
       uncompressedSize crc].
  change (Z.land 0 8 =? 0) with true. cbn [negb]. rewrite andb_false_r.
  rewrite byteLength_stored_record.
  unfold Zip.with_sizes, stored_entry.
  cbn [signature version generalPurpose compressionMethod lastModifiedTime
       lastModifiedDate crc compressedSize uncompressedSize fileNameLength
       extraLength fileName extra].
  f_equal. f_equal; [f_equal; lia | lia].
Qed.

Lemma zip_end_read pre rest :
  DataView.getUint32 (pre ++ Vec.zip_end ++ rest) (byteLength pre) true
  = Ok Zip.SIG_END
  /\ exists e,
       Zip.readEndCentralDirectory (pre ++ Vec.zip_end ++ rest)
         (byteLength pre) = Ok e.
Proof.
  pose proof (Zle_0_nat (length pre)) as Hpre.
  split.
  - unfold Vec.zip_end, DataView.getUint32, byteLength.
    rewrite <- (app_assoc (Vec.le32 Zip.SIG_END)).
    rewrite (raw_at pre (Vec.le32 Zip.SIG_END)); [reflexivity .. | lia].
  - rewrite readEndCentralDirectory_shift by exact Hpre.
    unfold byteLength. rewrite Nat2Z.id, drop_app_length.
    set (chunks := [Vec.le32 Zip.SIG_END; Vec.le16 0; Vec.le16 0; Vec.le16 0;
                    Vec.le16 0; Vec.le32 0; Vec.le32 0; Vec.le16 0]).
    change (Vec.zip_end ++ rest) with (concat chunks ++ rest).
    unfold Zip.readEndCentralDirectory, DataView.getUint32,
      DataView.getUint16.
    rewrite (word_chunk chunks rest 7 1 0) by word_side. cbn [bind].
    rewrite (word_chunk chunks rest 1 1 0) by word_side. cbn [bind].
    rewrite (word_chunk chunks rest 2 1 0) by word_side. cbn [bind].
    rewrite (word_chunk chunks rest 3 1 0) by word_side. cbn [bind].
    rewrite (word_chunk chunks rest 4 1 0) by word_side. cbn [bind].
    rewrite (word_chunk chunks rest 5 3 0) by word_side. cbn [bind].
    rewrite (word_chunk chunks rest 6 3 0) by word_side. cbn [bind].
    change (Zip.readString (concat chunks ++ rest) (0 + 22) 0)
      with (@Ok (list byte) []).
    cbn [bind]. eexists. reflexivity.
Qed.

Lemma byteLength_central_record f :
  byteLength (central_record f) = 46 + byteLength (fst f).
Proof.
  unfold central_record. rewrite !byteLength_app.
  unfold byteLength, Vec.le32, Vec.le16.
  rewrite !length_le_bytes, length_replicate. lia.
Qed.

(** A central directory record is read, and skipped whole. *)
Lemma central_read pre f rest :
  byteLength (fst f) < 65536 ->
  DataView.getUint32 (pre ++ central_record f ++ rest) (byteLength pre) true
  = Ok Zip.SIG_CENTRAL
  /\ exists e,
       Zip.readCentralDirectory (pre ++ central_record f ++ rest)
         (byteLength pre) = Ok e
       /\ 46 + cd_fileNameLength e + cd_extraLength e + fileCommentLength e
          = byteLength (central_record f).
Proof.
  intros Hn. pose proof (Zle_0_nat (length pre)) as Hpre.
  pose proof (Zle_0_nat (length (fst f))) as Hn0.
  split.
  - unfold central_record, DataView.getUint32, byteLength.
    rewrite <- (app_assoc (Vec.le32 Zip.SIG_CENTRAL)).
    rewrite (raw_at pre (Vec.le32 Zip.SIG_CENTRAL)); [reflexivity .. | lia].
  - rewrite readCentralDirectory_shift by exact Hpre.
    unfold byteLength at 1. rewrite Nat2Z.id, drop_app_length.
    set (chunks := [Vec.le32 Zip.SIG_CENTRAL; Vec.le16 20; Vec.le16 20;
                    replicate 20 x00; Vec.le16 (byteLength (fst f));
                    Vec.le16 0; Vec.le16 0; Vec.le16 0; Vec.le16 0;
                    Vec.le32 0; Vec.le32 0; fst f]).
    assert (Hrec : central_record f = concat chunks).
    { unfold central_record. subst chunks. cbn [concat].
      rewrite app_nil_r. reflexivity. }
    rewrite Hrec.
    unfold Zip.readCentralDirectory, DataView.getUint32, DataView.getUint16.
    rewrite (word_chunk chunks rest 1 1 20) by word_side. cbn [bind].
    rewrite (word_chunk chunks rest 2 1 20) by word_side. cbn [bind].
    rewrite (word_chunk chunks rest 4 1 (byteLength (fst f))) by word_side.
    cbn [bind].
    rewrite (word_chunk chunks rest 5 1 0) by word_side. cbn [bind].
    rewrite (word_chunk chunks rest 6 1 0) by word_side. cbn [bind].
    rewrite (word_chunk chunks rest 7 1 0) by word_side. cbn [bind].
    rewrite (word_chunk chunks rest 8 1 0) by word_side. cbn [bind].
    rewrite (word_chunk chunks rest 9 3 0) by word_side. cbn [bind].
    rewrite (word_chunk chunks rest 10 3 0) by word_side. cbn [bind].
    change (Zip.readString (concat chunks ++ rest) (0 + 46) 0)
      with (@Ok (list byte) []).
    cbn [bind]. eexists. split; [reflexivity |].
    cbn [cd_fileNameLength cd_extraLength fileCommentLength].
    rewrite <- Hrec, byteLength_central_record. lia.
Qed.

Lemma read_centrals cs : forall fuel z pre rest,
  Forall storable cs ->
  Zip.dataView z = pre ++ flat_map central_record cs ++ Vec.zip_end ++ rest ->
  Zip.index z = byteLength pre ->
  Zip.endOfCentralDirectory z = None ->
  (length cs < fuel)%nat ->
  exists z',
    Zip.read fuel z = Ok z'
    /\ Zip.dataView z' = Zip.dataView z
    /\ Zip.localFiles z' = Zip.localFiles z
    /\ Zip.console z' = Zip.console z
    /\ is_Some (Zip.endOfCentralDirectory z').
Proof.
  induction cs as [| f cs IH]; intros fuel z pre rest Hst Hdv Hidx Hend
    Hfuel; (destruct fuel as [| fuel]; [cbn [length] in Hfuel; lia |]);
    rewrite read_step, Hend; cbn zeta.
  - cbn [flat_map app] in Hdv.
    destruct (zip_end_read pre rest) as [Hsig [e He]].
    rewrite Hdv, Hidx.
    destruct (Z.ltb_spec (byteLength pre)
                (byteLength (pre ++ Vec.zip_end ++ rest))) as [_ | Hge].
    2: { rewrite !byteLength_app in Hge.
         change (byteLength Vec.zip_end) with 22 in Hge.
         pose proof (Zle_0_nat (length rest)). unfold byteLength in *. lia. }
    cbn [andb]. rewrite Hsig. cbn [bind].
    change (Zip.SIG_END =? Zip.SIG_LOCAL) with false.
    change (Zip.SIG_END =? Zip.SIG_CENTRAL) with false.
    change (Zip.SIG_END =? Zip.SIG_END) with true.
    cbn match. rewrite He. cbn [bind].
    eexists. split; [reflexivity |].
    cbn [Zip.set_end Zip.dataView Zip.localFiles Zip.console
         Zip.endOfCentralDirectory].
    rewrite <- Hdv. repeat split. eexists. reflexivity.
  - apply Forall_cons_1 in Hst as [[Hf _] Hst].
    assert (Hdv' : Zip.dataView z
                   = pre ++ central_record f
                     ++ flat_map central_record cs ++ Vec.zip_end ++ rest).
    { rewrite Hdv. cbn [flat_map]. rewrite <- !app_assoc. reflexivity. }
    destruct (central_read pre f
                (flat_map central_record cs ++ Vec.zip_end ++ rest) Hf)
      as [Hsig (e & He & Hskip)].
    rewrite <- Hdv', <- Hidx in Hsig, He.
    destruct (Z.ltb_spec (Zip.index z) (byteLength (Zip.dataView z)))
      as [_ | Hge].
    2: { rewrite Hdv', Hidx, !byteLength_app, byteLength_central_record in Hge.
         unfold byteLength in Hge. lia. }
    cbn [andb]. rewrite Hsig. cbn [bind].
    change (Zip.SIG_CENTRAL =? Zip.SIG_LOCAL) with false.
    change (Zip.SIG_CENTRAL =? Zip.SIG_CENTRAL) with true.
    cbn match. rewrite He. cbn [bind].
    destruct (IH fuel
                (Zip.push_central z e
                   (Zip.index z
                    + (46 + cd_fileNameLength e + cd_extraLength e
                       + fileCommentLength e)))
                (pre ++ central_record f) rest Hst)
      as [z' [Hr [Hd [Hl [Hw He']]]]].
    + cbn [Zip.push_central Zip.dataView]. rewrite Hdv', <- app_assoc.
      reflexivity.
    + cbn [Zip.push_central Zip.index]. rewrite byteLength_app, Hskip, Hidx.
      reflexivity.
    + exact Hend.
    + cbn [length] in Hfuel. lia.
    + exists z'. split; [exact Hr |].
      cbn [Zip.push_central Zip.dataView Zip.localFiles Zip.console]
        in Hd, Hl, Hw.
      split; [exact Hd |]. split; [exact Hl |]. split; [exact Hw | exact He'].
Qed.

Lemma read_stored files : forall cs fuel z pre rest,
  Forall storable files -> Forall storable cs ->
  Zip.dataView z
  = pre ++ flat_map stored_record files
    ++ flat_map central_record cs ++ Vec.zip_end ++ rest ->
  Zip.index z = byteLength pre ->
  Zip.endOfCentralDirectory z = None ->
  (length files + length cs < fuel)%nat ->
  exists z',
    Zip.read fuel z = Ok z'
    /\ Zip.dataView z' = Zip.dataView z
    /\ Zip.localFiles z'
       = Zip.localFiles z ++ stored_entries (byteLength pre) files
    /\ Zip.console z' = Zip.console z
    /\ is_Some (Zip.endOfCentralDirectory z').
Proof.
  induction files as [| f files IH]; intros cs fuel z pre rest Hst Hcs Hdv
    Hidx Hend Hfuel.
  - cbn [flat_map app length Nat.add stored_entries] in *.
    destruct (read_centrals cs fuel z pre rest Hcs Hdv Hidx Hend Hfuel)
      as [z' [Hr [Hd [Hl [Hw He]]]]].
    exists z'. rewrite app_nil_r. repeat split; assumption.
  - destruct fuel as [| fuel]; [cbn [length] in Hfuel; lia |].
    rewrite read_step, Hend; cbn zeta.
    apply Forall_cons_1 in Hst as [Hf Hst].
    set (more := flat_map stored_record files
                 ++ flat_map central_record cs ++ Vec.zip_end ++ rest).
    assert (Hdv' : Zip.dataView z = pre ++ stored_record f ++ more).
    { rewrite Hdv. subst more. cbn [flat_map]. rewrite <- !app_assoc.
      reflexivity. }
    pose proof (signature_stored_record pre f more) as Hsig.
    rewrite <- Hdv', <- Hidx in Hsig.
    destruct (Z.ltb_spec (Zip.index z) (byteLength (Zip.dataView z)))
      as [_ | Hge].
    2: { rewrite Hdv', Hidx, !byteLength_app, byteLength_stored_record in Hge.
         unfold byteLength in Hge. lia. }
    cbn [andb]. rewrite Hsig. cbn [bind].
    change (Zip.SIG_LOCAL =? Zip.SIG_LOCAL) with true. cbn match.
    rewrite (local_file_stored z pre f _ Hdv' Hidx Hf). cbn [bind].
    destruct (IH cs fuel
                (Zip.push_local z (stored_entry (byteLength pre) f)
                   (byteLength pre + byteLength (stored_record f)))
                (pre ++ stored_record f) rest Hst Hcs)
      as [z' [Hr [Hd [Hl [Hw He]]]]].
    + cbn [Zip.push_local Zip.dataView]. rewrite Hdv'. subst more.
      rewrite <- app_assoc. reflexivity.
    + cbn [Zip.push_local Zip.index]. rewrite byteLength_app. reflexivity.
    + exact Hend.
    + cbn [length] in Hfuel. lia.
    + exists z'. split; [exact Hr |].
      cbn [Zip.push_local Zip.dataView Zip.localFiles Zip.console]
        in Hd, Hl, Hw.
      split; [exact Hd |]. split.
      { rewrite Hl, <- app_assoc, byteLength_app. reflexivity. }
      split; [exact Hw | exact He].
Qed.

(** The payload of a stored entry is the bytes that were written. *)
Lemma extract_stored inflateRaw z pre f more :
  Zip.dataView z = pre ++ stored_record f ++ more ->
  Zip.extract inflateRaw z (stored_entry (byteLength pre) f) = Ok (snd f).
Proof.
  intros Hdv. unfold Zip.extract, stored_entry.
  cbn [startsAt compressedSize compressionMethod].
  change (0 =? 0) with true. cbn match. f_equal.
  set (hdr := Vec.le32 Zip.SIG_LOCAL ++ Vec.le16 20 ++ Vec.le16 0
              ++ Vec.le16 0 ++ Vec.le16 0 ++ Vec.le16 0 ++ Vec.le32 0
              ++ Vec.le32 (byteLength (snd f))
              ++ Vec.le32 (byteLength (snd f))
              ++ Vec.le16 (byteLength (fst f)) ++ Vec.le16 (byteLength [])).
  assert (Hh : byteLength hdr = 30).
  { subst hdr. rewrite !byteLength_app. unfold byteLength, Vec.le32, Vec.le16.
    rewrite !length_le_bytes. reflexivity. }
  assert (Hrec : Zip.dataView z = (pre ++ hdr ++ fst f) ++ snd f ++ more).
  { rewrite Hdv. unfold stored_record, Vec.zip_local. subst hdr.
    rewrite <- !app_assoc. reflexivity. }
  assert (Hp : byteLength pre + 30 + byteLength (fst f)
               = byteLength (pre ++ hdr ++ fst f)).
  { rewrite !byteLength_app, Hh. lia. }
  rewrite Hp, Hrec. unfold byteLength.
  rewrite slice_within.
  - rewrite Nat2Z.id, drop_app_length.
    replace (Z.to_nat (_ + _ - _)) with (length (snd f)) by lia.
    apply take_app_length.
  - lia.
  - rewrite !length_app. lia.
Qed.

Lemma extract_stored_entries inflateRaw z files : forall pre rest,
  Zip.dataView z = pre ++ flat_map stored_record files ++ rest ->
  map (Zip.extract inflateRaw z) (stored_entries (byteLength pre) files)
  = map (fun f => Ok (snd f)) files.
Proof.
  induction files as [| f files IH]; intros pre rest Hdv; [reflexivity |].
  cbn [stored_entries map flat_map] in *.
  rewrite <- app_assoc in Hdv.
  rewrite (extract_stored inflateRaw z pre f _ Hdv). f_equal.
  rewrite <- byteLength_app. apply (IH _ rest).
  rewrite Hdv, <- app_assoc. reflexivity.
Qed.

Lemma fileName_stored_entries files : forall offset,
  map fileName (stored_entries offset files) = map fst files.
Proof.
  induction files as [| f files IH]; intros offset; [reflexivity |].
  cbn [stored_entries map]. rewrite IH. reflexivity.
Qed.

Lemma length_stored_files files :
  (length files <= length (flat_map stored_record files))%nat.
Proof.
  induction files as [| f files IH]; [reflexivity |].
  cbn [flat_map length]. rewrite length_app.
  pose proof (byteLength_stored_record f) as H. unfold byteLength in H. lia.
Qed.

Lemma length_central_files files :
  (length files <= length (flat_map central_record files))%nat.
Proof.
  induction files as [| f files IH]; [reflexivity |].
  cbn [flat_map length]. rewrite length_app.
  pose proof (byteLength_central_record f) as H. unfold byteLength in H. lia.
Qed.

Lemma new_stored files trailing :
  Forall storable files ->
  exists z,
    Zip.new (stored_archive files ++ trailing) = Ok z
    /\ Zip.dataView z = stored_archive files ++ trailing
    /\ Zip.entries z = stored_entries 0 files
    /\ Zip.console z = [].
Proof.
  intros Hst. unfold Zip.new.
  destruct (read_stored files files
              (length (stored_archive files ++ trailing))
              (Zip.init (stored_archive files ++ trailing)) [] trailing
              Hst Hst)
    as [z [Hr [Hd [Hl [Hw _]]]]].
  { cbn [Zip.init Zip.dataView app]. unfold stored_archive.
    rewrite <- !app_assoc. reflexivity. }
  { reflexivity. }
  { reflexivity. }
  { unfold stored_archive. rewrite !length_app.
    pose proof (length_stored_files files).
    pose proof (length_central_files files).
    change (length Vec.zip_end) with 22%nat. lia. }
  exists z. split; [exact Hr |].
  cbn [Zip.init Zip.dataView Zip.localFiles Zip.console app] in Hd, Hl, Hw.
  split; [exact Hd |]. split; [exact Hl | exact Hw].
Qed.

(** An archive of stored files (local records, central directory, end
    record) is read back: the entries are the files in order, each extracts
    to the bytes that were stored, nothing is logged, and whatever follows
    the end record is not looked at. *)
Theorem Zip_stored_round_trip inflateRaw files trailing :
  Forall storable files ->
  exists z,
    Zip.new (stored_archive files ++ trailing) = Ok z
    /\ map fileName (Zip.entries z) = map fst files
    /\ map (Zip.extract inflateRaw z) (Zip.entries z)
       = map (fun f => Ok (snd f)) files
    /\ Zip.console z = [].
Proof.
  intros Hst.
  destruct (new_stored files trailing Hst) as [z [Hr [Hd [Hl Hw]]]].
  exists z. split; [exact Hr |]. rewrite Hl.
  split; [apply fileName_stored_entries |]. split; [| exact Hw].
  change 0 with (byteLength []).
  apply (extract_stored_entries inflateRaw z files []
           (flat_map central_record files ++ Vec.zip_end ++ trailing)).
  rewrite Hd. unfold stored_archive. rewrite <- !app_assoc. reflexivity.
Qed.

Lemma Zip_stored_round_trip_witness :
  exists z,
    Zip.new (stored_archive [(Text.str "a", [x01; x02]); (Text.str "b", [])]
             ++ [x50; x4b])
    = Ok z
    /\ map fileName (Zip.entries z) = [Text.str "a"; Text.str "b"]
    /\ map (Zip.extract no_decompress z) (Zip.entries z)
       = [Ok [x01; x02]; Ok []]
    /\ Zip.console z = [].
Proof.
  apply (Zip_stored_round_trip no_decompress
           [(Text.str "a", [x01; x02]); (Text.str "b", [])] [x50; x4b]).
  apply Forall_cons. split; [split; reflexivity |].
  apply Forall_cons. split; [split; reflexivity |].
  apply Forall_nil_2.
Defined.

(** *** The archive reader: the entries lie inside the buffer *)

Lemma bytes_at_ok dv p n bs :
  DataView.bytes_at dv p n = Ok bs ->
  0 <= p /\ p + n <= byteLength dv /\ (0 <= n -> byteLength bs = n).
Proof.
  unfold DataView.bytes_at, byteLength. intros H.
  destruct (Z.leb_spec 0 p); [| discriminate].
  destruct (Z.leb_spec (p + n) (Z.of_nat (length dv))); [| discriminate].
  injection H as <-. split; [assumption |]. split; [assumption |].
  intros Hn. rewrite length_take, length_drop. lia.
Qed.

Lemma readString_ok dv p n bs :
  Zip.readString dv p n = Ok bs -> 0 <= n ->
  byteLength bs = n /\ (0 < n -> 0 <= p /\ p + n <= byteLength dv).
Proof.
  unfold Zip.readString. intros H Hn.
  destruct (Z.leb_spec n 0).
  - injection H as <-. unfold byteLength. cbn [length]. split; lia.
  - apply bytes_at_ok in H as (Hp & Hb & Hl).
    split; [apply Hl; lia | intros _; split; assumption].
Qed.

Lemma readLocalFile_shape dv offset e :
  Zip.readLocalFile dv offset = Ok e ->
  0 <= offset
  /\ offset + 30 + fileNameLength e + extraLength e <= byteLength dv
  /\ byteLength (signature e) = 4
  /\ byteLength (fileName e) = fileNameLength e
  /\ byteLength (extra e) = extraLength e.
Proof.
  intros H. pose proof (readLocalFile_sizes _ _ _ H) as (Hf & Hx & _).
  unfold Zip.readLocalFile in H.
  destruct (DataView.getUint32 dv (offset + 18) true) as [c |] eqn:Ec;
    cbn [bind] in H; [| discriminate].
  destruct (DataView.getUint32 dv (offset + 22) true) as [u |] eqn:Eu;
    cbn [bind] in H; [| discriminate].
  destruct (DataView.getUint16 dv (offset + 26) true) as [fnl |] eqn:Ef;
    cbn [bind] in H; [| discriminate].
  destruct (DataView.getUint16 dv (offset + 28) true) as [el |] eqn:Ee;
    cbn [bind] in H; [| discriminate].
  destruct (Zip.readString dv (offset + 30 + fnl) el) as [x |] eqn:Ex;
    cbn [bind] in H; [| discriminate].
  match type of H with
  | bind ?r _ = _ => destruct r as [[c' u'] |]; cbn [bind] in H;
                     [| discriminate]
  end.
  destruct (Zip.readString dv offset 4) as [sig |] eqn:Es;
    cbn [bind] in H; [| discriminate].
  destruct (DataView.getUint16 dv (offset + 4) true); cbn [bind] in H;
    [| discriminate].
  destruct (DataView.getUint16 dv (offset + 6) true); cbn [bind] in H;
    [| discriminate].
  destruct (DataView.getUint16 dv (offset + 8) true); cbn [bind] in H;
    [| discriminate].
  destruct (DataView.getUint16 dv (offset + 10) true); cbn [bind] in H;
    [| discriminate].
  destruct (DataView.getUint16 dv (offset + 12) true); cbn [bind] in H;
    [| discriminate].
  destruct (DataView.getUint32 dv (offset + 14) true); cbn [bind] in H;
    [| discriminate].
  destruct (Zip.readString dv (offset + 30) fnl) as [name |] eqn:En;
    cbn [bind] in H; [| discriminate].
  injection H as <-.
  cbn [fileNameLength extraLength signature fileName extra] in *.
  apply raw_bound in Ee as [He0 He].
  apply readString_ok in Ex as [Hxl Hxb]; [| exact Hx].
  apply readString_ok in Es as [Hsl Hsb]; [| lia].
  destruct Hsb as [Hs0 _]; [lia |].
  apply readString_ok in En as [Hnl Hnb]; [| exact Hf].
  split; [lia |]. split; [| split; [exact Hsl | split; [exact Hnl | exact Hxl]]].
  destruct (Z.eq_dec el 0) as [-> | Hel].
  - destruct (Z.eq_dec fnl 0) as [-> | Hfl]; [lia |].
    destruct Hnb as [_ Hnb]; lia.
  - destruct Hxb as [_ Hxb]; lia.
Qed.

Lemma local_file_entries z z' :
  0 <= Zip.index z ->
  Forall (entry_ok (byteLength (Zip.dataView z))) (Zip.localFiles z) ->
  Zip.local_file z = Ok z' ->
  Forall (entry_ok (byteLength (Zip.dataView z))) (Zip.localFiles z').
Proof.
  unfold Zip.local_file. intros Hi Hall H.
  destruct (Zip.readLocalFile (Zip.dataView z) (Zip.index z)) as [e |] eqn:He;
    cbn [bind] in H; [| discriminate].
  pose proof (readLocalFile_sizes _ _ _ He) as (Hf & Hx & Hc).
  pose proof (readLocalFile_shape _ _ _ He) as (_ & Hb & Hs & Hn & Hxl).
  destruct ((compressedSize e =? 0)
            && negb (Z.land (generalPurpose e) 8 =? 0)).
  - bind_inv H. injection H as <-. cbn [Zip.push_local Zip.localFiles].
    apply Forall_app. split; [exact Hall |].
    apply Forall_cons. split; [| apply Forall_nil_2].
    repeat match goal with
           | E : DataView.getUint32 _ _ _ = Ok _ |- _ => apply raw_ok in E
           end.
    unfold entry_ok, Zip.with_sizes.
    cbn [startsAt fileNameLength extraLength signature fileName extra
         compressedSize].
    repeat split; try assumption; lia.
  - injection H as <-. cbn [Zip.push_local Zip.localFiles].
    apply Forall_app. split; [exact Hall |].
    apply Forall_cons. split; [| apply Forall_nil_2].
    unfold entry_ok, Zip.with_sizes.
    cbn [startsAt fileNameLength extraLength signature fileName extra
         compressedSize].
    repeat split; try assumption; lia.
Qed.

Lemma read_entries fuel : forall z z',
  0 <= Zip.index z ->
  Forall (entry_ok (byteLength (Zip.dataView z))) (Zip.localFiles z) ->
  Zip.read fuel z = Ok z' ->
  Zip.dataView z' = Zip.dataView z
  /\ Forall (entry_ok (byteLength (Zip.dataView z))) (Zip.localFiles z').
Proof.
  induction fuel as [| fuel IH]; intros z z' Hi Hall H.
  - cbn [Zip.read] in H.
    destruct (_ && _); [discriminate |]. injection H as <-.
    split; [reflexivity | exact Hall].
  - rewrite read_step in H.
    destruct (_ && _).
    2: { injection H as <-. split; [reflexivity | exact Hall]. }
    cbn zeta in H.
    destruct (DataView.getUint32 (Zip.dataView z) (Zip.index z) true)
      as [s |]; cbn [bind] in H; [| discriminate].
    destruct (s =? Zip.SIG_LOCAL).
    { destruct (Zip.local_file z) as [z1 |] eqn:E1; cbn [bind] in H;
        [| discriminate].
      pose proof (local_file_entries z z1 Hi Hall E1) as Hall1.
      apply local_file_progress in E1 as (Hd & _ & Hlt).
      rewrite <- Hd in *. apply (IH z1 z'); [lia | exact Hall1 | exact H]. }
    destruct (s =? Zip.SIG_CENTRAL).
    { destruct (Zip.readCentralDirectory _ _) as [c |] eqn:Ec;
        cbn [bind] in H; [| discriminate].
      apply readCentralDirectory_sizes in Ec as (? & ? & ?).
      apply IH in H; [exact H | cbn [Zip.push_central Zip.index]; lia
                     | exact Hall]. }
    destruct (s =? Zip.SIG_END).
    { destruct (Zip.readEndCentralDirectory _ _); cbn [bind] in H;
        [| discriminate].
      injection H as <-. split; [reflexivity | exact Hall]. }
    destruct (s =? Zip.SIG_END64).
    { destruct (Zip.readEndCentralDirectory64 _ _); cbn [bind] in H;
        [| discriminate].
      injection H as <-. split; [reflexivity | exact Hall]. }
    injection H as <-. split; [reflexivity | exact Hall].
Qed.

(** Every entry of an archive that [new Zip] accepts lies inside the
    buffer: its payload starts after a whole header and not past the end,
    its name and extra field have the lengths the header gives, and its
    compressed size is not negative.  The payload of a stored entry is
    then never longer than the compressed size. *)
Theorem Zip_entries_in_bounds inflateRaw buffer z :
  Zip.new buffer = Ok z ->
  Forall (fun e =>
            entry_ok (byteLength buffer) e
            /\ (compressionMethod e = 0 ->
                exists data,
                  Zip.extract inflateRaw z e = Ok data
                  /\ byteLength data
                     = Z.min (compressedSize e)
                         (byteLength buffer - startsAt e)))
         (Zip.entries z).
Proof.
  unfold Zip.new. intros H.
  apply read_entries in H as [Hd Hall];
    [| cbn; lia | apply Forall_nil_2].
  cbn [Zip.init Zip.dataView] in Hd, Hall.
  unfold Zip.entries. eapply Forall_impl; [exact Hall |].
  intros e He. split; [exact He |].
  destruct He as ([Hlo Hs] & _ & Hn & Hx & Hc).
  pose proof (Zle_0_nat (length (fileName e))).
  pose proof (Zle_0_nat (length (extra e))).
  intros Hm. unfold Zip.extract. rewrite Hm, Hd. cbn match.
  eexists. split; [reflexivity |].
  unfold slice, byteLength in *.
  destruct (Z.ltb_spec (startsAt e) 0); [exfalso; lia |].
  destruct (Z.ltb_spec (startsAt e + compressedSize e) 0); [exfalso; lia |].
  rewrite length_take, length_drop. lia.
Qed.

Lemma Zip_entries_in_bounds_witness :
  Forall (fun e =>
            entry_ok (byteLength Vec.zip_garbage) e
            /\ (compressionMethod e = 0 ->
                exists data,
                  Zip.extract no_decompress
                    (Zip.console_error
                       (Zip.push_local (Zip.init Vec.zip_garbage)
                          (Zip.with_sizes (Vec.header_entry 0 1 1) 31 0 1 1)
                          32)
                       (ZIP_unexpected_signature 0 32)) e = Ok data
                  /\ byteLength data
                     = Z.min (compressedSize e)
                         (byteLength Vec.zip_garbage - startsAt e)))
         [Zip.with_sizes (Vec.header_entry 0 1 1) 31 0 1 1].
Proof.
  apply (Zip_entries_in_bounds no_decompress Vec.zip_garbage
           (Zip.console_error
              (Zip.push_local (Zip.init Vec.zip_garbage)
                 (Zip.with_sizes (Vec.header_entry 0 1 1) 31 0 1 1) 32)
              (ZIP_unexpected_signature 0 32))).
  vm_compute. reflexivity.
Defined.

(** *** decompress: the format chosen for the files readMatV4 sends *)




(** *** readTRX: 64-bit arrays are narrowed to 32 bits *)

Lemma length_le64s vs : length (le64s vs) = (8 * length vs)%nat.
Proof.
  induction vs as [| v vs IH]; [reflexivity |].
  unfold le64s in *. cbn [flat_map length]. rewrite length_app, IH.
  rewrite length_le_bytes. lia.
Qed.

(** The words of a 64-bit array: the low and the high word of each value. *)
Lemma words32_le64s vs :
  Forall (fun v => 0 <= v < 2 ^ 64) vs ->
  words32 (le64s vs)
  = flat_map (fun v => [v mod 2 ^ 32; v / 2 ^ 32]) vs.
Proof.
  induction vs as [| v vs IH]; intros H; [reflexivity |].
  apply Forall_cons_1 in H as [Hv H].
  unfold le64s in *. cbn [flat_map].
  change 8%nat with (4 + 4)%nat at 1. rewrite le_bytes_app.
  pose proof (length_le_bytes 4 v) as Hl.
  pose proof (le_val_le_bytes 4 v) as Hlo.
  destruct (le_bytes 4 v) as [| b0 [| b1 [| b2 [| b3 [| b4 l]]]]];
    try discriminate Hl.
  set (hi := Z.shiftr v (8 * Z.of_nat 4)) in *.
  pose proof (length_le_bytes 4 hi) as Hl'.
  pose proof (le_val_le_bytes 4 hi) as Hhi.
  destruct (le_bytes 4 hi) as [| c0 [| c1 [| c2 [| c3 [| c4 l]]]]];
    try discriminate Hl'.
  cbn [app words32]. rewrite Hlo, Hhi, IH by exact H.
  change (256 ^ Z.of_nat 4) with (2 ^ 32). cbn [app]. f_equal.
  subst hi. rewrite Z.shiftr_div_pow2 by lia.
  change (8 * Z.of_nat 4) with 32. f_equal.
  apply Z.mod_small. split; [apply Z.div_pos; lia |].
  apply Z.div_lt_upper_bound; lia.
Qed.

Lemma lookup_pairs {A B} (f g : A -> B) (vs : list A) : forall i,
  flat_map (fun v => [f v; g v]) vs !! (2 * i)%nat = f <$> vs !! i
  /\ flat_map (fun v => [f v; g v]) vs !! (2 * i + 1)%nat = g <$> vs !! i.
Proof.
  induction vs as [| v vs IH]; intros i; [split; reflexivity |].
  destruct i as [| i]; [split; reflexivity |].
  cbn [flat_map app]. replace (2 * S i)%nat with (S (S (2 * i))) by lia.
  cbn [Nat.add lookup list_lookup]. apply IH.
Qed.

(** Filling a zeroed array from index 0 on. *)
Lemma fill_from {A} (f : nat -> A) m : forall k (l : list A),
  length l = (k + m)%nat ->
  fold_left (fun vals i => ta_set vals (Z.of_nat i) (f i)) (seq k m) l
  = take k l ++ map f (seq k m).
Proof.
  induction m as [| m IH]; intros k l Hl.
  - cbn [seq fold_left map]. rewrite app_nil_r, take_ge by lia. reflexivity.
  - cbn [seq fold_left map]. rewrite IH.
    + unfold ta_set. destruct (Z.ltb_spec (Z.of_nat k) 0); [exfalso; lia |].
      rewrite Nat2Z.id.
      rewrite (take_S_r _ k (f k)).
      * rewrite take_insert_ge by lia. rewrite <- app_assoc. reflexivity.
      * apply list_lookup_insert_eq. lia.
    + unfold ta_set. destruct (Z.of_nat k <? 0); rewrite ?length_insert; lia.
Qed.

Lemma map_lookup_seq {A B} (g : option A -> B) (vs : list A) :
  map (fun i => g (vs !! i)) (seq 0 (length vs)) = map (fun v => g (Some v)) vs.
Proof.
  induction vs as [| v vs IH]; [reflexivity |].
  cbn [length seq map lookup list_lookup]. f_equal.
  rewrite <- seq_shift, map_map. exact IH.
Qed.

Lemma existsb_via_map {A B} (p : B -> bool) (g : A -> B) (l : list A) :
  existsb p (map g l) = existsb (fun a => p (g a)) l.
Proof.
  induction l as [| a l IH]; [reflexivity |].
  cbn [map existsb]. rewrite IH. reflexivity.
Qed.

Lemma existsb_pointwise {A} (p q : A -> bool) (l : list A) :
  (forall a, p a = q a) -> existsb p l = existsb q l.
Proof.
  intros H. induction l as [| a l IH]; [reflexivity |].
  cbn [existsb]. rewrite H, IH. reflexivity.
Qed.

Lemma read64_le64s vs :
  Forall (fun v => 0 <= v < 2 ^ 64) vs ->
  Trx.read64 (le64s vs)
  = Ok ({| ta_kind := Uint32;
           ta_buffer := le32s (map (fun v => v mod 2 ^ 32) vs) |},
        existsb (fun v => 2 ^ 32 <=? v) vs).
Proof.
  intros Hvs. unfold Trx.read64. cbn zeta.
  assert (Hlen : byteLength (le64s vs) = 8 * Z.of_nat (length vs)).
  { unfold byteLength. rewrite length_le64s. lia. }
  unfold view. rewrite Hlen.
  replace (8 * Z.of_nat (length vs) mod Z.of_nat (BYTES_PER_ELEMENT Uint32))
    with 0.
  2: { change (Z.of_nat (BYTES_PER_ELEMENT Uint32)) with 4.
       replace (8 * Z.of_nat (length vs)) with (2 * Z.of_nat (length vs) * 4)
         by lia.
       rewrite Z.mod_mul by lia. reflexivity. }
  cbn [Z.eqb bind].
  replace ((8 * Z.of_nat (length vs) + 7) / 8) with (Z.of_nat (length vs)).
  2: { apply (Z.div_unique_pos _ 8 _ 7); lia. }
  replace (8 * Z.of_nat (length vs) / 8) with (Z.of_nat (length vs)).
  2: { apply (Z.div_unique_pos _ 8 _ 0); lia. }
  rewrite Nat2Z.id. unfold new_Uint32Array. rewrite Nat2Z.id.
  rewrite words32_le64s by exact Hvs.
  rewrite fill_from by (rewrite length_replicate; reflexivity).
  rewrite take_0, app_nil_l.
  set (W := flat_map (fun v => [v mod 2 ^ 32; v / 2 ^ 32]) vs).
  assert (Hvals : map (fun i => match W !! (2 * i)%nat with
                                | Some w => w
                                | None => 0
                                end) (seq 0 (length vs))
                  = map (fun v => v mod 2 ^ 32) vs).
  { transitivity
      (map (fun i => match (fun v => v mod 2 ^ 32) <$> vs !! i with
                     | Some w => w
                     | None => 0
                     end) (seq 0 (length vs))).
    - apply map_ext. intros i. subst W.
      rewrite (proj1 (lookup_pairs _ _ vs i)). reflexivity.
    - exact (map_lookup_seq
               (fun o => match (fun v => v mod 2 ^ 32) <$> o with
                         | Some w => w
                         | None => 0
                         end) vs). }
  assert (Hover : existsb (fun i => match W !! (2 * i + 1)%nat with
                                    | Some w => negb (w =? 0)
                                    | None => true
                                    end) (seq 0 (length vs))
                  = existsb (fun v => 2 ^ 32 <=? v) vs).
  { transitivity
      (existsb (fun o : option Z => match o with
                                    | Some v => 2 ^ 32 <=? v
                                    | None => true
                                    end)
         (map (fun i => vs !! i) (seq 0 (length vs)))).
    - rewrite existsb_via_map. apply existsb_pointwise. intros i. subst W.
      rewrite (proj2 (lookup_pairs _ _ vs i)).
      destruct (vs !! i) as [v |] eqn:Ev; [| reflexivity].
      cbn [fmap option_fmap option_map].
      rewrite Forall_forall in Hvs.
      assert (Hv : 0 <= v < 2 ^ 64).
      { apply Hvs. eapply list_elem_of_lookup_2. exact Ev. }
      destruct (Z.eqb_spec (v / 2 ^ 32) 0) as [Hz | Hz];
        destruct (Z.leb_spec (2 ^ 32) v) as [Hle | Hlt];
        try reflexivity; exfalso.
      + apply Z.div_small_iff in Hz; lia.
      + apply Hz. apply Z.div_small. lia.
    - rewrite (map_lookup_seq (fun o => o) vs).
      rewrite existsb_via_map. reflexivity. }
  rewrite Hvals, Hover. reflexivity.
Qed.

(** An array of 64-bit values is narrowed to the low 32 bits of each, and
    the overflow flag is raised exactly when some value does not fit. *)
Theorem read64_narrows vs :
  Forall (fun v => 0 <= v < 2 ^ 64) vs ->
  Trx.read64 (le64s vs)
  = Ok ({| ta_kind := Uint32;
           ta_buffer := le32s (map (fun v => v mod 2 ^ 32) vs) |},
        existsb (fun v => 2 ^ 32 <=? v) vs).
Proof. exact (read64_le64s vs). Qed.

Lemma read64_narrows_witness :
  Trx.read64 (le64s [5; 2 ^ 32 + 7])
  = Ok ({| ta_kind := Uint32;
           ta_buffer := le32s (map (fun v => v mod 2 ^ 32) [5; 2 ^ 32 + 7]) |},
        existsb (fun v => 2 ^ 32 <=? v) [5; 2 ^ 32 + 7]).
Proof.
  apply (read64_narrows [5; 2 ^ 32 + 7]).
  repeat (apply Forall_cons; split; [lia |]). apply Forall_nil_2.
Defined.

(** *** readTRX: the round trip of offsets and positions *)

(** Evaluation of the tests [readTRX] makes on a file name. *)
Ltac ev t := let v := eval vm_compute in t in change t with v.
Ltac trx_names :=
  repeat match goal with
         | |- context [Text.split ?a (Text.str ?b)] =>
             ev (Text.split a (Text.str b))
         end;
  repeat match goal with
         | |- context [List.last ?a ?b] => ev (List.last a b)
         end;
  repeat match goal with
         | |- context [hd [] (slice ?a ?b ?c)] => ev (hd [] (slice a b c))
         end;
  repeat match goal with
         | |- context [hd [] (Text.split ?a ?b)] => ev (hd [] (Text.split a b))
         end;
  repeat match goal with
         | |- context [Text.startsWith ?a ?b] => ev (Text.startsWith a b)
         end;
  repeat match goal with
         | |- context [Text.includes ?a ?b] => ev (Text.includes a b)
         end;
  unfold Trx.read_array;
  repeat match goal with
         | |- context [Trx.suffix ?a ?b] => ev (Trx.suffix a b)
         end;
  cbn [orb].

Section TrxRoundTrip.
Variable inflateRaw : list byte -> result (list byte).
Variable J : Type.
Variable JSON_parse : list byte -> result J.

Lemma entry_step_offsets zip (st : Trx.state J) e ws :
  fileName e = Text.str "offsets.uint32" ->
  uncompressedSize e <> 0 ->
  Zip.extract inflateRaw zip e = Ok (le32s ws) ->
  Forall (fun w => 0 <= w < 2 ^ 32) ws ->
  Trx.entry_step inflateRaw J JSON_parse zip st e
  = Ok {| Trx.noff := Z.of_nat (length ws); Trx.npt := Trx.npt st;
          Trx.pts := Trx.pts st; Trx.offsetPt0 := Some ws;
          Trx.dpg := Trx.dpg st; Trx.dps := Trx.dps st;
          Trx.dpv := Trx.dpv st; Trx.header := Trx.header st;
          Trx.isOverflowUint64 := Trx.isOverflowUint64 st |}.
Proof.
  intros Hname Hsize Hdata Hws. unfold Trx.entry_step.
  destruct (Z.eqb_spec (uncompressedSize e) 0) as [| _]; [contradiction |].
  rewrite Hname, Hdata. cbn zeta. trx_names. cbn [bind].
  rewrite view_le32s by reflexivity. cbn [bind ta_buffer].
  rewrite view_le32s by reflexivity. cbn [bind].
  rewrite ta_length_le32s by reflexivity.
  rewrite words32_le32s by exact Hws.
  rewrite orb_false_r. reflexivity.
Qed.

Lemma entry_step_positions zip (st : Trx.state J) e ws :
  fileName e = Text.str "positions.3.float32" ->
  uncompressedSize e <> 0 ->
  Zip.extract inflateRaw zip e = Ok (le32s ws) ->
  Forall (fun w => 0 <= w < 2 ^ 32) ws ->
  Trx.entry_step inflateRaw J JSON_parse zip st e
  = Ok {| Trx.noff := Trx.noff st; Trx.npt := Z.of_nat (length ws);
          Trx.pts := Some (map of_bits32 ws);
          Trx.offsetPt0 := Trx.offsetPt0 st;
          Trx.dpg := Trx.dpg st; Trx.dps := Trx.dps st;
          Trx.dpv := Trx.dpv st; Trx.header := Trx.header st;
          Trx.isOverflowUint64 := Trx.isOverflowUint64 st |}.
Proof.
  intros Hname Hsize Hdata Hws. unfold Trx.entry_step.
  destruct (Z.eqb_spec (uncompressedSize e) 0) as [| _]; [contradiction |].
  rewrite Hname, Hdata. cbn zeta. trx_names. cbn [bind].
  rewrite view_le32s by reflexivity. cbn [bind ta_buffer].
  rewrite view_le32s by reflexivity. cbn [bind].
  rewrite ta_length_le32s by reflexivity.
  rewrite words32_le32s by exact Hws.
  rewrite orb_false_r. reflexivity.
Qed.

(** The two entries of a tractogram archive. *)
Lemma trx_archive_entries name odata bits trailing :
  byteLength (Text.str name) < 65536 ->
  byteLength odata < 0xffffffff ->
  Z.of_nat (length bits) < 2 ^ 30 - 1 ->
  exists z e1 e2,
    Zip.new (trx_archive name odata bits ++ trailing) = Ok z
    /\ Zip.entries z = [e1; e2]
    /\ fileName e1 = Text.str name
    /\ uncompressedSize e1 = byteLength odata
    /\ Zip.extract inflateRaw z e1 = Ok odata
    /\ fileName e2 = Text.str "positions.3.float32"
    /\ uncompressedSize e2 = 4 * Z.of_nat (length bits)
    /\ Zip.extract inflateRaw z e2 = Ok (le32s bits).
Proof.
  intros Hn Ho Hb. unfold trx_archive.
  set (fo := (Text.str name, odata)).
  set (fp := (Text.str "positions.3.float32", le32s bits)).
  destruct (new_stored [fo; fp] trailing) as [z [Hr [Hd [He _]]]].
  { apply Forall_cons. split; [split; [exact Hn | exact Ho] |].
    apply Forall_cons. split; [| apply Forall_nil_2].
    split; [reflexivity |]. cbn [fp snd]. unfold byteLength.
    rewrite length_le32s. lia. }
  set (dir := flat_map central_record [fo; fp] ++ Vec.zip_end ++ trailing).
  assert (Hdo : Zip.dataView z
                = [] ++ stored_record fo ++ stored_record fp ++ dir).
  { rewrite Hd. unfold stored_archive. subst dir. cbn [flat_map app].
    rewrite <- !app_assoc. reflexivity. }
  assert (Hdp : Zip.dataView z
                = stored_record fo ++ stored_record fp ++ dir).
  { exact Hdo. }
  exists z, (stored_entry 0 fo),
    (stored_entry (0 + byteLength (stored_record fo)) fp).
  split; [exact Hr |]. split; [exact He |].
  split; [reflexivity |]. split; [reflexivity |].
  split; [apply (extract_stored inflateRaw z [] fo _ Hdo) |].
  split; [reflexivity |]. split.
  - cbn [stored_entry uncompressedSize fp snd]. unfold byteLength.
    rewrite length_le32s. lia.
  - change (0 + byteLength (stored_record fo))
      with (byteLength (stored_record fo)).
    apply (extract_stored inflateRaw z (stored_record fo) fp _ Hdp).
Qed.

Lemma length_nonzero {A} (l : list A) : l <> [] -> Z.of_nat (length l) <> 0.
Proof. destruct l; [congruence | cbn [length]; lia]. Qed.

(** A tractogram stored as [offsets.uint32] and [positions.3.float32] is
    read back: the positions are the stored binary32 values and the offsets
    are the stored offsets, with nothing appended, since the write of the
    final offset falls past the end of the array. *)
Theorem readTRX_round_trip offsets bits trailing :
  offsets <> [] -> bits <> [] ->
  Forall (fun w => 0 <= w < 2 ^ 32) offsets ->
  Forall (fun w => 0 <= w < 2 ^ 32) bits ->
  Z.of_nat (length offsets) < 2 ^ 30 - 1 ->
  Z.of_nat (length bits) < 2 ^ 30 - 1 ->
  Trx.readTRX inflateRaw J JSON_parse
    (trx_archive "offsets.uint32" (le32s offsets) bits ++ trailing)
  = Ok {| trx_pts := map of_bits32 bits; trx_offsetPt0 := offsets;
          trx_dpg := []; trx_dps := []; trx_dpv := [];
          trx_header := None |}.
Proof.
  intros Ho Hb Hor Hbr Hol Hbl. unfold Trx.readTRX.
  apply length_nonzero in Ho, Hb.
  destruct (trx_archive_entries "offsets.uint32" (le32s offsets) bits trailing)
    as (z & e1 & e2 & Hr & He & Hn1 & Hs1 & Hx1 & Hn2 & Hs2 & Hx2);
    [reflexivity | unfold byteLength; rewrite length_le32s; lia | exact Hbl |].
  unfold byteLength in Hs1. rewrite length_le32s in Hs1.
  rewrite Hr. cbn [bind]. rewrite He. cbn [Trx.entries_loop].
  rewrite (entry_step_offsets z _ e1 offsets Hn1 ltac:(lia) Hx1 Hor).
  cbn [bind].
  rewrite (entry_step_positions z _ e2 bits Hn2 ltac:(lia) Hx2 Hbr).
  cbn [bind Trx.noff Trx.npt Trx.pts Trx.offsetPt0 Trx.dpg Trx.dps Trx.dpv
       Trx.header Trx.isOverflowUint64].
  destruct (Z.eqb_spec (Z.of_nat (length offsets)) 0); [contradiction |].
  destruct (Z.eqb_spec (Z.of_nat (length bits)) 0); [contradiction |].
  cbn [orb]. unfold ta_set.
  destruct (Z.ltb_spec (Z.of_nat (length offsets)) 0); [exfalso; lia |].
  rewrite list_insert_ge by lia. reflexivity.
Qed.
Lemma entry_step_offsets64 zip (st : Trx.state J) e vs :
  fileName e = Text.str "offsets.uint64" ->
  uncompressedSize e <> 0 ->
  Zip.extract inflateRaw zip e = Ok (le64s vs) ->
  Forall (fun v => 0 <= v < 2 ^ 64) vs ->
  Trx.entry_step inflateRaw J JSON_parse zip st e
  = Ok {| Trx.noff := Z.of_nat (length vs); Trx.npt := Trx.npt st;
          Trx.pts := Trx.pts st;
          Trx.offsetPt0 := Some (map (fun v => v mod 2 ^ 32) vs);
          Trx.dpg := Trx.dpg st; Trx.dps := Trx.dps st;
          Trx.dpv := Trx.dpv st; Trx.header := Trx.header st;
          Trx.isOverflowUint64 :=
            Trx.isOverflowUint64 st || existsb (fun v => 2 ^ 32 <=? v) vs |}.
Proof.
  intros Hname Hsize Hdata Hvs. unfold Trx.entry_step.
  destruct (Z.eqb_spec (uncompressedSize e) 0) as [| _]; [contradiction |].
  rewrite Hname, Hdata. cbn zeta. trx_names. cbn [bind].
  rewrite read64_le64s by exact Hvs. cbn [bind ta_buffer].
  rewrite view_le32s by reflexivity. cbn [bind].
  rewrite ta_length_le32s by reflexivity.
  rewrite length_map.
  rewrite words32_le32s; [reflexivity |].
  apply Forall_map. apply Forall_forall. intros v _. cbv beta.
  apply Z.mod_pos_bound. lia.
Qed.

(** Offsets stored as 64-bit integers: the file is refused when an offset
    does not fit 32 bits, and is otherwise read as with 32-bit offsets. *)
Theorem readTRX_uint64_offsets offsets bits trailing :
  offsets <> [] -> bits <> [] ->
  Forall (fun v => 0 <= v < 2 ^ 64) offsets ->
  Forall (fun w => 0 <= w < 2 ^ 32) bits ->
  Z.of_nat (length offsets) < 2 ^ 29 - 1 ->
  Z.of_nat (length bits) < 2 ^ 30 - 1 ->
  Trx.readTRX inflateRaw J JSON_parse
    (trx_archive "offsets.uint64" (le64s offsets) bits ++ trailing)
  = if existsb (fun v => 2 ^ 32 <=? v) offsets
    then Throw TRX_too_many_vertices
    else Ok {| trx_pts := map of_bits32 bits; trx_offsetPt0 := offsets;
               trx_dpg := []; trx_dps := []; trx_dpv := [];
               trx_header := None |}.
Proof.
  intros Ho Hb Hor Hbr Hol Hbl. unfold Trx.readTRX.
  apply length_nonzero in Ho, Hb.
  destruct (trx_archive_entries "offsets.uint64" (le64s offsets) bits trailing)
    as (z & e1 & e2 & Hr & He & Hn1 & Hs1 & Hx1 & Hn2 & Hs2 & Hx2);
    [reflexivity | unfold byteLength; rewrite length_le64s; lia | exact Hbl |].
  unfold byteLength in Hs1. rewrite length_le64s in Hs1.
  rewrite Hr. cbn [bind]. rewrite He. cbn [Trx.entries_loop].
  rewrite (entry_step_offsets64 z _ e1 offsets Hn1 ltac:(lia) Hx1 Hor).
  cbn [bind].
  rewrite (entry_step_positions z _ e2 bits Hn2 ltac:(lia) Hx2 Hbr).
  cbn [bind Trx.noff Trx.npt Trx.pts Trx.offsetPt0 Trx.dpg Trx.dps Trx.dpv
       Trx.header Trx.isOverflowUint64 orb].
  destruct (Z.eqb_spec (Z.of_nat (length offsets)) 0); [contradiction |].
  destruct (Z.eqb_spec (Z.of_nat (length bits)) 0); [contradiction |].
  cbn [orb].
  destruct (existsb (fun v => 2 ^ 32 <=? v) offsets) eqn:Hex; [reflexivity |].
  unfold ta_set.
  destruct (Z.ltb_spec (Z.of_nat (length offsets)) 0); [exfalso; lia |].
  rewrite list_insert_ge by (rewrite length_map; lia).
  f_equal. f_equal.
  rewrite <- (map_id offsets) at 2. apply map_ext_in. intros v Hv.
  apply Z.mod_small.
  rewrite Forall_forall in Hor. split; [apply Hor, list_elem_of_In, Hv |].
  destruct (Z.ltb_spec v (2 ^ 32)) as [Hlt | Hge]; [exact Hlt |].
  exfalso. assert (Ht : existsb (fun v => 2 ^ 32 <=? v) offsets = true).
  { apply existsb_exists. exists v. split; [exact Hv |].
    apply Z.leb_le. exact Hge. }
  congruence.
Qed.
End TrxRoundTrip.

Lemma readTRX_round_trip_witness :
  Trx.readTRX no_decompress _ json_text
    (trx_archive "offsets.uint32" (le32s [0; 7]) [Vec.f1; Vec.f2; Vec.f3]
     ++ [x00])
  = Ok {| trx_pts := map of_bits32 [Vec.f1; Vec.f2; Vec.f3];
          trx_offsetPt0 := [0; 7];
          trx_dpg := []; trx_dps := []; trx_dpv := [];
          trx_header := None |}.
Proof.
  apply (readTRX_round_trip no_decompress _ json_text [0; 7]
           [Vec.f1; Vec.f2; Vec.f3] [x00]);
    first [ discriminate | reflexivity
          | repeat (apply Forall_cons;
                    split; [vm_compute; split; [discriminate | reflexivity] |]);
            apply Forall_nil_2 ].
Defined.

Lemma readTRX_uint64_offsets_witness :
  Trx.readTRX no_decompress _ json_text
    (trx_archive "offsets.uint64" (le64s [0; 2 ^ 32])
       [Vec.f1; Vec.f2; Vec.f3] ++ [])
  = if existsb (fun v => 2 ^ 32 <=? v) [0; 2 ^ 32]
    then Throw TRX_too_many_vertices
    else Ok {| trx_pts := map of_bits32 [Vec.f1; Vec.f2; Vec.f3];
               trx_offsetPt0 := [0; 2 ^ 32];
               trx_dpg := []; trx_dps := []; trx_dpv := [];
               trx_header := None |}.
Proof.
  apply (readTRX_uint64_offsets no_decompress _ json_text [0; 2 ^ 32]
           [Vec.f1; Vec.f2; Vec.f3] []);
    first [ discriminate | reflexivity
          | repeat (apply Forall_cons;
                    split; [vm_compute; split; [discriminate | reflexivity] |]);
            apply Forall_nil_2 ].
Defined.

(** *** readMatV4: the round trip of a file of variables *)

Lemma slice_app_middle {A} (a b c : list A) p q :
  p = Z.of_nat (length a) -> q = Z.of_nat (length a) + Z.of_nat (length b) ->
  slice (a ++ b ++ c) p q = b.
Proof.
  intros -> ->. rewrite slice_within by (rewrite ?length_app; lia).
  rewrite Nat2Z.id, drop_app_length.
  replace (Z.to_nat _) with (length b) by lia.
  apply take_app_length.
Qed.

Lemma equal_eq a : forall b, Text.equal a b = true <-> a = b.
Proof.
  induction a as [| x a IH]; intros [| y b]; cbn [Text.equal];
    try (split; [discriminate | discriminate]); [tauto |].
  rewrite andb_true_iff, IH. unfold Text.eqb. split.
  - intros [Hx ->]. apply Byte.byte_dec_bl in Hx. subst. reflexivity.
  - intros H. injection H as -> ->. split; [| reflexivity].
    apply Byte.byte_dec_lb. reflexivity.
Qed.

Lemma equal_refl a : Text.equal a a = true.
Proof. apply equal_eq. reflexivity. Qed.

(** The decoder keeps ASCII text. *)
Lemma utf8_ascii s :
  forallb (fun b => byte_val b <? 128) s = true ->
  Text.utf8 s [] O 128 191 = s.
Proof.
  induction s as [| c s IH]; intros H; [reflexivity |].
  cbn [forallb] in H. apply andb_true_iff in H as [Hc H].
  cbn [Text.utf8]. rewrite Hc. f_equal. apply IH. exact H.
Qed.

Lemma decode_ascii s :
  forallb (fun b => byte_val b <? 128) s = true ->
  Text.decode s = s.
Proof.
  intros H. unfold Text.decode. rewrite (utf8_ascii s H).
  destruct s as [| c0 [| c1 [| c2 s]]]; try reflexivity.
  cbn [forallb] in H. apply andb_true_iff in H as [Hc _].
  assert (E : Text.eqb c0 xef = false).
  { destruct (Text.eqb c0 xef) eqn:E; [| reflexivity].
    apply Byte.byte_dec_bl in E. subst c0. discriminate Hc. }
  rewrite E. reflexivity.
Qed.

Lemma strip_none ws fuel s :
  Text.after ws s = None -> Text.strip ws fuel s = s.
Proof. intros H. destruct fuel; cbn [Text.strip]; rewrite ?H; reflexivity. Qed.

(** An ASCII character that is no white space begins no white space. *)
Lemma after_plain c rest :
  (byte_val c <? 128) = true ->
  ((9 <=? byte_val c) && (byte_val c <=? 13)) || (byte_val c =? 32) = false ->
  Text.after Text.spaces (c :: rest) = None.
Proof.
  intros H1 H2.
  destruct c; first [discriminate H1 | discriminate H2 | reflexivity].
Qed.

Lemma trim_name name :
  plain_name name = true ->
  List.filter (fun b => negb (Text.eqb b x00))
    (Text.trim (Text.decode (name ++ [x00])))
  = name.
Proof.
  unfold plain_name. intros H.
  apply andb_true_iff in H as [H _]. apply andb_true_iff in H as [Ha Hs].
  assert (Hd : Text.decode (name ++ [x00]) = name ++ [x00]).
  { apply decode_ascii. rewrite forallb_app. cbn [forallb].
    rewrite andb_true_r.
    apply forallb_forall. intros b Hb.
    rewrite forallb_forall in Ha. apply Ha in Hb.
    apply andb_true_iff in Hb as [_ Hb]. exact Hb. }
  assert (Ht : Text.trim (name ++ [x00]) = name ++ [x00]).
  { unfold Text.trim, Text.trimEnd, Text.trimStart.
    assert (Hstart : Text.after Text.spaces (name ++ [x00]) = None).
    { destruct name as [| c name]; [reflexivity |].
      cbn [forallb] in Ha. apply andb_true_iff in Ha as [Hc _].
      apply andb_true_iff in Hc as [_ Hc].
      apply negb_true_iff in Hs.
      apply after_plain; assumption. }
    rewrite (strip_none _ _ _ Hstart).
    rewrite rev_app_distr. cbn [rev app].
    rewrite strip_none by reflexivity.
    change (x00 :: rev name) with (rev [x00] ++ rev name).
    rewrite <- rev_app_distr, rev_involutive. reflexivity. }
  rewrite Hd, Ht, List.filter_app. cbn [List.filter].
  change (negb (Text.eqb x00 x00)) with false. cbn match.
  rewrite app_nil_r. clear Hs Ht Hd.
  induction name as [| c name IH]; [reflexivity |].
  cbn [forallb] in Ha. apply andb_true_iff in Ha as [Hc Ha].
  apply andb_true_iff in Hc as [Hc _].
  cbn [List.filter].
  assert (E : Text.eqb c x00 = false).
  { destruct (Text.eqb c x00) eqn:E; [| reflexivity].
    apply Byte.byte_dec_bl in E. subst c. discriminate Hc. }
  rewrite E. cbn [negb]. f_equal. apply IH. exact Ha.
Qed.

Lemma not_proto name :
  plain_name name = true ->
  Text.equal name (Text.str "__proto__") = false.
Proof.
  unfold plain_name. intros H. apply andb_true_iff in H as [_ H].
  apply negb_true_iff in H. exact H.
Qed.

(** *** The object that the assignments build *)

Lemma mat_get_set mat n a name :
  mat_get (mat_set mat n a) name
  = if Text.equal n name then Some a else mat_get mat name.
Proof.
  induction mat as [| [n' a'] mat IH]; [reflexivity |].
  cbn [mat_set]. destruct (Text.equal n' n) eqn:E.
  - apply equal_eq in E. subst n'. cbn [mat_get].
    destruct (Text.equal n name); reflexivity.
  - cbn [mat_get]. rewrite IH.
    destruct (Text.equal n' name) eqn:E1; [| reflexivity].
    destruct (Text.equal n name) eqn:E2; [| reflexivity].
    apply equal_eq in E1, E2. subst. rewrite equal_refl in E. discriminate.
Qed.

Lemma mat_get_assigned vars : forall mat name,
  mat_get (assigned vars mat) name
  = match last_named vars name with
    | Some a => Some a
    | None => mat_get mat name
    end.
Proof.
  induction vars as [| v vars IH]; intros mat name; [reflexivity |].
  cbn [assigned fold_left last_named].
  fold (assigned vars (mat_set mat (mv_name v) (mat_array v))).
  rewrite IH. destruct (last_named vars name); [reflexivity |].
  rewrite mat_get_set.
  destruct (Text.equal (mv_name v) name); reflexivity.
Qed.

Lemma names_set mat n a x :
  In x (map fst (mat_set mat n a)) -> x = n \/ In x (map fst mat).
Proof.
  induction mat as [| [n' a'] mat IH]; cbn [mat_set map fst In].
  - intros [<- | []]. left. reflexivity.
  - destruct (Text.equal n' n); cbn [map fst In].
    + intros H. right. exact H.
    + intros [<- | H]; [right; left; reflexivity |].
      apply IH in H as [-> | H]; [left; reflexivity | right; right; exact H].
Qed.

Lemma NoDup_set mat n a :
  List.NoDup (map fst mat) -> List.NoDup (map fst (mat_set mat n a)).
Proof.
  induction mat as [| [n' a'] mat IH]; cbn [mat_set map fst]; intros H.
  - constructor; [intros [] | constructor].
  - inversion H as [| ? ? Hn Hd]; subst.
    destruct (Text.equal n' n) eqn:E; cbn [map fst].
    + constructor; assumption.
    + constructor; [| apply IH; exact Hd].
      intros Hin. apply names_set in Hin as [-> | Hin]; [| tauto].
      rewrite equal_refl in E. discriminate.
Qed.

Lemma NoDup_assigned vars : forall mat,
  List.NoDup (map fst mat) -> List.NoDup (map fst (assigned vars mat)).
Proof.
  induction vars as [| v vars IH]; intros mat H; [exact H |].
  cbn [assigned fold_left]. apply IH, NoDup_set, H.
Qed.

Lemma mat_set_new mat n a :
  ~ In n (map fst mat) -> mat_set mat n a = mat ++ [(n, a)].
Proof.
  induction mat as [| [n' a'] mat IH]; cbn [mat_set map fst In app];
    intros H; [reflexivity |].
  destruct (Text.equal n' n) eqn:E.
  - apply equal_eq in E. tauto.
  - f_equal. apply IH. tauto.
Qed.

Lemma assigned_distinct vars : forall mat,
  (forall v, In v vars -> ~ In (mv_name v) (map fst mat)) ->
  List.NoDup (map mv_name vars) ->
  assigned vars mat = mat ++ map mat_entry vars.
Proof.
  induction vars as [| v vars IH]; intros mat Hnew Hd.
  - cbn [assigned fold_left map]. rewrite app_nil_r. reflexivity.
  - cbn [map] in Hd. inversion Hd as [| ? ? Hn Hd']; subst.
    cbn [assigned fold_left].
    fold (assigned vars (mat_set mat (mv_name v) (mat_array v))).
    rewrite mat_set_new by (apply Hnew; left; reflexivity).
    rewrite IH; [rewrite <- app_assoc; reflexivity | | exact Hd'].
    intros v' Hv'. rewrite map_app, in_app_iff. cbn [map fst In].
    intros [Hin | [Heq | []]].
    + apply (Hnew v'); [right; exact Hv' | exact Hin].
    + apply Hn. rewrite Heq. apply in_map. exact Hv'.
Qed.

Lemma mat_digit mtype :
  0 <= mtype <= 50 ->
  let d := MatV4.getTensDigit mtype in
  d = 0 \/ d = 1 \/ d = 2 \/ d = 3 \/ d = 4 \/ d = 5.
Proof.
  intros H. unfold MatV4.getTensDigit. cbn zeta.
  assert (0 <= mtype / 10 <= 5).
  { split; [apply Z.div_pos; lia | apply Z.div_le_upper_bound; lia]. }
  rewrite Z.mod_small by lia. lia.
Qed.

Lemma byteLength_mat_record v :
  byteLength (mat_record v)
  = 20 + (byteLength (mv_name v) + 1) + byteLength (mv_data v).
Proof.
  unfold mat_record. rewrite !byteLength_app.
  unfold Vec.le32, byteLength. rewrite !length_le_bytes. cbn [length]. lia.
Qed.

(** One tag is read back, whatever surrounds it. *)
Lemma readTag_mat_record pre v post mat :
  mat_var_ok v ->
  MatV4.readTag (pre ++ mat_record v ++ post) (byteLength pre) mat
  = Ok (byteLength pre + byteLength (mat_record v),
        mat_set mat (mv_name v) (mat_array v)).
Proof.
  intros (Ht & Hr & Hc & Hrc & Hd & Hnl & Hn).
  pose proof (Zle_0_nat (length (mv_name v))) as Hn0.
  unfold MatV4.readTag, DataView.getUint32.
  set (chunks := [Vec.le32 (mv_type v); Vec.le32 (mv_rows v);
                  Vec.le32 (mv_cols v); Vec.le32 0;
                  Vec.le32 (byteLength (mv_name v) + 1);
                  mv_name v ++ [x00]; mv_data v]).
  assert (Hrec : mat_record v = concat chunks).
  { unfold mat_record. subst chunks. cbn [concat]. rewrite app_nil_r.
    reflexivity. }
  rewrite Hrec.
  rewrite (word_at pre chunks post 0 3 (mv_type v))
    by first [ reflexivity
             | change (Z.of_nat (length (concat (take 0 chunks)))) with 0; lia
             | change (Z.of_nat 4) with 4; lia ].
  cbn [bind].
  rewrite (word_at pre chunks post 1 3 (mv_rows v))
    by first [ reflexivity | change (Z.of_nat 4) with 4; lia ].
  cbn [bind].
  rewrite (word_at pre chunks post 2 3 (mv_cols v))
    by first [ reflexivity | change (Z.of_nat 4) with 4; lia ].
  cbn [bind].
  rewrite (word_at pre chunks post 3 3 0)
    by first [ reflexivity | change (Z.of_nat 4) with 4; lia ].
  cbn [bind].
  rewrite (word_at pre chunks post 4 3 (byteLength (mv_name v) + 1))
    by first [ reflexivity
             | change (Z.of_nat 4) with 4; unfold byteLength in *; lia ].
  cbn [bind]. change (negb (0 =? 0)) with false. cbn match.
  destruct (Z.ltb_spec (mv_rows v * mv_cols v) 1); [exfalso; lia |].
  set (hdr := Vec.le32 (mv_type v) ++ Vec.le32 (mv_rows v)
              ++ Vec.le32 (mv_cols v) ++ Vec.le32 0
              ++ Vec.le32 (byteLength (mv_name v) + 1)).
  assert (Hh : length hdr = 20%nat).
  { subst hdr. rewrite !length_app. unfold Vec.le32.
    rewrite !length_le_bytes. reflexivity. }
  assert (Hname : slice (pre ++ concat chunks ++ post)
                    (byteLength pre + 20)
                    (byteLength pre + 20 + (byteLength (mv_name v) + 1))
                  = mv_name v ++ [x00]).
  { replace (pre ++ concat chunks ++ post)
      with ((pre ++ hdr) ++ (mv_name v ++ [x00]) ++ (mv_data v ++ post)).
    - apply slice_app_middle; unfold byteLength;
        rewrite !length_app, ?Hh; cbn [length]; lia.
    - subst chunks hdr. cbn [concat]. rewrite <- !app_assoc. reflexivity. }
  rewrite Hname, trim_name by exact Hn.
  pose proof (mat_digit (mv_type v) Ht) as Hdig. cbn zeta in Hdig.
  assert (Hbpe : forall k,
            (if (1 <=? MatV4.getTensDigit (mv_type v))
                && (MatV4.getTensDigit (mv_type v) <=? 2) then Ok 4
             else if (3 <=? MatV4.getTensDigit (mv_type v))
                     && (MatV4.getTensDigit (mv_type v) <=? 4) then Ok 2
             else if MatV4.getTensDigit (mv_type v) =? 5 then Ok 1
             else if negb (MatV4.getTensDigit (mv_type v) =? 0)
                  then Throw MAT_impossible_datatype
             else Ok 8)
            = Ok (Z.of_nat (BYTES_PER_ELEMENT (mat_kind (mv_type v))))
            /\ (byteLength k
                = mv_rows v * mv_cols v
                  * Z.of_nat (BYTES_PER_ELEMENT (mat_kind (mv_type v))) ->
                MatV4.readArray (MatV4.getTensDigit (mv_type v))
                  (pre ++ concat chunks ++ post)
                  (byteLength pre + 20 + (byteLength (mv_name v) + 1))
                  (byteLength pre + 20 + (byteLength (mv_name v) + 1)
                   + byteLength k)
                = (let byteArray :=
                     slice (pre ++ concat chunks ++ post)
                       (byteLength pre + 20 + (byteLength (mv_name v) + 1))
                       (byteLength pre + 20 + (byteLength (mv_name v) + 1)
                        + byteLength k) in
                   view (mat_kind (mv_type v)) byteArray))).
  { intros k. unfold mat_kind, MatV4.readArray. cbn zeta.
    destruct Hdig as [E | [E | [E | [E | [E | E]]]]]; rewrite E;
      split; reflexivity. }
  destruct (Hbpe (mv_data v)) as [Hb Ha]. rewrite Hb. cbn [bind].
  destruct (Z.ltb_spec 50 (mv_type v)); [exfalso; lia |].
  rewrite <- Hd. rewrite Ha by exact Hd. cbn zeta.
  assert (Hdata : slice (pre ++ concat chunks ++ post)
                    (byteLength pre + 20 + (byteLength (mv_name v) + 1))
                    (byteLength pre + 20 + (byteLength (mv_name v) + 1)
                     + byteLength (mv_data v))
                  = mv_data v).
  { replace (pre ++ concat chunks ++ post)
      with ((pre ++ hdr ++ mv_name v ++ [x00]) ++ mv_data v ++ post).
    - apply slice_app_middle; unfold byteLength;
        rewrite !length_app, ?Hh; cbn [length]; lia.
    - subst chunks hdr. cbn [concat]. rewrite <- !app_assoc. reflexivity. }
  rewrite Hdata. unfold view. rewrite Hd.
  rewrite Z.mod_mul by (destruct (mat_kind (mv_type v)); cbn; lia).
  cbn [Z.eqb bind]. rewrite (not_proto _ Hn). unfold mat_array.
  f_equal. f_equal.
  rewrite <- Hrec, byteLength_mat_record. lia.
Qed.

Lemma tags_mat_file vars : forall fuel pre trailing mat,
  Forall mat_var_ok vars -> (length vars <= fuel)%nat ->
  byteLength trailing <= 20 ->
  MatV4.tags fuel (pre ++ mat_file vars ++ trailing) (byteLength pre) mat
  = Ok (assigned vars mat).
Proof.
  induction vars as [| v vars IH]; intros fuel pre trailing mat Hok Hfuel Ht.
  - cbn [mat_file flat_map app assigned fold_left].
    assert (Hc : (byteLength pre + 20 <? byteLength (pre ++ trailing)) = false).
    { apply Z.ltb_ge. rewrite byteLength_app. lia. }
    destruct fuel; cbn [MatV4.tags]; rewrite Hc; reflexivity.
  - apply Forall_cons_1 in Hok as [Hv Hok].
    destruct fuel as [| fuel]; [cbn [length] in Hfuel; lia |].
    cbn [MatV4.tags mat_file flat_map]. fold (mat_file vars).
    rewrite <- (app_assoc (mat_record v)).
    pose proof (Zle_0_nat (length (mv_name v))).
    pose proof (Zle_0_nat (length (mv_data v))).
    pose proof (Zle_0_nat (length (mat_file vars ++ trailing))).
    destruct (Z.ltb_spec (byteLength pre + 20)
                (byteLength (pre ++ mat_record v ++ mat_file vars ++ trailing)))
      as [_ | Hge].
    2: { rewrite !byteLength_app, byteLength_mat_record in Hge.
         unfold byteLength in *. rewrite length_app in *. lia. }
    rewrite (readTag_mat_record pre v _ mat Hv). cbn [bind].
    rewrite <- byteLength_app.
    rewrite (app_assoc pre (mat_record v)).
    rewrite IH; [| exact Hok | cbn [length] in Hfuel; lia | exact Ht].
    reflexivity.
Qed.

Lemma length_mat_file vars :
  (length vars <= length (mat_file vars))%nat.
Proof.
  induction vars as [| v vars IH]; [reflexivity |].
  cbn [mat_file flat_map length]. fold (mat_file vars). rewrite length_app.
  pose proof (byteLength_mat_record v) as H. unfold byteLength in H. lia.
Qed.

Lemma readMatV4_file decompress vars trailing :
  Forall mat_var_ok vars ->
  40 <= byteLength (mat_file vars ++ trailing) ->
  byteLength trailing <= 20 ->
  MatV4.readMatV4 decompress (mat_file vars ++ trailing)
  = Ok (assigned vars []).
Proof.
  intros Hok Hlen Ht. unfold MatV4.readMatV4. cbn zeta.
  destruct (Z.ltb_spec (byteLength (mat_file vars ++ trailing)) 40);
    [exfalso; lia |].
  destruct vars as [| v vars].
  { exfalso. cbn [mat_file flat_map app] in Hlen. lia. }
  pose proof (Forall_inv Hok) as (Hty & _).
  assert (Hm : DataView.getUint16 (mat_file (v :: vars) ++ trailing) 0 true
               = Ok (mv_type v)).
  { cbn [mat_file flat_map]. unfold mat_record, Vec.le32.
    change 4%nat with (2 + 2)%nat at 1. rewrite le_bytes_app.
    rewrite <- !app_assoc. unfold DataView.getUint16.
    rewrite raw_prefix by (rewrite length_le_bytes; reflexivity).
    rewrite le_val_le_bytes_small by (change (256 ^ Z.of_nat 2) with 65536; lia).
    reflexivity. }
  rewrite Hm. cbn [bind].
  destruct (Z.eqb_spec (mv_type v) 35615); [exfalso; lia |].
  destruct (Z.eqb_spec (mv_type v) 8075); [exfalso; lia |].
  cbn [orb bind].
  rewrite <- (app_nil_l (mat_file (v :: vars) ++ trailing)) at 2.
  change 0 with (byteLength []).
  rewrite tags_mat_file; [reflexivity | exact Hok | | exact Ht].
  rewrite length_app. pose proof (length_mat_file (v :: vars)). lia.
Qed.

(** A file of variables with plain names is read back when it is at least
    40 bytes long, up to 20 bytes after the last variable being ignored:
    the object returned has one property of its own per name, every name
    gives the array of the last variable that has it, and no other name
    is a property of its own; when the names are distinct the properties
    are the variables. *)
Theorem readMatV4_round_trip decompress vars trailing :
  Forall mat_var_ok vars ->
  40 <= byteLength (mat_file vars ++ trailing) ->
  byteLength trailing <= 20 ->
  exists mat,
    MatV4.readMatV4 decompress (mat_file vars ++ trailing) = Ok mat
    /\ (forall name, mat_get mat name = last_named vars name)
    /\ List.NoDup (map fst mat)
    /\ (List.NoDup (map mv_name vars) ->
        Permutation mat (map mat_entry vars)).
Proof.
  intros Hok Hlen Ht. exists (assigned vars []).
  split; [exact (readMatV4_file decompress vars trailing Hok Hlen Ht) |].
  split; [| split].
  - intros name. rewrite mat_get_assigned.
    destruct (last_named vars name); reflexivity.
  - apply NoDup_assigned. constructor.
  - intros Hd. rewrite assigned_distinct; [reflexivity | | exact Hd].
    intros v _ [].
Qed.

Lemma readMatV4_round_trip_witness :
  let v1 := {| mv_type := 50; mv_rows := 4; mv_cols := 5;
               mv_name := Text.str "track"; mv_data := replicate 20 x07 |} in
  let v2 := {| mv_type := 30; mv_rows := 1; mv_cols := 2;
               mv_name := Text.str "voxel_size";
               mv_data := [x01; x02; x03; x04] |} in
  let v3 := {| mv_type := 50; mv_rows := 1; mv_cols := 3;
               mv_name := Text.str "track"; mv_data := [x08; x09; x0a] |} in
  exists mat,
    MatV4.readMatV4 no_decompress (mat_file [v1; v2; v3] ++ [x00]) = Ok mat
    /\ (forall name, mat_get mat name = last_named [v1; v2; v3] name)
    /\ List.NoDup (map fst mat)
    /\ (List.NoDup (map mv_name [v1; v2; v3]) ->
        Permutation mat (map mat_entry [v1; v2; v3])).
Proof.
  intros v1 v2 v3.
  apply (readMatV4_round_trip no_decompress [v1; v2; v3] [x00]).
  - assert (H1 : mat_var_ok v1).
    { unfold mat_var_ok. cbn.
      repeat split; try lia; try discriminate; reflexivity. }
    assert (H2 : mat_var_ok v2).
    { unfold mat_var_ok. cbn.
      repeat split; try lia; try discriminate; reflexivity. }
    assert (H3 : mat_var_ok v3).
    { unfold mat_var_ok. cbn.
      repeat split; try lia; try discriminate; reflexivity. }
    apply Forall_cons. split; [exact H1 |].
    apply Forall_cons. split; [exact H2 |].
    apply Forall_cons. split; [exact H3 | apply Forall_nil_2].
  - vm_compute. discriminate.
  - vm_compute. discriminate.
Defined.

(** *** readTCK: the streamlines of a track file *)

Lemma tck_run_cons s ss st :
  tck_run (s :: ss) st = tck_run ss (tck_close (fold_left tck_push s st)).
Proof. reflexivity. Qed.

Lemma advance_le p l : advance p l <= Z.of_nat (length l).
Proof.
  induction l as [| c l IH]; cbn [advance length]; [lia |].
  destruct (p c); lia.
Qed.

Lemma advance_app p l r :
  advance p l < Z.of_nat (length l) -> advance p (l ++ r) = advance p l.
Proof.
  induction l as [| c l IH]; cbn [advance length app]; [lia |].
  destruct (p c); [| reflexivity]. intros H. rewrite IH by lia. reflexivity.
Qed.

Lemma slice_app_l {A} (l r : list A) a b :
  0 <= a <= b -> b <= Z.of_nat (length l) ->
  slice (l ++ r) a b = slice l a b.
Proof.
  intros Hab Hb. rewrite !slice_within by (rewrite ?length_app; lia).
  rewrite drop_app_le by lia. rewrite take_app_le; [reflexivity |].
  rewrite length_drop. lia.
Qed.

(** A line that ends inside the first part of a buffer is read from that
    part alone. *)
Lemma readStr_app pre rest pos :
  0 <= pos ->
  snd (Tck.readStr pre pos) <= Z.of_nat (length pre) ->
  Tck.readStr (pre ++ rest) pos = Tck.readStr pre pos.
Proof.
  intros Hpos. unfold Tck.readStr. cbn zeta.
  set (k1 := advance is_nl (drop (Z.to_nat pos) pre)).
  set (k2 := advance (fun b => negb (is_nl b))
               (drop (Z.to_nat (pos + k1)) pre)).
  pose proof (advance_nonneg is_nl (drop (Z.to_nat pos) pre)) as H1.
  pose proof (advance_nonneg (fun b => negb (is_nl b))
                (drop (Z.to_nat (pos + k1)) pre)) as H2.
  fold k1 in H1. fold k2 in H2.
  intros Hend.
  assert (Hin : pos + k1 + k2 + 1 <= Z.of_nat (length pre)).
  { destruct (pos + k1 + k2 + 1 - (pos + k1) <? 1); exact Hend. }
  clear Hend.
  assert (E1 : advance is_nl (drop (Z.to_nat pos) (pre ++ rest)) = k1).
  { rewrite drop_app_le by lia. apply advance_app. rewrite length_drop.
    fold k1. lia. }
  rewrite E1.
  assert (E2 : advance (fun b => negb (is_nl b))
                 (drop (Z.to_nat (pos + k1)) (pre ++ rest)) = k2).
  { rewrite drop_app_le by lia. apply advance_app. rewrite length_drop.
    fold k2. lia. }
  rewrite E2.
  destruct (pos + k1 + k2 + 1 - (pos + k1) <? 1); [reflexivity |].
  rewrite slice_app_l by lia. reflexivity.
Qed.

Lemma tck_header_parsed data fuel :
  Tck.readStr (Vec.tck_header ++ data) 0 = (Text.str "mrtrix tracks", 14)
  /\ Tck.header (S (S fuel)) (Vec.tck_header ++ data)
       (Text.str "mrtrix tracks") 14 (Some (-1)) = Ok (Some 40).
Proof.
  assert (Hlen : byteLength (Vec.tck_header ++ data)
                 = 40 + Z.of_nat (length data)).
  { rewrite byteLength_app. reflexivity. }
  split.
  - rewrite readStr_app; [reflexivity | lia | vm_compute; discriminate].
  - cbn [Tck.header]. rewrite Hlen.
    destruct (Z.ltb_spec 14 (40 + Z.of_nat (length data))); [| exfalso; lia].
    change (Text.includes (Text.str "END") (Text.str "mrtrix tracks"))
      with false.
    cbn [andb negb].
    rewrite readStr_app; [| lia | vm_compute; discriminate].
    change (Tck.readStr Vec.tck_header 14) with (Text.str "file: . 40", 25).
    cbn iota.
    change (Text.startsWith (Text.str "file:")
              (Text.toLowerCase (Text.str "file: . 40"))) with true.
    cbn iota.
    change (Text.parseInt
              (List.last (Text.split " "%byte (Text.str "file: . 40")) []))
      with (Some 40).
    destruct (Z.ltb_spec 25 (40 + Z.of_nat (length data))); [| exfalso; lia].
    change (Text.includes (Text.str "END") (Text.str "file: . 40"))
      with false.
    cbn [andb negb].
    rewrite readStr_app; [| lia | vm_compute; discriminate].
    change (Tck.readStr Vec.tck_header 25) with (Text.str "END", 29).
    cbn iota.
    change (Text.startsWith (Text.str "file:")
              (Text.toLowerCase (Text.str "END"))) with false.
    cbn iota.
    assert (Hc : forall b,
              b && negb (Text.includes (Text.str "END") (Text.str "END"))
              = false) by (intros b; apply andb_false_r).
    destruct fuel; cbn [Tck.header]; rewrite Hc; reflexivity.
Qed.

Lemma triplet_read pre x y z rest :
  0 <= x < 2 ^ 32 -> 0 <= y < 2 ^ 32 -> 0 <= z < 2 ^ 32 ->
  let buffer := pre ++ Vec.triplet x y z ++ rest in
  DataView.getFloat32 buffer (byteLength pre) true = Ok (of_bits32 x)
  /\ DataView.getFloat32 buffer (byteLength pre + 4) true = Ok (of_bits32 y)
  /\ DataView.getFloat32 buffer (byteLength pre + 8) true = Ok (of_bits32 z).
Proof.
  intros Hx Hy Hz buffer. subst buffer.
  set (chunks := [Vec.le32 x; Vec.le32 y; Vec.le32 z]).
  replace (Vec.triplet x y z ++ rest) with (concat chunks ++ rest).
  2: { unfold Vec.triplet. subst chunks. cbn [concat].
       rewrite app_nil_r, <- !app_assoc. reflexivity. }
  unfold DataView.getFloat32.
  rewrite (word_at pre chunks rest 0 3 x)
    by first [ reflexivity
             | change (Z.of_nat (length (concat (take 0 chunks)))) with 0; lia
             | change (Z.of_nat 4) with 4; lia ].
  rewrite (word_at pre chunks rest 1 3 y)
    by first [ reflexivity | change (Z.of_nat 4) with 4; lia ].
  rewrite (word_at pre chunks rest 2 3 z)
    by first [ reflexivity | change (Z.of_nat 4) with 4; lia ].
  repeat split.
Qed.

Lemma byteLength_triplet x y z : byteLength (Vec.triplet x y z) = 12.
Proof.
  unfold Vec.triplet. rewrite !byteLength_app. unfold byteLength, Vec.le32.
  rewrite !length_le_bytes. reflexivity.
Qed.

Lemma byteLength_vertex v : byteLength (tck_vertex_bytes v) = 12.
Proof. destruct v as [[x y] z]. apply byteLength_triplet. Qed.

Lemma body_push fuel pre v rest st :
  Tck.pos st = byteLength pre -> 0 < byteLength rest -> tck_vertex_ok v ->
  Tck.body (S fuel) (pre ++ tck_vertex_bytes v ++ rest) st
  = Tck.body fuel (pre ++ tck_vertex_bytes v ++ rest) (tck_push st v).
Proof.
  intros Hpos Hrest Hv. destruct v as [[x y] z].
  destruct Hv as [(Hx & Hy & Hz) Hfin].
  cbn [Tck.body tck_vertex_bytes].
  rewrite !byteLength_app, byteLength_triplet, Hpos.
  destruct (Z.ltb_spec (byteLength pre + 12)
              (byteLength pre + (12 + byteLength rest))); [| exfalso; lia].
  destruct (triplet_read pre x y z rest Hx Hy Hz) as (Ex & Ey & Ez).
  rewrite Ex, Ey, Ez. cbn [bind]. rewrite Hfin. cbn [negb].
  unfold tck_push. rewrite Hpos. reflexivity.
Qed.

Lemma body_close fuel pre rest st :
  Tck.pos st = byteLength pre -> 0 < byteLength rest ->
  Tck.body (S fuel)
    (pre ++ Vec.triplet Vec.fNaN Vec.fNaN Vec.fNaN ++ rest) st
  = Tck.body fuel
      (pre ++ Vec.triplet Vec.fNaN Vec.fNaN Vec.fNaN ++ rest) (tck_close st).
Proof.
  intros Hpos Hrest. cbn [Tck.body].
  rewrite !byteLength_app, byteLength_triplet, Hpos.
  destruct (Z.ltb_spec (byteLength pre + 12)
              (byteLength pre + (12 + byteLength rest))); [| exfalso; lia].
  destruct (triplet_read pre Vec.fNaN Vec.fNaN Vec.fNaN rest)
    as (Ex & Ey & Ez); [unfold Vec.fNaN; lia .. |].
  rewrite Ex, Ey, Ez. cbn [bind].
  change (of_bits32 Vec.fNaN) with S754_nan. cbn [isFinite isNaN negb].
  unfold tck_close. rewrite Hpos. reflexivity.
Qed.

Lemma pos_push_all s : forall st,
  Tck.pos (fold_left tck_push s st) = Tck.pos st + 12 * Z.of_nat (length s).
Proof.
  induction s as [| v s IH]; intros st; cbn [fold_left length]; [lia |].
  rewrite IH. destruct v as [[x y] z]. cbn [tck_push Tck.pos]. lia.
Qed.

Lemma body_streamline s : forall fuel pre rest st,
  Tck.pos st = byteLength pre -> 0 < byteLength rest ->
  Forall tck_vertex_ok s ->
  Tck.body (length s + S fuel) (pre ++ tck_streamline s ++ rest) st
  = Tck.body fuel (pre ++ tck_streamline s ++ rest)
      (tck_close (fold_left tck_push s st)).
Proof.
  induction s as [| v s IH]; intros fuel pre rest st Hpos Hrest Hs.
  - cbn [length Nat.add fold_left tck_streamline flat_map app].
    apply body_close; assumption.
  - apply Forall_cons_1 in Hs as [Hv Hs].
    cbn [length Nat.add fold_left].
    assert (Hb : pre ++ tck_streamline (v :: s) ++ rest
                 = pre ++ tck_vertex_bytes v ++ tck_streamline s ++ rest).
    { unfold tck_streamline. cbn [flat_map]. rewrite <- !app_assoc.
      reflexivity. }
    rewrite Hb.
    rewrite body_push; [| exact Hpos | | exact Hv].
    2: { rewrite byteLength_app. unfold byteLength in *. lia. }
    rewrite (app_assoc pre (tck_vertex_bytes v)).
    apply IH; [| exact Hrest | exact Hs].
    rewrite byteLength_app, byteLength_vertex.
    destruct v as [[x y] z]. cbn [tck_push Tck.pos]. lia.
Qed.

Lemma byteLength_streamline s :
  byteLength (tck_streamline s) = 12 * Z.of_nat (length s) + 12.
Proof.
  unfold tck_streamline. rewrite byteLength_app, byteLength_triplet.
  induction s as [| v s IH]; [reflexivity |].
  cbn [flat_map length]. rewrite byteLength_app, byteLength_vertex. lia.
Qed.

Lemma pos_close_push s st :
  Tck.pos (tck_close (fold_left tck_push s st))
  = Tck.pos st + byteLength (tck_streamline s).
Proof.
  cbn [tck_close Tck.pos]. rewrite pos_push_all, byteLength_streamline. lia.
Qed.

Lemma body_streamlines ss : forall fuel pre rest st,
  Tck.pos st = byteLength pre -> 0 < byteLength rest ->
  Forall (Forall tck_vertex_ok) ss ->
  Tck.body (tck_steps ss + fuel) (pre ++ flat_map tck_streamline ss ++ rest) st
  = Tck.body fuel (pre ++ flat_map tck_streamline ss ++ rest) (tck_run ss st).
Proof.
  induction ss as [| s ss IH]; intros fuel pre rest st Hpos Hrest Hss.
  - reflexivity.
  - apply Forall_cons_1 in Hss as [Hs Hss].
    rewrite tck_run_cons. cbn [tck_steps flat_map].
    rewrite <- !app_assoc.
    replace (length s + 1 + tck_steps ss + fuel)%nat
      with (length s + S (tck_steps ss + fuel))%nat by lia.
    rewrite body_streamline; [| exact Hpos | | exact Hs].
    2: { rewrite byteLength_app. unfold byteLength in *. lia. }
    rewrite (app_assoc pre (tck_streamline s)).
    apply (IH fuel (pre ++ tck_streamline s) rest); [| exact Hrest | exact Hss].
    rewrite pos_close_push, byteLength_app, Hpos. reflexivity.
Qed.

(** The arrays after the vertices of a streamline. *)
Lemma push_all s : forall st,
  Tck.npt3 st = 3 * Tck.npt st -> 0 <= Tck.npt st ->
  3 * (Tck.npt st + Z.of_nat (length s)) <= Z.of_nat (length (Tck.pts st)) ->
  let st' := fold_left tck_push s st in
  Tck.npt st' = Tck.npt st + Z.of_nat (length s)
  /\ Tck.npt3 st' = 3 * Tck.npt st'
  /\ Tck.noffset st' = Tck.noffset st
  /\ Tck.offsetPt0 st' = Tck.offsetPt0 st
  /\ length (Tck.pts st') = length (Tck.pts st)
  /\ take (Z.to_nat (Tck.npt3 st')) (Tck.pts st')
     = take (Z.to_nat (Tck.npt3 st)) (Tck.pts st) ++ flat_map tck_coords s.
Proof.
  induction s as [| v s IH]; intros st H3 Hn Hcap; cbn zeta.
  - cbn [fold_left length flat_map]. rewrite app_nil_r.
    repeat split; lia.
  - cbn [fold_left length flat_map] in *.
    destruct v as [[x y] z].
    set (st1 := tck_push st (x, y, z)).
    assert (Hlen1 : length (Tck.pts st1) = length (Tck.pts st)).
    { subst st1. cbn [tck_push Tck.pts]. rewrite !length_ta_set.
      reflexivity. }
    assert (Htake : take (Z.to_nat (Tck.npt3 st1)) (Tck.pts st1)
                    = take (Z.to_nat (Tck.npt3 st)) (Tck.pts st)
                      ++ tck_coords (x, y, z)).
    { subst st1. cbn [tck_push Tck.pts Tck.npt3 tck_coords].
      replace (Tck.npt3 st + 3) with (Tck.npt3 st + 2 + 1) by lia.
      rewrite take_ta_set_next by lia. rewrite !length_ta_set.
      destruct (Nat.ltb_spec (Z.to_nat (Tck.npt3 st + 2))
                  (length (Tck.pts st))); [| exfalso; lia].
      replace (Tck.npt3 st + 2) with (Tck.npt3 st + 1 + 1) by lia.
      rewrite take_ta_set_next by lia. rewrite !length_ta_set.
      destruct (Nat.ltb_spec (Z.to_nat (Tck.npt3 st + 1))
                  (length (Tck.pts st))); [| exfalso; lia].
      rewrite take_ta_set_next by lia.
      destruct (Nat.ltb_spec (Z.to_nat (Tck.npt3 st))
                  (length (Tck.pts st))); [| exfalso; lia].
      rewrite <- !app_assoc. reflexivity. }
    destruct (IH st1) as (E1 & E2 & E3 & E4 & E5 & E6).
    + subst st1. cbn [tck_push Tck.npt3 Tck.npt]. lia.
    + subst st1. cbn [tck_push Tck.npt]. lia.
    + rewrite Hlen1. subst st1. cbn [tck_push Tck.npt]. lia.
    + assert (Hn1 : Tck.npt st1 = Tck.npt st + 1) by reflexivity.
      split; [lia |]. split; [exact E2 |].
      split; [rewrite E3; reflexivity |].
      split; [rewrite E4; reflexivity |].
      split; [rewrite E5; exact Hlen1 |].
      rewrite E6, Htake, <- app_assoc. reflexivity.
Qed.

Lemma length_concat_cons {A} (s : list A) ss :
  length (concat (s :: ss)) = (length s + length (concat ss))%nat.
Proof. cbn [concat]. apply length_app. Qed.

(** The arrays after the streamlines [ss]. *)
Lemma run_all ss : forall st,
  Tck.npt3 st = 3 * Tck.npt st -> 0 <= Tck.npt st -> 0 <= Tck.noffset st ->
  3 * (Tck.npt st + Z.of_nat (length (concat ss)))
  <= Z.of_nat (length (Tck.pts st)) ->
  Tck.noffset st + Z.of_nat (length ss)
  <= Z.of_nat (length (Tck.offsetPt0 st)) ->
  let st' := tck_run ss st in
  Tck.npt3 st' = 3 * Tck.npt st'
  /\ Tck.noffset st' = Tck.noffset st + Z.of_nat (length ss)
  /\ take (Z.to_nat (Tck.npt3 st')) (Tck.pts st')
     = take (Z.to_nat (Tck.npt3 st)) (Tck.pts st)
       ++ flat_map tck_coords (concat ss)
  /\ take (Z.to_nat (Tck.noffset st')) (Tck.offsetPt0 st')
     = take (Z.to_nat (Tck.noffset st)) (Tck.offsetPt0 st)
       ++ map ToUint32 (tck_ends (Tck.npt st) ss).
Proof.
  induction ss as [| s ss IH]; intros st H3 Hn Ho Hcp Hco; cbn zeta.
  - cbn [tck_run fold_left concat flat_map length tck_ends map].
    rewrite !app_nil_r. repeat split; lia.
  - rewrite tck_run_cons.
    rewrite length_concat_cons in Hcp. cbn [length] in Hco.
    destruct (push_all s st H3 Hn) as (E1 & E2 & E3 & E4 & E5 & E6);
      [lia |].
    set (st1 := fold_left tck_push s st) in *.
    set (st2 := tck_close st1).
    assert (Hoff : take (Z.to_nat (Tck.noffset st2)) (Tck.offsetPt0 st2)
                   = take (Z.to_nat (Tck.noffset st)) (Tck.offsetPt0 st)
                     ++ [ToUint32 (Tck.npt st1)]).
    { subst st2. cbn [tck_close Tck.noffset Tck.offsetPt0].
      rewrite take_ta_set_next by lia. rewrite E3, E4.
      destruct (Nat.ltb_spec (Z.to_nat (Tck.noffset st))
                  (length (Tck.offsetPt0 st))); [reflexivity | exfalso; lia]. }
    destruct (IH st2) as (F1 & F2 & F3 & F4).
    + subst st2. cbn [tck_close Tck.npt3 Tck.npt]. exact E2.
    + subst st2. cbn [tck_close Tck.npt]. lia.
    + subst st2. cbn [tck_close Tck.noffset]. lia.
    + subst st2. cbn [tck_close Tck.npt Tck.pts]. rewrite E5. lia.
    + subst st2. cbn [tck_close Tck.noffset Tck.offsetPt0].
      rewrite length_ta_set, E3, E4. lia.
    + assert (Ho2 : Tck.noffset st2 = Tck.noffset st + 1).
      { subst st2. cbn [tck_close Tck.noffset]. rewrite E3. reflexivity. }
      split; [exact F1 |]. split; [rewrite F2, Ho2; cbn [length]; lia |]. split.
      * rewrite F3. subst st2. cbn [tck_close Tck.npt3 Tck.pts].
        rewrite E6. cbn [concat]. rewrite flat_map_app, <- app_assoc.
        reflexivity.
      * rewrite F4, Hoff. subst st2. cbn [tck_close Tck.npt].
        rewrite E1. cbn [tck_ends map]. rewrite <- app_assoc. reflexivity.
Qed.

Lemma tck_ends_small ss : forall n,
  0 <= n -> n + Z.of_nat (length (concat ss)) < 2 ^ 32 ->
  map ToUint32 (tck_ends n ss) = tck_ends n ss.
Proof.
  induction ss as [| s ss IH]; intros n Hn Hlt; [reflexivity |].
  rewrite length_concat_cons in Hlt.
  cbn [tck_ends map]. rewrite IH by lia. f_equal.
  unfold ToUint32. apply Z.mod_small. lia.
Qed.

Lemma byteLength_streamlines ss :
  byteLength (flat_map tck_streamline ss)
  = 12 * Z.of_nat (length (concat ss)) + 12 * Z.of_nat (length ss).
Proof.
  induction ss as [| s ss IH]; [reflexivity |].
  cbn [flat_map]. rewrite byteLength_app, byteLength_streamline, IH.
  rewrite length_concat_cons. cbn [length]. lia.
Qed.

Lemma tck_steps_count ss :
  tck_steps ss = (length (concat ss) + length ss)%nat.
Proof.
  induction ss as [| s ss IH]; [reflexivity |].
  cbn [tck_steps]. rewrite IH, length_concat_cons. cbn [length]. lia.
Qed.

Lemma length_streamlines {A} (ss : list (list A)) :
  Forall (fun s => s <> []) ss -> (length ss <= length (concat ss))%nat.
Proof.
  induction ss as [| s ss IH]; intros H; [reflexivity |].
  apply Forall_cons_1 in H as [Hs H]. rewrite length_concat_cons.
  cbn [length]. specialize (IH H).
  destruct s; [congruence | cbn [length]; lia].
Qed.

(** A track file is read as it is laid out: pts are the coordinates of all
    the vertices in order, and offsetPt0 holds for each streamline the
    number of vertices up to its end.  It does not start with 0, so it has
    as many entries as there are streamlines, not one more; and the bytes
    after the last NaN triplet are not read. *)
Theorem readTCK_streamlines ss final :
  Forall (fun s => s <> []) ss ->
  Forall (Forall tck_vertex_ok) ss ->
  0 < byteLength final <= 12 ->
  byteLength (tck_file ss final) < 2 ^ 32 ->
  Tck.readTCK (tck_file ss final)
  = Ok {| tck_pts := flat_map tck_coords (concat ss);
          tck_offsetPt0 := tck_ends 0 ss |}.
Proof.
  intros Hne Hok Hfin Hlt. unfold Tck.readTCK. cbn zeta.
  assert (Hlen : byteLength (tck_file ss final)
                 = 40 + 12 * Z.of_nat (length (concat ss))
                   + 12 * Z.of_nat (length ss) + byteLength final).
  { unfold tck_file. rewrite !byteLength_app, byteLength_streamlines.
    change (byteLength Vec.tck_header) with 40. lia. }
  pose proof (length_streamlines ss Hne) as Hcount.
  set (N := Z.of_nat (length (concat ss))) in *.
  set (n := Z.of_nat (length ss)) in *.
  assert (HNn : n <= N) by (subst N n; lia).
  assert (Hn0 : 0 <= n) by (subst n; lia).
  destruct (Z.ltb_spec (byteLength (tck_file ss final)) 20);
    [exfalso; lia |].
  assert (Hfuel : exists f, length (tck_file ss final)
                            = (tck_steps ss + S (S f))%nat).
  { exists (length (tck_file ss final) - tck_steps ss - 2)%nat.
    rewrite tck_steps_count. unfold byteLength in Hlen. subst N n. lia. }
  destruct Hfuel as [f Hf].
  unfold tck_file at 1 2.
  destruct (tck_header_parsed (flat_map tck_streamline ss ++ final)
              (tck_steps ss + f)) as [Hline Hhdr].
  rewrite Hline. cbn iota.
  change (Text.includes (Text.str "mrtrix tracks") (Text.str "mrtrix tracks"))
    with true.
  cbn [negb]. fold (tck_file ss final).
  replace (length (tck_file ss final))
    with (S (S (tck_steps ss + f))) at 1 by lia.
  unfold tck_file at 1. rewrite Hhdr. cbn [bind nan_ltb].
  change (40 <? 20) with false. cbn iota.
  fold (tck_file ss final).
  set (st0 := {| Tck.pos := 40; Tck.npt := 0; Tck.noffset := 0;
                 Tck.npt3 := 0;
                 Tck.pts := new_Float32Array (byteLength (tck_file ss final) / 4);
                 Tck.offsetPt0 :=
                   ta_set (new_Uint32Array
                             (byteLength (tck_file ss final) / 16)) 0 0 |}).
  rewrite Hf. unfold tck_file.
  rewrite (body_streamlines ss (S (S f)) Vec.tck_header final st0);
    [| reflexivity | lia | exact Hok].
  assert (Hstop : Tck.pos (tck_run ss st0) + 12
                  >= byteLength (tck_file ss final)).
  { assert (Hp : forall ss st,
              Tck.pos (tck_run ss st)
              = Tck.pos st + byteLength (flat_map tck_streamline ss)).
    { clear. induction ss as [| s ss IH]; intros st.
      - change (tck_run [] st) with st.
        change (byteLength (flat_map tck_streamline [])) with 0. lia.
      - rewrite tck_run_cons. cbn [flat_map].
        rewrite IH, pos_close_push, byteLength_app. lia. }
    rewrite Hp, byteLength_streamlines, Hlen. subst st0 N n.
    cbn [Tck.pos]. lia. }
  fold (tck_file ss final).
  cbn [Tck.body].
  destruct (Z.ltb_spec (Tck.pos (tck_run ss st0) + 12)
              (byteLength (tck_file ss final))); [exfalso; lia |].
  cbn [bind].
  assert (Hcp : Z.of_nat (length (Tck.pts st0))
                = byteLength (tck_file ss final) / 4).
  { subst st0. cbn [Tck.pts]. unfold new_Float32Array.
    rewrite length_replicate. apply Z2Nat.id. apply Z.div_pos; lia. }
  assert (Hco : Z.of_nat (length (Tck.offsetPt0 st0))
                = byteLength (tck_file ss final) / 16).
  { subst st0. cbn [Tck.offsetPt0]. rewrite length_ta_set.
    unfold new_Uint32Array. rewrite length_replicate.
    apply Z2Nat.id. apply Z.div_pos; lia. }
  destruct (run_all ss st0) as (R1 & R2 & R3 & R4).
  - reflexivity.
  - cbn. lia.
  - cbn. lia.
  - rewrite Hcp. subst st0. cbn [Tck.npt]. fold N.
    apply Z.div_le_lower_bound; lia.
  - rewrite Hco. subst st0. cbn [Tck.noffset]. fold n.
    apply Z.div_le_lower_bound; lia.
  - assert (Hnpt : 0 <= Tck.npt3 (tck_run ss st0)).
    { assert (Hq : forall ss st, 0 <= Tck.npt st ->
                0 <= Tck.npt (tck_run ss st)).
      { clear. induction ss as [| s ss IH]; intros st Hst; [exact Hst |].
        rewrite tck_run_cons. apply IH.
        cbn [tck_close Tck.npt].
        assert (Hr : forall s st, 0 <= Tck.npt st ->
                  0 <= Tck.npt (fold_left tck_push s st)).
        { clear. induction s as [| v s IH]; intros st Hst; [exact Hst |].
          cbn [fold_left]. apply IH. destruct v as [[x y] z].
          cbn [tck_push Tck.npt]. lia. }
        apply Hr. exact Hst. }
      rewrite R1. specialize (Hq ss st0). cbn [Tck.npt st0] in Hq.
      subst st0. cbn [Tck.npt] in Hq. lia. }
    assert (Hs0 : Tck.noffset st0 = 0) by reflexivity.
    rewrite !slice_take by lia.
    rewrite R3, R4. subst st0. cbn [Tck.npt3 Tck.noffset Tck.npt].
    change (Z.to_nat 0) with O. rewrite !take_0. cbn [app].
    rewrite tck_ends_small by (fold N; lia). reflexivity.
Qed.

Lemma readTCK_streamlines_witness :
  Tck.readTCK
    (tck_file [[(Vec.f1, Vec.f2, Vec.f3); (Vec.f4, Vec.f5, Vec.f6)];
               [(Vec.f7, Vec.f8, Vec.f9)]]
       (Vec.triplet Vec.fInf Vec.fInf Vec.fInf))
  = Ok {| tck_pts :=
            flat_map tck_coords
              (concat [[(Vec.f1, Vec.f2, Vec.f3); (Vec.f4, Vec.f5, Vec.f6)];
                       [(Vec.f7, Vec.f8, Vec.f9)]]);
          tck_offsetPt0 :=
            tck_ends 0 [[(Vec.f1, Vec.f2, Vec.f3); (Vec.f4, Vec.f5, Vec.f6)];
                        [(Vec.f7, Vec.f8, Vec.f9)]] |}.
Proof.
  apply (readTCK_streamlines
           [[(Vec.f1, Vec.f2, Vec.f3); (Vec.f4, Vec.f5, Vec.f6)];
            [(Vec.f7, Vec.f8, Vec.f9)]]
           (Vec.triplet Vec.fInf Vec.fInf Vec.fInf)).
  - repeat (apply Forall_cons; split; [discriminate |]). apply Forall_nil_2.
  - repeat (apply Forall_cons; split;
            [repeat (apply Forall_cons; split;
                     [vm_compute; intuition discriminate |]);
             apply Forall_nil_2 |]).
    apply Forall_nil_2.
  - vm_compute. split; [reflexivity | discriminate].
  - reflexivity.
Defined.

(** *** readVTK: the offsets of the standard LINES block *)



Lemma running_nonneg counts : forall acc,
  0 <= acc -> Forall (fun k => 0 <= k) counts ->
  Forall (fun o => acc <= o) (running acc counts)
  /\ nondecreasing (acc :: running acc counts) = true
  /\ List.last (acc :: running acc counts) 0
     = acc + Z.of_nat (vertices_of counts).
Proof.
  induction counts as [| k counts IH]; intros acc Hacc Hk.
  - cbn. repeat split; [constructor | lia].
  - apply Forall_cons_1 in Hk as [Hk0 Hk].
    destruct (IH (acc + k)) as (Hle & Hnd & Hlast); [lia | exact Hk |].
    cbn [running]. split; [| split].
    + constructor; [lia |]. eapply Forall_impl; [exact Hle |].
      cbn beta. intros o Ho. lia.
    + change (nondecreasing (acc :: (acc + k) :: running (acc + k) counts))
        with ((acc <=? acc + k)
              && nondecreasing ((acc + k) :: running (acc + k) counts)).
      rewrite Hnd, andb_true_r. apply Z.leb_le. lia.
    + change (List.last (acc :: (acc + k) :: running (acc + k) counts) 0)
        with (List.last ((acc + k) :: running (acc + k) counts) 0).
      rewrite Hlast. cbn [vertices_of fold_right]. fold (vertices_of counts).
      lia.
Qed.

Lemma running_small counts : forall acc,
  0 <= acc -> Forall (fun k => 0 <= k) counts ->
  acc + Z.of_nat (vertices_of counts) < 2 ^ 32 ->
  map ToUint32 (running acc counts) = running acc counts.
Proof.
  induction counts as [| k counts IH]; intros acc Hacc Hk Hlt;
    [reflexivity |].
  apply Forall_cons_1 in Hk as [Hk0 Hk].
  cbn [vertices_of fold_right] in Hlt. fold (vertices_of counts) in Hlt.
  cbn [running map]. rewrite IH by (try assumption; lia). f_equal.
  unfold ToUint32. apply Z.mod_small. lia.
Qed.



(** *** readTT: the offsets of a track *)

Lemma deltas_npt n : forall dv p x y z npt pts npt' pts',
  Tt.deltas n dv p x y z npt pts = Ok (npt', pts') ->
  npt' = npt + 3 * Z.of_nat n /\ length pts' = length pts.
Proof.
  induction n as [| n IH]; intros dv p x y z npt pts npt' pts' H;
    cbn [Tt.deltas] in H.
  - injection H as <- <-. split; [lia | reflexivity].
  - bind_inv H. apply IH in H as [-> Hl].
    rewrite !length_ta_set in Hl. split; [lia | exact Hl].
Qed.

Lemma before_total acc counts :
  before acc counts ++ [acc + total counts] = acc :: running acc counts.
Proof.
  revert acc. induction counts as [| k counts IH]; intros acc.
  - cbn. rewrite Z.add_0_r. reflexivity.
  - cbn [before running total fold_right app]. fold (total counts).
    f_equal. rewrite <- IH. f_equal. f_equal. lia.
Qed.

Lemma tt_records starts : forall dv len j i sizes st st' k,
  Tt.records dv i starts st = Ok st' ->
  records_from dv len j starts sizes -> 0 <= i -> 0 <= k ->
  Tt.npt st = 3 * k ->
  i + Z.of_nat (length starts) <= Z.of_nat (length (Tt.offsetPt0 st)) ->
  Tt.npt st' = 3 * (k + total (map tt_count sizes))
  /\ length (Tt.pts st') = length (Tt.pts st)
  /\ length (Tt.offsetPt0 st') = length (Tt.offsetPt0 st)
  /\ take (Z.to_nat (i + Z.of_nat (length starts))) (Tt.offsetPt0 st')
     = take (Z.to_nat i) (Tt.offsetPt0 st)
       ++ map ToUint32 (before k (map tt_count sizes)).
Proof.
  induction starts as [| p starts IH]; intros dv len j i sizes st st' k H Hat
    Hi Hk Hn Hcap; cbn [Tt.records] in H.
  - injection H as <-. destruct sizes; [| contradiction].
    cbn [map total fold_right before length]. rewrite app_nil_r.
    split; [lia |]. split; [reflexivity |]. split; [reflexivity |].
    replace (i + Z.of_nat 0) with i by lia. reflexivity.
  - destruct sizes as [| s sizes]; [contradiction |].
    destruct Hat as (-> & _ & Es & Hat).
    destruct (Tt.record dv i j st) as [st1 |] eqn:E1; cbn [bind] in H;
      [| discriminate].
    unfold Tt.record in E1. rewrite Es in E1. cbn [bind] in E1.
    bind_inv E1.
    match goal with
    | Hd : Tt.deltas _ _ _ _ _ _ _ _ = Ok _ |- _ =>
        apply deltas_npt in Hd as [En El]
    end.
    injection E1 as <-.
    pose proof (raw_ok dv j 4 true s Es) as [_ Hs0].
    assert (Hcount : tt_count s = 1 + Z.of_nat (Z.to_nat (s / 3 - 1))).
    { unfold tt_count. lia. }
    cbn [length] in Hcap.
    eapply (IH _ _ _ _ sizes _ _ (k + tt_count s)) in H;
      cbn [Tt.npt Tt.pts Tt.offsetPt0];
      [| exact Hat | lia | lia | lia | rewrite length_ta_set; lia].
    cbn [Tt.npt Tt.pts Tt.offsetPt0] in H.
    destruct H as (H1 & H2 & H3 & H4).
    cbn [map total fold_right before length]. fold (total (map tt_count sizes)).
    split; [rewrite H1; lia |].
    split; [rewrite H2, El, !length_ta_set; reflexivity |].
    split; [rewrite H3, length_ta_set; reflexivity |].
    replace (i + Z.of_nat (S (length starts)))
      with (i + 1 + Z.of_nat (length starts)) by lia.
    rewrite H4. rewrite take_ta_set_next by lia.
    destruct (Nat.ltb_spec (Z.to_nat i) (length (Tt.offsetPt0 st)));
      [| exfalso; lia].
    rewrite <- app_assoc. cbn [app map]. do 3 f_equal.
    rewrite Hn. rewrite Z.mul_comm, Z.div_mul by lia. reflexivity.
Qed.

Lemma length_scale npt pts : length (Tt.scale npt pts) = length pts.
Proof.
  unfold Tt.scale. generalize (seq 0 (Z.to_nat npt)). intros l.
  revert pts. induction l as [| i l IH]; intros pts; [reflexivity |].
  cbn [fold_left]. rewrite IH. apply length_ta_set.
Qed.

Lemma length_to_mni m npt pts : length (Tt.to_mni m npt pts) = length pts.
Proof.
  unfold Tt.to_mni. cbn zeta.
  generalize (seq 0 (Z.to_nat ((npt + 2) / 3))). intros l.
  revert pts. induction l as [| i l IH]; intros pts; [reflexivity |].
  cbn [fold_left]. rewrite IH. rewrite !length_ta_set. reflexivity.
Qed.

Lemma vertices_total counts :
  Forall (fun k => 0 <= k) counts ->
  Z.of_nat (vertices_of counts) = total counts.
Proof.
  induction counts as [| k counts IH]; intros H; [reflexivity |].
  apply Forall_cons_1 in H as [Hk H].
  cbn [vertices_of total fold_right]. fold (vertices_of counts).
  fold (total counts). rewrite <- IH by exact H. lia.
Qed.

Lemma tt_count_pos sizes : Forall (fun k => 0 <= k) (map tt_count sizes).
Proof.
  apply Forall_map. apply Forall_forall. intros s _. cbv beta.
  unfold tt_count. lia.
Qed.

Lemma total_whole sizes :
  Forall (fun s => 3 <= s /\ s mod 3 = 0) sizes ->
  total sizes = total (map tt_count sizes) * 3.
Proof.
  induction sizes as [| s sizes IH]; intros H; [reflexivity |].
  apply Forall_cons_1 in H as [[Hs Hm] H].
  cbn [map total fold_right]. fold (total sizes).
  fold (total (map tt_count sizes)). rewrite IH by exact H.
  unfold tt_count. pose proof (Z.div_mod s 3 ltac:(lia)) as Hd.
  assert (1 <= s / 3) by (apply Z.div_le_lower_bound; lia). lia.
Qed.

Lemma records_from_length starts : forall dv len i sizes,
  records_from dv len i starts sizes -> length sizes = length starts.
Proof.
  induction starts as [| p starts IH]; intros dv len i [| s sizes] H;
    cbn [records_from] in H; try contradiction; [reflexivity |].
  destruct H as (_ & _ & _ & H). cbn [length]. f_equal. eapply IH, H.
Qed.

Lemma length_running counts : forall acc,
  length (running acc counts) = length counts.
Proof.
  induction counts as [| k counts IH]; intros acc; [reflexivity |].
  cbn [running length]. f_equal. apply IH.
Qed.

(** [parse_tt] reads the records laid one after the other from the start
    of the track up to its length, each [size + 13] bytes long.  The
    offsets it returns are 0 followed by the running totals of the
    vertices it wrote for each of them, one more entry than there are
    records, and pts has as many numbers as their size fields add up to.
    When every size field is a positive multiple of 3 (and the vertices
    are fewer than 2^32), the result keeps the fence post convention. *)
Theorem parse_tt_fence_post m track t :
  Tt.parse_tt m track = Ok t ->
  exists starts sizes,
    records_from (ta_buffer track) (ta_length track) 0 starts sizes
    /\ tt_offsetPt0 t
       = map ToUint32 (0 :: running 0 (map tt_count sizes))
    /\ length (tt_offsetPt0 t) = S (length starts)
    /\ length (tt_pts t) = Z.to_nat (total sizes)
    /\ (Forall (fun s => 3 <= s /\ s mod 3 = 0) sizes ->
        total (map tt_count sizes) < 2 ^ 32 ->
        fence_post (tt_pts t) (tt_offsetPt0 t) = true).
Proof.
  unfold Tt.parse_tt. cbn zeta. intros H.
  destruct (Tt.scan _ _ _ 0 [] 0) as [[pos nvert3] |] eqn:Escan;
    cbn [bind] in H; [| discriminate].
  apply scan_records in Escan as (starts & sizes & Hpos & Hat & Hn & Hs0).
  cbn [app] in Hpos. subst pos. rewrite Z.add_0_l in Hn. subst nvert3.
  destruct (Tt.records _ 0 starts _) as [st |] eqn:Erec; cbn [bind] in H;
    [| discriminate].
  injection H as <-. cbn [tt_pts tt_offsetPt0].
  eapply (tt_records starts _ _ _ 0 sizes _ _ 0) in Erec;
    [| exact Hat | lia | lia | reflexivity
     | cbn [Tt.offsetPt0]; unfold new_Uint32Array;
       rewrite length_replicate; lia].
  cbn [Tt.npt Tt.pts Tt.offsetPt0] in Erec.
  destruct Erec as (Hnpt & Hlp & Hlo & Htake).
  unfold new_Uint32Array in Hlo. rewrite length_replicate in Hlo.
  unfold new_Float32Array in Hlp. rewrite length_replicate in Hlp.
  rewrite Z.add_0_l in Htake, Hnpt. change (Z.to_nat 0) with O in Htake.
  rewrite take_0 in Htake. cbn [app] in Htake.
  set (counts := map tt_count sizes) in *.
  assert (Hoff : ta_set (Tt.offsetPt0 st) (Z.of_nat (length starts))
                   (ToUint32 (Tt.npt st / 3))
                 = map ToUint32 (0 :: running 0 counts)).
  { rewrite <- before_total, map_app, <- Htake. cbn [map].
    rewrite Hnpt, Z.mul_comm, Z.div_mul, Z.add_0_l by lia.
    pose proof (take_ta_set_next (Tt.offsetPt0 st)
                  (Z.of_nat (length starts))
                  (ToUint32 (total counts)) ltac:(lia)) as Ht.
    rewrite take_ge in Ht by (rewrite length_ta_set; lia).
    destruct (Nat.ltb_spec (Z.to_nat (Z.of_nat (length starts)))
                (length (Tt.offsetPt0 st))); [exact Ht | exfalso; lia]. }
  exists starts, sizes. split; [exact Hat |]. split; [exact Hoff |].
  split.
  { rewrite Hoff, length_map. cbn [length]. subst counts.
    rewrite length_running, length_map.
    rewrite (records_from_length _ _ _ _ _ Hat). reflexivity. }
  assert (Hlen : length (Tt.to_mni m (Tt.npt st)
                           (Tt.scale (Tt.npt st) (Tt.pts st)))
                 = Z.to_nat (total sizes)).
  { rewrite length_to_mni, length_scale. exact Hlp. }
  split; [exact Hlen |].
  intros Hok Hlt. fold counts in Hlt. rewrite Hoff.
  pose proof (tt_count_pos sizes) as Hc. fold counts in Hc.
  pose proof (vertices_total counts Hc) as Hv.
  change (map ToUint32 (0 :: running 0 counts))
    with (ToUint32 0 :: map ToUint32 (running 0 counts)).
  rewrite running_small by (try assumption; lia).
  change (ToUint32 0) with 0.
  destruct (running_nonneg counts 0) as (_ & Hnd & Hlast); [lia | exact Hc |].
  unfold fence_post. rewrite Hnd, Hlast, Hlen, Hv.
  rewrite (total_whole sizes Hok). fold counts.
  rewrite Z2Nat.id by lia. rewrite Z.div_mul by lia.
  cbn [Z.eqb andb Z.add]. apply Z.eqb_refl.
Qed.

Lemma parse_tt_fence_post_witness :
  let pts := [of_Z 1; of_Z 2; of_Z 3; of_Z 2; of_Z 2; of_Z 2;
              of_Z 0; of_Z 1; of_Z 2] in
  exists starts sizes,
    records_from (ta_buffer Vec.tt_track2) (ta_length Vec.tt_track2) 0
      starts sizes
    /\ [0; 2; 3] = map ToUint32 (0 :: running 0 (map tt_count sizes))
    /\ length [0; 2; 3] = S (length starts)
    /\ length pts = Z.to_nat (total sizes)
    /\ (Forall (fun s => 3 <= s /\ s mod 3 = 0) sizes ->
        total (map tt_count sizes) < 2 ^ 32 ->
        fence_post pts [0; 2; 3] = true).
Proof.
  intros pts.
  apply (parse_tt_fence_post mat4.identity Vec.tt_track2
           {| tt_pts := pts; tt_offsetPt0 := [0; 2; 3] |}).
  vm_compute. reflexivity.
Defined.

(** *** readTRK: the offsets it returns *)

Lemma take_cap_snoc {A} (a P : list A) n v :
  length P = n ->
  take n a = take (length a) P ->
  take (S n) (<[n := v]> a) = take (length a) (P ++ [v]).
Proof.
  intros HP Ht.
  destruct (Nat.lt_ge_cases n (length a)) as [Hlt | Hge].
  - rewrite (take_S_r _ _ v) by (apply list_lookup_insert_eq; exact Hlt).
    rewrite take_insert_ge by lia. rewrite Ht.
    rewrite (take_ge P) by lia.
    rewrite take_ge by (rewrite length_app; cbn [length]; lia).
    reflexivity.
  - rewrite list_insert_ge by lia.
    rewrite (take_ge a) by lia. rewrite (take_ge a) in Ht by lia.
    rewrite take_app_le by lia. exact Ht.
Qed.

Lemma vertices_walk f32 m ns n : forall st,
  let st' := Trk.vertices f32 m ns n st in
  Trk.i st' = Trk.i st
              + Z.of_nat n * (3 + (if 0 <? ns then ns else 0))
  /\ Trk.npt st' = Trk.npt st + Z.of_nat n
  /\ Trk.noffset st' = Trk.noffset st
  /\ Trk.offsetPt0 st' = Trk.offsetPt0 st.
Proof.
  induction n as [| n IH]; intros st; cbn zeta; cbn [Trk.vertices].
  - repeat split; lia.
  - destruct (IH (Trk.vertex f32 m ns st)) as (-> & -> & -> & ->).
    unfold Trk.vertex. destruct (0 <? ns);
      cbn [Trk.i Trk.npt Trk.noffset Trk.offsetPt0]; repeat split; lia.
Qed.

Lemma streamline_walk f32 i32 m ns np st :
  let c := Z.of_nat (Z.to_nat (nth (Z.to_nat (Trk.i st)) i32 0)) in
  let st' := Trk.streamline f32 i32 m ns np st in
  Trk.i st' = Trk.i st + 1 + c * (3 + (if 0 <? ns then ns else 0))
              + (if 0 <? np then np else 0)
  /\ Trk.npt st' = Trk.npt st + c
  /\ Trk.noffset st' = Trk.noffset st + 1
  /\ Trk.offsetPt0 st'
     = ta_set (Trk.offsetPt0 st) (Trk.noffset st) (ToUint32 (Trk.npt st)).
Proof.
  cbn zeta. unfold Trk.streamline.
  match goal with
  | |- context [Trk.vertices f32 m ns ?n ?s] =>
      destruct (vertices_walk f32 m ns n s) as (E1 & E2 & E3 & E4);
      set (st1 := Trk.vertices f32 m ns n s) in *
  end.
  cbn [Trk.i Trk.npt Trk.noffset Trk.offsetPt0] in E1, E2, E3, E4.
  destruct (0 <? np); cbn [Trk.i Trk.npt Trk.noffset Trk.offsetPt0];
    rewrite ?E1, ?E2, ?E3, ?E4; repeat split; lia.
Qed.

Lemma streamlines_offsets f32 i32 m ns np fuel : forall st st' P,
  Trk.streamlines f32 i32 m ns np fuel st = Ok st' ->
  0 <= Trk.noffset st ->
  length P = Z.to_nat (Trk.noffset st) ->
  take (Z.to_nat (Trk.noffset st)) (Trk.offsetPt0 st)
  = take (length (Trk.offsetPt0 st)) P ->
  let cs := trk_counts fuel i32 ns np (Trk.i st) in
  Trk.noffset st' = Trk.noffset st + Z.of_nat (length cs)
  /\ Trk.npt st' = Trk.npt st + total cs
  /\ length (Trk.offsetPt0 st') = length (Trk.offsetPt0 st)
  /\ take (Z.to_nat (Trk.noffset st')) (Trk.offsetPt0 st')
     = take (length (Trk.offsetPt0 st))
         (P ++ map ToUint32 (before (Trk.npt st) cs)).
Proof.
  induction fuel as [| fuel IH]; intros st st' P H Hn HP Ht; cbn zeta;
    cbn [Trk.streamlines trk_counts] in *;
    destruct (Trk.i st <? Z.of_nat (length i32)); try discriminate.
  - injection H as <-. cbn [length total fold_right before map].
    rewrite app_nil_r. repeat split; try lia. exact Ht.
  - destruct (streamline_walk f32 i32 m ns np st) as (E1 & E2 & E3 & E4).
    set (c := Z.of_nat (Z.to_nat (nth (Z.to_nat (Trk.i st)) i32 0))) in *.
    set (st1 := Trk.streamline f32 i32 m ns np st) in *.
    destruct (IH st1 st' (P ++ [ToUint32 (Trk.npt st)]) H)
      as (F1 & F2 & F3 & F4).
    + lia.
    + rewrite length_app, E3. cbn [length]. lia.
    + rewrite E3, E4. unfold ta_set.
      destruct (Z.ltb_spec (Trk.noffset st) 0); [exfalso; lia |].
      rewrite length_insert.
      replace (Z.to_nat (Trk.noffset st + 1))
        with (S (Z.to_nat (Trk.noffset st))) by lia.
      apply take_cap_snoc; assumption.
    + rewrite E1 in F1, F2, F4. rewrite E2 in F2, F4. rewrite E3 in F1.
      rewrite E4, length_ta_set in F3, F4.
      cbn [length total fold_right before map].
      fold (total (trk_counts fuel i32 ns np
                     (Trk.i st + 1
                      + c * (3 + (if 0 <? ns then ns else 0))
                      + (if 0 <? np then np else 0)))).
      split; [lia |]. split; [lia |]. split; [exact F3 |].
      rewrite F4, <- app_assoc. reflexivity.
  - injection H as <-. cbn [length total fold_right before map].
    rewrite app_nil_r. repeat split; try lia. exact Ht.
Qed.

Lemma length_before cs : forall acc, length (before acc cs) = length cs.
Proof.
  induction cs as [| k cs IH]; intros acc; [reflexivity |].
  cbn [before length]. rewrite IH. reflexivity.
Qed.

Lemma trk_counts_nonneg fuel : forall i32 ns np i,
  Forall (fun k => 0 <= k) (trk_counts fuel i32 ns np i).
Proof.
  induction fuel as [| fuel IH]; intros i32 ns np i; cbn [trk_counts];
    destruct (i <? Z.of_nat (length i32)); try constructor; [lia |].
  apply IH.
Qed.

(** The offsets readTRK returns are the first [words / 4] entries of the
    fence post list (0, then the running totals of the vertex counts of the
    records), [words] being the number of 32-bit words after the header:
    the offsets array is allocated with [words / 4] entries, and what does
    not fit is dropped.  The list is complete when it fits. *)
Theorem readTRK_offsets decompress buffer t w :
  Trk.readTRK decompress buffer = Ok (t, w) ->
  exists raw ns np,
    (DataView.getUint32 buffer 0 true = Ok Trk.TRAC -> raw = buffer)
    /\ DataView.getInt16 raw 36 true = Ok ns
    /\ DataView.getInt16 raw 238 true = Ok np
    /\ let i32 :=
         map (signed 32) (words32 (slice raw 1000 (byteLength raw))) in
       let cs := trk_counts (length i32) i32 ns np 0 in
       trk_offsetPt0 t
       = take (Z.to_nat (Z.of_nat (length i32) / 4))
           (map ToUint32 (0 :: running 0 cs))
       /\ (Z.of_nat (length cs) + 1 <= Z.of_nat (length i32) / 4 ->
           total cs < 2 ^ 32 ->
           trk_offsetPt0 t = 0 :: running 0 cs).
Proof.
  unfold Trk.readTRK. intros H.
  destruct (DataView.getUint32 buffer 0 true) as [magic |] eqn:Emagic;
    cbn [bind] in H; [| discriminate].
  match type of H with
  | bind ?r _ = _ => destruct r as [[raw magic'] |] eqn:Eraw
  end; cbn [bind] in H; [| discriminate].
  assert (Hsame : Ok magic = Ok Trk.TRAC -> raw = buffer).
  { intros Hm. injection Hm as ->.
    change (negb (Trk.TRAC =? Trk.TRAC)) with false in Eraw.
    cbn iota in Eraw. injection Eraw as <- _. reflexivity. }
  clear Eraw.
  destruct (DataView.getUint32 raw 992 true) as [vers |];
    cbn [bind] in H; [| discriminate].
  destruct (DataView.getUint32 raw 996 true) as [hdr_sz |];
    cbn [bind] in H; [| discriminate].
  destruct (hdr_sz =? 1000) eqn:Eh.
  2: { cbn [negb] in H. rewrite orb_true_r in H. discriminate. }
  apply Z.eqb_eq in Eh. subst hdr_sz.
  destruct (_ || _); [discriminate |].
  destruct (DataView.getInt16 raw 36 true) as [ns |] eqn:Ens;
    cbn [bind] in H; [| discriminate].
  bind_inv H.
  match goal with
  | E : DataView.getInt16 raw 238 true = Ok ?v |- _ =>
      rename v into np; rename E into Enp
  end.
  destruct (_ <? 1) eqn:Hempty; [discriminate |].
  match type of H with
  | bind (Trk.streamlines ?f32 ?i32 ?m ?ns' ?np' ?fuel ?st0) _ = _ =>
      destruct (Trk.streamlines f32 i32 m ns' np' fuel st0) as [st |] eqn:Hloop;
      cbn [bind] in H; [| discriminate];
      apply (streamlines_offsets f32 i32 m ns' np' fuel st0 st []) in Hloop;
      [| cbn [Trk.noffset]; lia | reflexivity
       | cbn [Trk.noffset]; change (Z.to_nat 0) with O;
         rewrite take_0, take_nil; reflexivity ]
  end.
  cbn zeta in Hloop.
  cbn [Trk.noffset Trk.npt Trk.i Trk.offsetPt0 app] in Hloop.
  destruct Hloop as (Hno & Hnpt & Hlo & Htake).
  injection H as <- _. cbn [trk_offsetPt0].
  exists raw, ns, np.
  split; [exact Hsame |]. split; [exact Ens |]. split; [exact Enp |].
  cbn zeta.
  set (i32 := map (signed 32) (words32 (slice raw 1000 (byteLength raw))))
    in *.
  set (cs := trk_counts (length i32) i32 ns np 0) in *.
  unfold new_Uint32Array in Hlo, Htake. rewrite length_replicate in Hlo, Htake.
  rewrite Z.add_0_l in Hno, Hnpt.
  assert (Hall : slice (ta_set (Trk.offsetPt0 st) (Trk.noffset st)
                          (ToUint32 (Trk.npt st)))
                   0 (Trk.noffset st + 1)
                 = take (Z.to_nat (Z.of_nat (length i32) / 4))
                     (map ToUint32 (0 :: running 0 cs))).
  { rewrite slice_take by lia. unfold ta_set.
    destruct (Z.ltb_spec (Trk.noffset st) 0); [exfalso; lia |].
    replace (Z.to_nat (Trk.noffset st + 1))
      with (S (Z.to_nat (Trk.noffset st))) by lia.
    rewrite <- before_total, map_app. cbn [map]. rewrite Z.add_0_l.
    rewrite <- Hnpt, <- Hlo.
    apply take_cap_snoc.
    - rewrite length_map, length_before, Hno. lia.
    - rewrite Hlo. exact Htake. }
  split; [exact Hall |].
  intros Hfit Hsmall. rewrite Hall.
  rewrite take_ge by (rewrite length_map; cbn [length];
                      rewrite length_running; lia).
  change (map ToUint32 (0 :: running 0 cs))
    with (ToUint32 0 :: map ToUint32 (running 0 cs)).
  change (ToUint32 0) with 0. f_equal.
  apply running_small; [lia | | ].
  - subst cs. apply trk_counts_nonneg.
  - rewrite vertices_total by (subst cs; apply trk_counts_nonneg). lia.
Qed.

Lemma readTRK_offsets_witness :
  exists raw ns np,
    (DataView.getUint32 Vec.trk_one 0 true = Ok Trk.TRAC -> raw = Vec.trk_one)
    /\ DataView.getInt16 raw 36 true = Ok ns
    /\ DataView.getInt16 raw 238 true = Ok np
    /\ let i32 :=
         map (signed 32) (words32 (slice raw 1000 (byteLength raw))) in
       let cs := trk_counts (length i32) i32 ns np 0 in
       [0] = take (Z.to_nat (Z.of_nat (length i32) / 4))
               (map ToUint32 (0 :: running 0 cs))
       /\ (Z.of_nat (length cs) + 1 <= Z.of_nat (length i32) / 4 ->
           total cs < 2 ^ 32 ->
           [0] = 0 :: running 0 cs).
Proof.
  apply (readTRK_offsets no_decompress Vec.trk_one
           {| trk_pts := [dyadic 1 (-1); dyadic 3 (-1); dyadic 5 (-1)];
              trk_offsetPt0 := [0]; trk_dps := []; trk_dpv := [] |}
           [TRK_vox_to_ras_not_set]).
  vm_compute. reflexivity.
Defined.

(** *** readVTK: 64-bit offsets *)

Lemma getInt32_be pre v rest :
  0 <= v < 2 ^ 32 ->
  DataView.getInt32 (pre ++ Vec.be32 v ++ rest) (byteLength pre) false
  = Ok (signed 32 v).
Proof.
  intros Hv. unfold DataView.getInt32, byteLength.
  rewrite (raw_at pre (Vec.be32 v));
    [| unfold Vec.be32; rewrite length_rev, length_le_bytes; reflexivity
     | lia].
  cbn [bind]. unfold Vec.be32, be_val. rewrite rev_involutive.
  rewrite le_val_le_bytes_small by exact Hv. reflexivity.
Qed.

Lemma signed32_zero v : 0 <= v < 2 ^ 32 -> (signed 32 v =? 0) = (v =? 0).
Proof.
  intros Hv. unfold signed.
  destruct (Z.ltb_spec v (2 ^ (32 - 1))); [reflexivity |].
  destruct (Z.eqb_spec v 0) as [-> | Hne]; [lia |].
  apply Z.eqb_neq. lia.
Qed.

Lemma ToUint32_signed v : 0 <= v < 2 ^ 32 -> ToUint32 (signed 32 v) = v.
Proof.
  intros Hv. unfold ToUint32, signed.
  destruct (Z.ltb_spec v (2 ^ (32 - 1))).
  - apply Z.mod_small. exact Hv.
  - replace (v - 2 ^ 32) with (v + (-1) * 2 ^ 32) by lia.
    rewrite Z.mod_add by lia. apply Z.mod_small. exact Hv.
Qed.

Lemma byteLength_be32 v : byteLength (Vec.be32 v) = 4.
Proof.
  unfold byteLength, Vec.be32. rewrite length_rev, length_le_bytes.
  reflexivity.
Qed.

(** An OFFSETS block of 64-bit integers is narrowed to the low 32 bits of
    each, and the overflow warning is raised exactly when some offset does
    not fit. *)
Theorem read_offsets_int64 vs : forall pre rest,
  Forall (fun v => 0 <= v < 2 ^ 64) vs ->
  Vtk.read_offsets (length vs) (pre ++ be64s vs ++ rest) true
    (byteLength pre)
  = Ok (map (fun v => v mod 2 ^ 32) vs,
        existsb (fun v => 2 ^ 32 <=? v) vs).
Proof.
  induction vs as [| v vs IH]; intros pre rest Hvs; [reflexivity |].
  apply Forall_cons_1 in Hvs as [Hv Hvs].
  assert (Hhi : 0 <= v / 2 ^ 32 < 2 ^ 32).
  { split; [apply Z.div_pos; lia | apply Z.div_lt_upper_bound; lia]. }
  assert (Hlo : 0 <= v mod 2 ^ 32 < 2 ^ 32) by (apply Z.mod_pos_bound; lia).
  cbn [length Vtk.read_offsets be64s flat_map]. fold (be64s vs).
  rewrite <- !app_assoc.
  rewrite (getInt32_be pre (v / 2 ^ 32)) by exact Hhi. cbn [bind].
  rewrite (app_assoc pre (Vec.be32 (v / 2 ^ 32))).
  replace (byteLength pre + 4)
    with (byteLength (pre ++ Vec.be32 (v / 2 ^ 32)))
    by (rewrite byteLength_app, byteLength_be32; reflexivity).
  rewrite (getInt32_be _ (v mod 2 ^ 32)) by exact Hlo. cbn [bind].
  rewrite (app_assoc _ (Vec.be32 (v mod 2 ^ 32))).
  replace (byteLength pre + 8)
    with (byteLength ((pre ++ Vec.be32 (v / 2 ^ 32))
                      ++ Vec.be32 (v mod 2 ^ 32)))
    by (rewrite !byteLength_app, !byteLength_be32; lia).
  rewrite IH by exact Hvs. cbn [bind map existsb].
  rewrite ToUint32_signed by exact Hlo.
  rewrite signed32_zero by exact Hhi. do 2 f_equal.
  destruct (Z.eqb_spec (v / 2 ^ 32) 0) as [Hz | Hz];
    destruct (Z.leb_spec (2 ^ 32) v) as [Hle | Hlt];
    try reflexivity; exfalso.
  - apply Z.div_small_iff in Hz; lia.
  - apply Hz. apply Z.div_small. lia.
Qed.

Lemma read_offsets_int64_witness :
  Vtk.read_offsets (length [7; 2 ^ 32 + 1]) ([x0a] ++ be64s [7; 2 ^ 32 + 1] ++ [])
    true (byteLength [x0a])
  = Ok (map (fun v => v mod 2 ^ 32) [7; 2 ^ 32 + 1],
        existsb (fun v => 2 ^ 32 <=? v) [7; 2 ^ 32 + 1]).
Proof.
  apply (read_offsets_int64 [7; 2 ^ 32 + 1] [x0a] []).
  repeat (apply Forall_cons; split; [lia |]). apply Forall_nil_2.
Defined.

(** *** readTT: the variables it requires *)

Lemma last_named_has vars name :
  match last_named vars (Text.str name) with
  | Some _ => has_var vars name = true
  | None => has_var vars name = false
  end.
Proof.
  unfold has_var. induction vars as [| v vars IH]; [reflexivity |].
  cbn [last_named existsb].
  destruct (last_named vars (Text.str name)).
  - rewrite IH. apply orb_true_r.
  - rewrite IH, orb_false_r.
    destruct (Text.equal (mv_name v) (Text.str name)); reflexivity.
Qed.

Lemma mat_get_vars vars name :
  match mat_get (assigned vars []) (Text.str name) with
  | Some _ => has_var vars name = true
  | None => has_var vars name = false
  end.
Proof.
  rewrite mat_get_assigned. pose proof (last_named_has vars name) as H.
  destruct (last_named vars (Text.str name)); exact H.
Qed.

(** A MAT file of variables with plain names that lacks one of the
    variables trans_to_mni, voxel_size and track is refused by readTT with
    the name of the first one that is missing, in this order. *)
Theorem readTT_missing decompress vars trailing :
  Forall mat_var_ok vars ->
  40 <= byteLength (mat_file vars ++ trailing) ->
  byteLength trailing <= 20 ->
  (has_var vars "trans_to_mni" = false ->
   Tt.readTT decompress (mat_file vars ++ trailing)
   = Throw (TT_missing "trans_to_mni"))
  /\ (has_var vars "trans_to_mni" = true ->
      has_var vars "voxel_size" = false ->
      Tt.readTT decompress (mat_file vars ++ trailing)
      = Throw (TT_missing "voxel_size"))
  /\ (has_var vars "trans_to_mni" = true ->
      has_var vars "voxel_size" = true ->
      has_var vars "track" = false ->
      Tt.readTT decompress (mat_file vars ++ trailing)
      = Throw (TT_missing "track")).
Proof.
  intros Hok Hlen Ht. unfold Tt.readTT.
  rewrite (readMatV4_file decompress vars trailing Hok Hlen Ht). cbn [bind].
  pose proof (mat_get_vars vars "trans_to_mni") as H1.
  pose proof (mat_get_vars vars "voxel_size") as H2.
  pose proof (mat_get_vars vars "track") as H3.
  destruct (mat_get (assigned vars []) (Text.str "trans_to_mni")).
  2: { split; [reflexivity |]. split; intros; congruence. }
  split; [intros; congruence |].
  destruct (mat_get (assigned vars []) (Text.str "voxel_size")).
  2: { split; [reflexivity |]. intros; congruence. }
  split; [intros; congruence |].
  destruct (mat_get (assigned vars []) (Text.str "track")).
  - intros; congruence.
  - reflexivity.
Qed.

Lemma readTT_missing_witness :
  let v := {| mv_type := 0; mv_rows := 4; mv_cols := 4;
              mv_name := Text.str "trans_to_mni";
              mv_data := replicate 128 x00 |} in
  (has_var [v] "trans_to_mni" = false ->
   Tt.readTT no_decompress (mat_file [v] ++ [])
   = Throw (TT_missing "trans_to_mni"))
  /\ (has_var [v] "trans_to_mni" = true ->
      has_var [v] "voxel_size" = false ->
      Tt.readTT no_decompress (mat_file [v] ++ [])
      = Throw (TT_missing "voxel_size"))
  /\ (has_var [v] "trans_to_mni" = true ->
      has_var [v] "voxel_size" = true ->
      has_var [v] "track" = false ->
      Tt.readTT no_decompress (mat_file [v] ++ [])
      = Throw (TT_missing "track")).
Proof.
  intros v.
  apply (readTT_missing no_decompress [v] []).
  - apply Forall_cons. split; [| apply Forall_nil_2].
    unfold mat_var_ok. cbn.
    repeat split; try lia; try discriminate; reflexivity.
  - vm_compute. discriminate.
  - vm_compute. discriminate.
Defined.

(** *** The archive reader: ZIP64 sizes *)

Lemma byteLength_extra_field f :
  byteLength (extra_field f) = 4 + byteLength (snd f).
Proof.
  unfold extra_field. rewrite !byteLength_app.
  unfold byteLength, Vec.le16. rewrite !length_le_bytes. lia.
Qed.

Lemma byteLength_zip64_info u c : byteLength (zip64_info u c) = 20.
Proof.
  unfold zip64_info. rewrite !byteLength_app.
  unfold byteLength, Vec.le16. rewrite !length_le_bytes. reflexivity.
Qed.

(** The search skips the fields before the ZIP64 one and reads its two
    sizes. *)
Lemma zip64_field_found others : forall fuel pre more usize csize,
  Forall other_field others ->
  0 <= usize < 2 ^ 64 -> 0 <= csize < 2 ^ 64 ->
  (length others < fuel)%nat ->
  Zip.zip64_field fuel
    (pre ++ flat_map extra_field others ++ zip64_info usize csize ++ more)
    (byteLength pre)
    (byteLength pre + byteLength (flat_map extra_field others) + 20 - 4)
  = Ok (Some (of_bigint usize, of_bigint csize)).
Proof.
  induction others as [| f others IH]; intros fuel pre more usize csize Hok
    Hu Hc Hfuel; (destruct fuel as [| fuel]; [cbn [length] in Hfuel; lia |]);
    cbn [Zip.zip64_field flat_map].
  - change (byteLength []) with 0. cbn [app].
    destruct (Z.ltb_spec (byteLength pre) (byteLength pre + 0 + 20 - 4));
      [| exfalso; lia].
    set (chunks := [Vec.le16 1; Vec.le16 16; le_bytes 8 usize;
                    le_bytes 8 csize]).
    replace (zip64_info usize csize ++ more) with (concat chunks ++ more).
    2: { unfold zip64_info. subst chunks. cbn [concat].
         rewrite app_nil_r, <- !app_assoc. reflexivity. }
    unfold DataView.getUint16, DataView.getBigUint64.
    rewrite (word_at pre chunks more 0 1 1)
      by first [ reflexivity
               | change (Z.of_nat (length (concat (take 0 chunks)))) with 0;
                 lia
               | change (Z.of_nat 2) with 2; lia ].
    cbn [bind].
    rewrite (word_at pre chunks more 1 1 16)
      by first [ reflexivity | change (Z.of_nat 2) with 2; lia ].
    cbn [bind Z.eqb Pos.eqb Z.leb Z.compare Pos.compare Pos.compare_cont].
    rewrite (word_at pre chunks more 2 7 usize)
      by first [ reflexivity
               | change (Z.of_nat (length (concat (take 2 chunks)))) with 4;
                 lia
               | change (256 ^ Z.of_nat 8) with (2 ^ 64); lia ].
    cbn [bind].
    rewrite (word_at pre chunks more 3 7 csize)
      by first [ reflexivity
               | change (Z.of_nat (length (concat (take 3 chunks)))) with 12;
                 lia
               | change (256 ^ Z.of_nat 8) with (2 ^ 64); lia ].
    reflexivity.
  - apply Forall_cons_1 in Hok as [(Hsig & Hne & Hlen) Hok].
    pose proof (Zle_0_nat (length (snd f))) as Hd0.
    pose proof (Zle_0_nat (length (flat_map extra_field others))) as Hr0.
    rewrite byteLength_app, byteLength_extra_field.
    destruct (Z.ltb_spec (byteLength pre)
                (byteLength pre
                 + (4 + byteLength (snd f)
                    + byteLength (flat_map extra_field others)) + 20 - 4));
      [| exfalso; unfold byteLength in *; lia].
    rewrite <- !app_assoc.
    set (rest := flat_map extra_field others ++ zip64_info usize csize
                 ++ more).
    set (chunks := [Vec.le16 (fst f); Vec.le16 (byteLength (snd f)); snd f]).
    assert (Hb : extra_field f ++ rest = concat chunks ++ rest).
    { unfold extra_field. subst chunks. cbn [concat].
      rewrite app_nil_r, <- !app_assoc. reflexivity. }
    rewrite Hb.
    unfold DataView.getUint16.
    rewrite (word_at pre chunks rest 0 1 (fst f))
      by first [ reflexivity
               | change (Z.of_nat (length (concat (take 0 chunks)))) with 0;
                 lia
               | change (Z.of_nat 2) with 2; lia ].
    cbn [bind].
    rewrite (word_at pre chunks rest 1 1 (byteLength (snd f)))
      by first [ reflexivity
               | change (Z.of_nat 2) with 2; unfold byteLength in *; lia ].
    cbn [bind].
    destruct (Z.eqb_spec (fst f) 1); [contradiction |].
    rewrite <- Hb. subst rest.
    rewrite (app_assoc pre (extra_field f)).
    replace (byteLength pre + 4 + byteLength (snd f))
      with (byteLength (pre ++ extra_field f))
      by (rewrite byteLength_app, byteLength_extra_field; lia).
    replace (byteLength pre
             + (4 + byteLength (snd f)
                + byteLength (flat_map extra_field others)) + 20 - 4)
      with (byteLength (pre ++ extra_field f)
            + byteLength (flat_map extra_field others) + 20 - 4)
      by (rewrite byteLength_app, byteLength_extra_field; lia).
    apply IH; try assumption. cbn [length] in Hfuel. lia.
Qed.

Lemma length_extra_fields others :
  (length others <= length (flat_map extra_field others))%nat.
Proof.
  induction others as [| f others IH]; [reflexivity |].
  cbn [flat_map length]. rewrite length_app.
  pose proof (byteLength_extra_field f) as H. unfold byteLength in H. lia.
Qed.

(** A local header whose two 32-bit sizes are the ZIP64 marker takes its
    sizes from the ZIP64 extended information field of the extra data,
    after any other fields: the first 64-bit number is the uncompressed
    size and the second the compressed size, each converted to a number. *)
Theorem readLocalFile_zip64 gp method crc name others usize csize data more :
  let extra := flat_map extra_field others ++ zip64_info usize csize in
  0 <= gp < 65536 -> 0 <= method < 65536 -> 0 <= crc < 2 ^ 32 ->
  byteLength name < 65536 -> byteLength extra < 65536 ->
  Forall other_field others ->
  0 <= usize < 2 ^ 64 -> 0 <= csize < 2 ^ 64 ->
  Zip.readLocalFile
    (Vec.zip_local gp method crc 0xffffffff 0xffffffff name extra data
     ++ more) 0
  = Ok {| signature := Vec.le32 Zip.SIG_LOCAL; version := 20;
          generalPurpose := gp; compressionMethod := method;
          lastModifiedTime := 0; lastModifiedDate := 0; crc := crc;
          compressedSize := of_bigint csize;
          uncompressedSize := of_bigint usize;
          fileNameLength := byteLength name;
          extraLength := byteLength extra;
          fileName := name; extra := extra; startsAt := 0 |}.
Proof.
  intros extra Hgp Hm Hcrc Hname Hextra Hothers Hu Hc.
  rewrite zip_local_chunks.
  set (chunks := [Vec.le32 Zip.SIG_LOCAL; _; _; _; _; _; _; _; _; _; _; _; _; _]).
  pose proof (Zle_0_nat (length name)) as Hn0.
  pose proof (Zle_0_nat (length extra)) as Hx0.
  assert (Hp12 : Z.of_nat (length (concat (take 12 chunks)))
                 = 0 + 30 + byteLength name).
  { subst chunks. cbn [take firstn concat]. rewrite !length_app.
    unfold Vec.le32, Vec.le16, byteLength. rewrite !length_le_bytes.
    cbn [length]. lia. }
  unfold Zip.readLocalFile, DataView.getUint32, DataView.getUint16.
  rewrite (word_chunk chunks more 7 3 0xffffffff) by word_side. cbn [bind].
  rewrite (word_chunk chunks more 8 3 0xffffffff) by word_side. cbn [bind].
  rewrite (word_chunk chunks more 9 1 (byteLength name)) by word_side.
  cbn [bind].
  rewrite (word_chunk chunks more 10 1 (byteLength extra))
    by first [ reflexivity
             | change (Z.of_nat 2) with 2; unfold byteLength in *; lia ].
  cbn [bind].
  rewrite (string_chunk chunks more 12 extra)
    by first [ reflexivity | symmetry; exact Hp12 ].
  cbn [bind].
  change (0xffffffff =? 0xffffffff) with true. cbn [andb].
  (* the search runs on the buffer given by its parts *)
  set (pre := Vec.le32 Zip.SIG_LOCAL ++ Vec.le16 20 ++ Vec.le16 gp
              ++ Vec.le16 method ++ Vec.le16 0 ++ Vec.le16 0 ++ Vec.le32 crc
              ++ Vec.le32 0xffffffff ++ Vec.le32 0xffffffff
              ++ Vec.le16 (byteLength name) ++ Vec.le16 (byteLength extra)
              ++ name).
  assert (Hpre : byteLength pre = 0 + 30 + byteLength name).
  { subst pre. rewrite !byteLength_app.
    unfold Vec.le32, Vec.le16, byteLength. rewrite !length_le_bytes. lia. }
  assert (Hdv : concat chunks ++ more
                = pre ++ flat_map extra_field others
                  ++ zip64_info usize csize ++ data ++ more).
  { subst chunks pre extra. cbn [concat]. rewrite app_nil_r, <- !app_assoc.
    reflexivity. }
  assert (Hxl : byteLength extra
                = byteLength (flat_map extra_field others) + 20).
  { subst extra. rewrite byteLength_app, byteLength_zip64_info.
    reflexivity. }
  assert (Hfound : Zip.zip64_field (Z.to_nat (byteLength extra))
                     (concat chunks ++ more) (0 + 30 + byteLength name)
                     (0 + 30 + byteLength name + byteLength extra - 4)
                   = Ok (Some (of_bigint usize, of_bigint csize))).
  { rewrite Hdv, <- Hpre, Hxl.
    replace (byteLength pre
             + (byteLength (flat_map extra_field others) + 20) - 4)
      with (byteLength pre + byteLength (flat_map extra_field others)
            + 20 - 4) by lia.
    apply zip64_field_found; try assumption.
    pose proof (length_extra_fields others). unfold byteLength. lia. }
  rewrite Hfound. cbn [bind].
  rewrite (string_chunk chunks more 0 (Vec.le32 Zip.SIG_LOCAL))
    by reflexivity.
  cbn [bind].
  rewrite (word_chunk chunks more 1 1 20) by word_side. cbn [bind].
  rewrite (word_chunk chunks more 2 1 gp) by word_side. cbn [bind].
  rewrite (word_chunk chunks more 3 1 method) by word_side. cbn [bind].
  rewrite (word_chunk chunks more 4 1 0) by word_side. cbn [bind].
  rewrite (word_chunk chunks more 5 1 0) by word_side. cbn [bind].
  rewrite (word_chunk chunks more 6 3 crc) by word_side. cbn [bind].
  rewrite (string_chunk chunks more 11 name) by reflexivity.
  cbn [bind]. reflexivity.
Qed.

Lemma readLocalFile_zip64_witness :
  Zip.readLocalFile
    (Vec.zip_local 0 8 0 0xffffffff 0xffffffff (Text.str "a")
       (flat_map extra_field [(0x5455, [x03])] ++ zip64_info 5 3)
       [x01; x02; x03]
     ++ Vec.zip_end) 0
  = Ok {| signature := Vec.le32 Zip.SIG_LOCAL; version := 20;
          generalPurpose := 0; compressionMethod := 8;
          lastModifiedTime := 0; lastModifiedDate := 0; crc := 0;
          compressedSize := of_bigint 3;
          uncompressedSize := of_bigint 5;
          fileNameLength := byteLength (Text.str "a");
          extraLength :=
            byteLength (flat_map extra_field [(0x5455, [x03])]
                        ++ zip64_info 5 3);
          fileName := Text.str "a";
          extra := flat_map extra_field [(0x5455, [x03])] ++ zip64_info 5 3;
          startsAt := 0 |}.
Proof.
  apply (readLocalFile_zip64 0 8 0 (Text.str "a") [(0x5455, [x03])] 5 3
           [x01; x02; x03] Vec.zip_end);
    first [ lia | reflexivity
          | apply Forall_cons; split; [| apply Forall_nil_2];
            split; [cbn; lia | split; [discriminate | reflexivity]] ].
Defined.
